(** * LitePlex streaming bridge: relay route and chat stream consumer

    A shallow embedding of the two halves of the streaming protocol bridge
    of LitePlex:

    - the relay route [POST] (the Next.js API route that re-frames the
      backend's event stream for the browser), and
    - [ChatInterface.sendMessage] and [ChatInterface.stopGeneration] (the
      browser-side read loop that applies the relayed events to the
      conversation, and its cancellation).

    Text is a [string]: the sequence of characters the [TextDecoder] has
    produced. With [{stream: true}] the decoder keeps an incomplete byte
    sequence for the next call, so the concatenation of the decoded chunks
    is the decoded concatenation, and the read loops are modelled on decoded
    chunks. White space is that of the 7-bit alphabet.

    [JSON.parse] and [JSON.stringify] are platform functions: the read loops
    take the first as a parameter, and [Json] gives an executable instance
    on which the concrete scenarios are run. React applies each state
    updater once ([reactStrictMode: false] in [next.config.js]). *)

From Stdlib Require Import ZArith Ascii String List.
From stdpp Require Import base option list strings pretty gmap.

Local Open Scope Z_scope.

Set Warnings "-register-all".

(** ** JavaScript string primitives used by the two read loops *)

Module Text.

Definition LF : ascii := "010"%char.

Definition is_LF (c : ascii) : bool := bool_decide (c = LF).

(** [s.split('\n')]: the segments between line feeds; never empty. *)
Fixpoint split (s : string) : list string :=
  match s with
  | EmptyString => [EmptyString]
  | String c s' =>
      if is_LF c then EmptyString :: split s'
      else match split s' with
           | [] => [String c EmptyString]
           | seg :: segs => String c seg :: segs
           end
  end.

(** [s.startsWith(p)] *)
Fixpoint startsWith (p s : string) : bool :=
  match p, s with
  | EmptyString, _ => true
  | String a p', String b s' => bool_decide (a = b) && startsWith p' s'
  | String _ _, EmptyString => false
  end.

(** [s.slice(n)] for a non-negative [n] *)
Fixpoint slice (n : nat) (s : string) : string :=
  match n, s with
  | O, _ => s
  | S n', String _ s' => slice n' s'
  | S _, EmptyString => EmptyString
  end.

Fixpoint trimStart (s : string) : string :=
  match s with
  | String c s' => if Ascii.is_space c then trimStart s' else s
  | EmptyString => EmptyString
  end.

(** [s.trim()] *)
Definition trim (s : string) : string :=
  String.rev (trimStart (String.rev (trimStart s))).

Fixpoint has_LF (s : string) : bool :=
  match s with
  | EmptyString => false
  | String c s' => is_LF c || has_LF s'
  end.

(** [chunks.join('')] *)
Definition concat (chunks : list string) : string :=
  foldr String.append EmptyString chunks.

End Text.

(** ** The reassembly buffer shared by both read loops

    [buffer += chunk; const lines = buffer.split('\n');
     buffer = lines.pop() || ''] *)

Module Reassembly.

(** The complete lines: [lines] after [lines.pop()]. *)
Definition lines_of (buffer chunk : string) : list string :=
  removelast (Text.split (buffer +:+ chunk)).

(** The new buffer: [lines.pop() || '']. *)
Definition rest_of (buffer chunk : string) : string :=
  default EmptyString (last (Text.split (buffer +:+ chunk))).

End Reassembly.

(** ** Data model *)

Inductive Role := user | assistant.

Global Instance Role_eq_dec : EqDecision Role.
Proof. solve_decision. Defined.

Module Source.
(** [interface Source { index: number; title: string; url: string }] *)
Record t := mk { index : Z; title : string; url : string }.
End Source.

Module Message.
(** [interface Message]; an optional field is an [option]. *)
Record t := mk {
  id : string;
  role : Role;
  content : string;
  thinking : option string;
  sources : option (list Source.t);
  timestamp : Z
}.

Definition with_content (c : string) (m : t) : t :=
  mk (id m) (role m) c (thinking m) (sources m) (timestamp m).
Definition with_thinking (th : option string) (m : t) : t :=
  mk (id m) (role m) (content m) th (sources m) (timestamp m).
(** [{...m, sources: s}] *)
Definition with_sources (s : option (list Source.t)) (m : t) : t :=
  mk (id m) (role m) (content m) (thinking m) s (timestamp m).
End Message.

Module WorkflowStatus.
(** [type WorkflowStatus = 'thinking' | 'searching' | 'summarizing' | null];
    [null] is [None] where the type is used. *)
Inductive t := thinking | searching | summarizing.
End WorkflowStatus.

Module Wire.
(** The object carried by one frame, as the two read loops see it after
    [JSON.parse]: the properties they read, [None] for [undefined]. *)
Record t := mk {
  type : option string;
  messageId : option string;
  id : option string;
  status : option string;
  content : option string;
  delta : option string;
  sources : option (list Source.t)
}.

Definition empty : t := mk None None None None None None None.

Definition has_type (ty : string) (w : t) : bool :=
  bool_decide (type w = Some ty).
End Wire.

Module Event.
(** The events of the outbound protocol, one constructor per frame the
    relay writes. The relay writes no error frame and the chat loop reads
    none, so there is no constructor for one. *)
Inductive t :=
| Start (messageId : string)
| TextStart (spanId : string)
| Status (status : string)
| Thinking (content : string)
| TextDelta (spanId : string) (delta : string)
| Sources (sources : list Source.t)
| TextEnd (spanId : string)
| Done.

(** The object the relay passes to [JSON.stringify] for each event;
    [Done] is the literal sentinel and carries no object. *)
Definition wire (e : t) : option Wire.t :=
  match e with
  | Start m => Some (Wire.mk (Some "start") (Some m) None None None None None)
  | TextStart i => Some (Wire.mk (Some "text-start") None (Some i) None None None None)
  | Status s => Some (Wire.mk (Some "status") None None (Some s) None None None)
  | Thinking c => Some (Wire.mk (Some "thinking") None None None (Some c) None None)
  | TextDelta i d => Some (Wire.mk (Some "text-delta") None (Some i) None None (Some d) None)
  | Sources l => Some (Wire.mk (Some "sources") None None None None None (Some l))
  | TextEnd i => Some (Wire.mk (Some "text-end") None (Some i) None None None None)
  | Done => None
  end.

Definition deltas (evs : list t) : string :=
  Text.concat (omap (λ e, match e with TextDelta _ d => Some d | _ => None end) evs).

Definition thoughts (evs : list t) : string :=
  Text.concat (omap (λ e, match e with Thinking c => Some c | _ => None end) evs).
End Event.

(** [a || b] on optional strings: [undefined] and [''] are falsy. *)
Definition js_or (a b : option string) : option string :=
  match a with
  | Some (String _ _) => a
  | _ => b
  end.

(** [a || ''] *)
Definition or_empty (a : option string) : string := default EmptyString a.

(** ** The chat component: [ChatInterface] *)

Module Chat.

(** The component's state: the [useState] cells and the abort-controller
    ref. A controller is named by a number; [renderError] records that a
    state updater threw. *)
Record State := mkState {
  messages : list Message.t;
  input : string;
  isLoading : bool;
  currentStatus : option WorkflowStatus.t;
  abortControllerRef : option nat;
  renderError : bool
}.

(** [setMessages(updater)]: the updater receives the previous list; it
    returns [None] when it throws ([lastMessage] is [undefined] on an empty
    list and [lastMessage.role] is a [TypeError]). *)
Definition setMessages (updater : list Message.t → option (list Message.t))
    (st : State) : State :=
  match updater (messages st) with
  | Some newMessages =>
      mkState newMessages (input st) (isLoading st) (currentStatus st)
        (abortControllerRef st) (renderError st)
  | None =>
      mkState (messages st) (input st) (isLoading st) (currentStatus st)
        (abortControllerRef st) true
  end.

Definition setInput (v : string) (st : State) : State :=
  mkState (messages st) v (isLoading st) (currentStatus st)
    (abortControllerRef st) (renderError st).

Definition setIsLoading (v : bool) (st : State) : State :=
  mkState (messages st) (input st) v (currentStatus st)
    (abortControllerRef st) (renderError st).

Definition setCurrentStatus (v : option WorkflowStatus.t) (st : State) : State :=
  mkState (messages st) (input st) (isLoading st) v
    (abortControllerRef st) (renderError st).

Definition setAbortControllerRef (v : option nat) (st : State) : State :=
  mkState (messages st) (input st) (isLoading st) (currentStatus st)
    v (renderError st).

(** The shape shared by the updaters that mutate the last message:
    [const newMessages = [...prev];
     const lastMessage = newMessages[newMessages.length - 1];
     if (lastMessage.role === 'assistant') { ... }] *)
Definition onLastAssistant (f : Message.t → Message.t) (prev : list Message.t)
  : option (list Message.t) :=
  lastMessage ← last prev;
  if bool_decide (Message.role lastMessage = assistant)
  then Some (<[pred (length prev) := f lastMessage]> prev)
  else Some prev.

(** [lastMessage.content += parsed.content || parsed.delta || ''] *)
Definition appendContent (parsed : Wire.t) : list Message.t → option (list Message.t) :=
  onLastAssistant (λ lastMessage,
    Message.with_content
      (Message.content lastMessage
         +:+ or_empty (js_or (Wire.content parsed) (Wire.delta parsed)))
      lastMessage).

(** [{...lastMessage, sources: parsed.sources}] stored at the last index *)
Definition replaceSources (parsed : Wire.t) : list Message.t → option (list Message.t) :=
  onLastAssistant (Message.with_sources (Wire.sources parsed)).

(** [lastMessage.thinking = (lastMessage.thinking || '') + (parsed.content || '')] *)
Definition appendThinking (parsed : Wire.t) : list Message.t → option (list Message.t) :=
  onLastAssistant (λ lastMessage,
    Message.with_thinking
      (Some (or_empty (Message.thinking lastMessage)
               +:+ or_empty (Wire.content parsed)))
      lastMessage).

(** [lastMessage.content = 'Sorry, an error occurred. Please try again.'] *)
Definition failureText : string := "Sorry, an error occurred. Please try again.".

Definition overwriteWithFailure : list Message.t → option (list Message.t) :=
  onLastAssistant (Message.with_content failureText).

(** The chain "Handle different event types" applied to a parsed object. *)
Definition handleParsed (parsed : Wire.t) (st : State) : State :=
  if Wire.has_type "content" parsed || Wire.has_type "text-delta" parsed then
    setMessages (appendContent parsed) st
  else if Wire.has_type "sources" parsed then
    setMessages (replaceSources parsed) st
  else if Wire.has_type "thinking" parsed then
    setMessages (appendThinking parsed) st
  else if Wire.has_type "status" parsed then
    if bool_decide (Wire.status parsed = Some "searching") then
      setCurrentStatus (Some WorkflowStatus.searching) st
    else if bool_decide (Wire.status parsed = Some "summarizing") then
      setCurrentStatus (Some WorkflowStatus.summarizing) st
    else st
  else st.

(** An event of the protocol handed to the chain; the sentinel [Done] never
    reaches it. *)
Definition applyEvent (st : State) (e : Event.t) : State :=
  match Event.wire e with
  | Some parsed => handleParsed parsed st
  | None => st
  end.

Definition applyEvents (st : State) (evs : list Event.t) : State :=
  foldl applyEvent st evs.

(** What one line of a chunk asks of the loop. *)
Inductive LineAction :=
| Ignore                      (* not a [data: ] line, or not decodable *)
| Break                       (* the sentinel: leave the [for] loop *)
| Handle (parsed : Wire.t).

Section ReadLoop.

(** [JSON.parse] followed by the property reads; [None] when the [try]
    block is left through its [catch] (a [SyntaxError], or [null], whose
    [.type] is a [TypeError]). *)
Variable JSON_parse : string → option Wire.t.

Definition classify (line : string) : LineAction :=
  if Text.startsWith "data: " line then
    let data := Text.trim (Text.slice 6 line) in
    if bool_decide (data = "[DONE]") then Break
    else match JSON_parse data with
         | Some parsed => Handle parsed
         | None => Ignore
         end
  else Ignore.

(** [for (const line of lines) { ... }], generic in what handling a
    parsed object does. *)
Fixpoint forLines {S : Type} (handle : Wire.t → S → S)
    (lines : list string) (s : S) : S :=
  match lines with
  | [] => s
  | line :: lines' =>
      match classify line with
      | Ignore => forLines handle lines' s
      | Break => s
      | Handle parsed => forLines handle lines' (handle parsed s)
      end
  end.

(** One iteration of [while (true)] after a successful read. *)
Definition onChunk {S : Type} (handle : Wire.t → S → S)
    (buffer chunk : string) (s : S) : string * S :=
  (Reassembly.rest_of buffer chunk,
   forLines handle (Reassembly.lines_of buffer chunk) s).

Fixpoint onChunks {S : Type} (handle : Wire.t → S → S)
    (buffer : string) (chunks : list string) (s : S) : string * S :=
  match chunks with
  | [] => (buffer, s)
  | chunk :: chunks' =>
      let '(buffer', s') := onChunk handle buffer chunk s in
      onChunks handle buffer' chunks' s'
  end.

(** The parsed objects handed to the chain, in order, for a sequence of
    chunks read from an empty buffer. *)
Definition decoded (chunks : list string) : list Wire.t :=
  snd (onChunks (λ parsed acc, acc ++ [parsed]) EmptyString chunks []).

End ReadLoop.

(** *** [sendMessage] and [stopGeneration] as a transition system

    [sendMessage] is an [async] function: it runs to its next [await]
    without interruption, and is resumed when the awaited promise settles.
    A call in flight is an [Invocation]: the controller it created and the
    [await] it is suspended at. *)

Inductive Phase :=
| AwaitFetch                         (* [await fetch('/api/chat', ...)] *)
| AwaitRead (buffer : string).       (* [await reader.read()] *)

Record Invocation := mkInvocation { controller : nat; phase : Phase }.

(** The three ways out of the [try] statement. *)
Inductive Outcome :=
| Completed                          (* the loop ended on [done] *)
| Aborted                            (* [catch], [error.name === 'AbortError'] *)
| Errored.                           (* [catch], any other error *)

(** The request handed to [fetch]: the mapped messages and the signal. *)
Record Request := mkRequest {
  bodyMessages : list (Role * string);
  signal : nat
}.

Record Config := mkConfig {
  ui : State;
  running : list Invocation;
  requests : list Request;
  outcomes : list (nat * Outcome);
  nextController : nat
}.

(** The clock readings of one call: [Date.now()] twice, [new Date()] twice. *)
Record Clock := mkClock {
  userNow : Z; userDate : Z; assistantNow : Z; assistantDate : Z
}.

(** What the environment does to the component. *)
Inductive Input :=
| Submit (messageText : string) (clock : Clock)   (* [sendMessage(messageText)] *)
| Stop                                            (* [stopGeneration()] *)
| FetchResolved (c : nat) (ok : bool) (hasBody : bool)
| FetchRejected (c : nat)
| ReadValue (c : nat) (chunk : string)            (* [{ done: false, value }] *)
| ReadDone (c : nat)                              (* [{ done: true }] *)
| ReadRejected (c : nat).

(** The initial state of the cells; [saved] is what [sessionStorage] held
    and parsed to, if anything. *)
Definition mount (saved : option (list Message.t)) : Config :=
  mkConfig (mkState (default [] saved) EmptyString false None None false)
    [] [] [] O.

Definition userMessage (messageText : string) (clock : Clock) : Message.t :=
  Message.mk (pretty (userNow clock)) user messageText None None (userDate clock).

Definition assistantMessage (clock : Clock) : Message.t :=
  Message.mk (pretty (assistantNow clock + 1)) assistant EmptyString
    (Some EmptyString) None (assistantDate clock).

Definition pushMessage (m : Message.t) (prev : list Message.t)
  : option (list Message.t) := Some (prev ++ [m]).

(** [sendMessage] up to its first [await]. [isLoading] and [messages] are
    the values the function closed over at the last render; the component
    re-renders between two user events, so they are the cells' values. The
    provider configuration read from [localStorage] is passed through to the
    request unread and is not modelled. *)
Definition sendMessage (messageText : string) (clock : Clock) (cfg : Config) : Config :=
  if bool_decide (Text.trim messageText = EmptyString) || isLoading (ui cfg) then cfg
  else
    let c := nextController cfg in
    let st1 := setAbortControllerRef (Some c) (ui cfg) in
    let st2 := setMessages (pushMessage (userMessage messageText clock)) st1 in
    let st3 := setCurrentStatus (Some WorkflowStatus.thinking)
                 (setIsLoading true (setInput EmptyString st2)) in
    let st4 := setMessages (pushMessage (assistantMessage clock)) st3 in
    let body := (λ m, (Message.role m, Message.content m))
                  <$> (messages (ui cfg) ++ [userMessage messageText clock]) in
    mkConfig st4
      (running cfg ++ [mkInvocation c AwaitFetch])
      (requests cfg ++ [mkRequest body c])
      (outcomes cfg)
      (S c).

(** The [catch] block. *)
Definition catch (o : Outcome) (st : State) : State :=
  match o with
  | Errored => setMessages overwriteWithFailure st
  | _ => st
  end.

(** The [finally] block. *)
Definition finally (st : State) : State :=
  setAbortControllerRef None (setCurrentStatus None (setIsLoading false st)).

Definition lookupInvocation (c : nat) (invs : list Invocation) : option Invocation :=
  List.find (λ inv, bool_decide (controller inv = c)) invs.

Definition setPhase (c : nat) (ph : Phase) (invs : list Invocation) : list Invocation :=
  (λ inv, if bool_decide (controller inv = c) then mkInvocation c ph else inv) <$> invs.

Definition dropInvocation (c : nat) (invs : list Invocation) : list Invocation :=
  List.filter (λ inv, negb (bool_decide (controller inv = c))) invs.

(** The call that owns controller [c] leaves its [try] statement. *)
Definition settle (c : nat) (o : Outcome) (cfg : Config) : Config :=
  mkConfig (finally (catch o (ui cfg)))
    (dropInvocation c (running cfg))
    (requests cfg)
    (outcomes cfg ++ [(c, o)])
    (nextController cfg).

(** [stopGeneration]: abort the controller in the ref, if any; the call
    suspended on its signal is rejected with an [AbortError]. *)
Definition stopGeneration (cfg : Config) : Config :=
  match abortControllerRef (ui cfg) with
  | Some c =>
      match lookupInvocation c (running cfg) with
      | Some _ => settle c Aborted cfg
      | None => cfg
      end
  | None => cfg
  end.

Section Step.

Variable JSON_parse : string → option Wire.t.

Definition step (cfg : Config) (i : Input) : Config :=
  match i with
  | Submit messageText clock => sendMessage messageText clock cfg
  | Stop => stopGeneration cfg
  | FetchResolved c ok hasBody =>
      match lookupInvocation c (running cfg) with
      | Some (mkInvocation _ AwaitFetch) =>
          if ok && hasBody then
            mkConfig (ui cfg) (setPhase c (AwaitRead EmptyString) (running cfg))
              (requests cfg) (outcomes cfg) (nextController cfg)
          else settle c Errored cfg
      | _ => cfg
      end
  | FetchRejected c =>
      match lookupInvocation c (running cfg) with
      | Some (mkInvocation _ AwaitFetch) => settle c Errored cfg
      | _ => cfg
      end
  | ReadValue c chunk =>
      match lookupInvocation c (running cfg) with
      | Some (mkInvocation _ (AwaitRead buffer)) =>
          let '(buffer', st') := onChunk JSON_parse handleParsed buffer chunk (ui cfg) in
          mkConfig st' (setPhase c (AwaitRead buffer') (running cfg))
            (requests cfg) (outcomes cfg) (nextController cfg)
      | _ => cfg
      end
  | ReadDone c =>
      match lookupInvocation c (running cfg) with
      | Some (mkInvocation _ (AwaitRead _)) => settle c Completed cfg
      | _ => cfg
      end
  | ReadRejected c =>
      match lookupInvocation c (running cfg) with
      | Some (mkInvocation _ (AwaitRead _)) => settle c Errored cfg
      | _ => cfg
      end
  end.

Definition run (cfg : Config) (inputs : list Input) : Config :=
  foldl step cfg inputs.

End Step.

End Chat.

(** ** The relay route: [POST] *)

Module Relay.

(** What the route enqueues on its stream: [data: ${JSON.stringify(obj)}\n\n]
    or [data: [DONE]\n\n]. *)
Inductive Frame :=
| FrameJson (obj : Wire.t)
| FrameDone.

Definition ofEvent (e : Event.t) : Frame :=
  match Event.wire e with
  | Some obj => FrameJson obj
  | None => FrameDone
  end.

Definition frameDelimiter : string := String Text.LF (String Text.LF EmptyString).

(** The text of a frame with payload [payload]. *)
Definition frameText (payload : string) : string :=
  "data: " +:+ payload +:+ frameDelimiter.

Definition payload (JSON_stringify : Wire.t → string) (f : Frame) : string :=
  match f with
  | FrameJson obj => JSON_stringify obj
  | FrameDone => "[DONE]"
  end.

Definition encode (JSON_stringify : Wire.t → string) (f : Frame) : string :=
  frameText (payload JSON_stringify f).

(** The text the route has written once it has enqueued [frames]. *)
Definition written (JSON_stringify : Wire.t → string) (frames : list Frame) : string :=
  Text.concat (encode JSON_stringify <$> frames).

(** The request body after [req.json()]. *)
Record Body := mkBody {
  messages : option (list (Role * option string));
  llmConfig : option string
}.

(** The three random identifiers of one request. *)
Record Ids := mkIds { sessionId : string; messageId : string; textId : string }.

(** How the upstream body ends: [{ done: true }], or [reader.read()] rejects. *)
Inductive ReadEnd := EndOfStream | ReadFailure.

(** What one call of [fetch] to the backend yields. *)
Inductive FetchResult :=
| Rejected
| Responded (status : Z) (body : option (list string * ReadEnd)).

(** [response.ok] *)
Definition ok (status : Z) : bool := (200 <=? status) && (status <=? 299).

Record UpstreamRequest := mkUpstreamRequest {
  up_messages : list (Role * option string);
  up_chatId : string;
  up_sessionId : string;
  up_llmConfig : option string
}.

Inductive Response :=
| JsonResponse (status : Z) (error : string)
| StreamResponse (headers : list (string * string)) (enqueued : list Frame) (closed : bool).

(** The outer [catch]: [{ error: 'Failed to process chat request' }], status 500. *)
Definition failure : Response := JsonResponse 500 "Failed to process chat request".

Definition sseHeaders : list (string * string) :=
  [("Content-Type", "text/event-stream"); ("Cache-Control", "no-cache");
   ("Connection", "keep-alive"); ("x-vercel-ai-ui-message-stream", "v1")].

Definition startFrame (ids : Ids) : Frame :=
  FrameJson (Wire.mk (Some "start") (Some (messageId ids)) None None None None None).
Definition textStartFrame (ids : Ids) : Frame :=
  FrameJson (Wire.mk (Some "text-start") None (Some (textId ids)) None None None None).
Definition textEndFrame (ids : Ids) : Frame :=
  FrameJson (Wire.mk (Some "text-end") None (Some (textId ids)) None None None None).

(** The chain on [data.type]: the frames enqueued for one upstream object. *)
Definition forward (ids : Ids) (data : Wire.t) : list Frame :=
  if Wire.has_type "status" data then
    [FrameJson (Wire.mk (Some "status") None None (Wire.status data) None None None)]
  else if Wire.has_type "thinking" data then
    [FrameJson (Wire.mk (Some "thinking") None None None (Wire.content data) None None)]
  else if Wire.has_type "content" data then
    [FrameJson (Wire.mk (Some "text-delta") None (Some (textId ids)) None None
                  (Wire.content data) None)]
  else if Wire.has_type "sources" data then
    [FrameJson (Wire.mk (Some "sources") None None None None None (Wire.sources data))]
  else [].

Section Route.

(** [JSON.parse] on an upstream line; [None] when the inner [try] is left
    through its [catch]. *)
Variable JSON_parse : string → option Wire.t.

Definition forLine (ids : Ids) (line : string) : list Frame :=
  if Text.startsWith "data: " line then
    match JSON_parse (Text.slice 6 line) with
    | Some data => forward ids data
    | None => []
    end
  else [].

(** The [while (true)] loop over the upstream chunks. *)
Fixpoint pump (ids : Ids) (buffer : string) (chunks : list string) : list Frame :=
  match chunks with
  | [] => []
  | chunk :: chunks' =>
      flat_map (forLine ids) (Reassembly.lines_of buffer chunk)
        ++ pump ids (Reassembly.rest_of buffer chunk) chunks'
  end.

(** The [start] callback of the [ReadableStream]. *)
Definition start (ids : Ids) (body : option (list string * ReadEnd)) : list Frame :=
  match body with
  | None => []
  | Some (chunks, e) =>
      [startFrame ids; textStartFrame ids]
        ++ pump ids EmptyString chunks
        ++ match e with
           | EndOfStream => [textEndFrame ids; FrameDone]
           | ReadFailure => []
           end
  end.

(** [POST]: [backend n] is what the [n]-th call of [fetch] would yield;
    the result is the response and the calls of [fetch] made. *)
Definition POST (req : option Body) (ids : Ids) (backend : nat → FetchResult)
  : Response * list UpstreamRequest :=
  match req with
  | None => (failure, [])
  | Some body =>
      let messages := default [] (messages body) in
      if bool_decide (length messages = O) then (failure, [])
      else
        let userMessage := or_empty (last messages ≫= snd) in
        if bool_decide (userMessage = EmptyString) then (failure, [])
        else
          let request :=
            mkUpstreamRequest messages "default" (sessionId ids) (llmConfig body) in
          match backend O with
          | Rejected => (failure, [request])
          | Responded status upstreamBody =>
              if ok status then
                (StreamResponse sseHeaders (start ids upstreamBody) true, [request])
              else (failure, [request])
          end
  end.

End Route.

End Relay.

(** ** A reference codec

    An executable instance of the two platform functions, on the fragment of
    JSON the protocol uses: objects, arrays, strings with the two-character
    escapes, integers and the three literals. [decode] is [JSON.parse]
    followed by the property reads of the read loops. It stands for
    [JSON.parse] on texts that are not JSON, on [null], and on objects whose
    protocol properties are absent or of the protocol's types; texts with
    fractions, exponents or [\u] escapes are outside the fragment. *)

Module Json.

Inductive value :=
| Null
| Bool (b : bool)
| Num (z : Z)
| Str (s : string)
| Arr (elements : list value)
| Obj (members : list (string * value)).

Definition dq : ascii := "034"%char.
Definition backslash : ascii := "092"%char.

Definition is_ws (c : ascii) : bool :=
  match c with
  | " " | "009" | "010" | "013" => true
  | _ => false
  end%char.

Fixpoint skip_ws (s : string) : string :=
  match s with
  | String c s' => if is_ws c then skip_ws s' else s
  | EmptyString => EmptyString
  end.

Definition is_control (c : ascii) : bool := (nat_of_ascii c <? 32)%nat.

Definition unescape (c : ascii) : option ascii :=
  match c with
  | "034" => Some "034" | "092" => Some "092" | "/" => Some "/"
  | "b" => Some "008" | "f" => Some "012" | "n" => Some "010"
  | "r" => Some "013" | "t" => Some "009"
  | _ => None
  end%char.

(** The characters of a string literal, after its opening quote. *)
Fixpoint parse_chars (s : string) : option (string * string) :=
  match s with
  | EmptyString => None
  | String c s' =>
      if bool_decide (c = dq) then Some (EmptyString, s')
      else if bool_decide (c = backslash) then
        match s' with
        | String e s'' =>
            match unescape e, parse_chars s'' with
            | Some ch, Some (str, rest) => Some (String ch str, rest)
            | _, _ => None
            end
        | EmptyString => None
        end
      else if is_control c then None
      else match parse_chars s' with
           | Some (str, rest) => Some (String c str, rest)
           | None => None
           end
  end.

Fixpoint parse_digits (acc : N) (s : string) : N * string :=
  match s with
  | String c s' =>
      match Ascii.is_nat c with
      | Some d => parse_digits (acc * 10 + N.of_nat d)%N s'
      | None => (acc, s)
      end
  | EmptyString => (acc, s)
  end.

(** An integer without sign; a leading zero stands alone. *)
Definition parse_nat (s : string) : option (N * string) :=
  match s with
  | String c s' =>
      match Ascii.is_nat c with
      | Some O =>
          match s' with
          | String c' _ =>
              if bool_decide (is_Some (Ascii.is_nat c')) then None
              else if bool_decide (c' ∈ ["."; "e"; "E"]%char) then None
              else Some (0%N, s')
          | EmptyString => Some (0%N, s')
          end
      | Some _ =>
          let '(n, rest) := parse_digits 0%N s in
          match rest with
          | String c' _ =>
              if bool_decide (c' ∈ ["."; "e"; "E"]%char) then None else Some (n, rest)
          | EmptyString => Some (n, rest)
          end
      | None => None
      end
  | EmptyString => None
  end.

Definition expect (lit : string) (v : value) (s : string) : option (value * string) :=
  if Text.startsWith lit s then Some (v, Text.slice (String.length lit) s) else None.

Fixpoint parse_value (fuel : nat) (s : string) : option (value * string) :=
  match fuel with
  | O => None
  | S fuel' =>
      match skip_ws s with
      | EmptyString => None
      | String c s' =>
          if bool_decide (c = dq) then
            '(str, rest) ← parse_chars s'; Some (Str str, rest)
          else if bool_decide (c = "["%char) then
            match skip_ws s' with
            | String "]" rest => Some (Arr [], rest)
            | _ => '(vs, rest) ← parse_elements fuel' s'; Some (Arr vs, rest)
            end
          else if bool_decide (c = "{"%char) then
            match skip_ws s' with
            | String "}" rest => Some (Obj [], rest)
            | _ => '(ms, rest) ← parse_members fuel' s'; Some (Obj ms, rest)
            end
          else if bool_decide (c = "-"%char) then
            '(n, rest) ← parse_nat s'; Some (Num (- Z.of_N n), rest)
          else if bool_decide (c = "t"%char) then expect "true" (Bool true) (String c s')
          else if bool_decide (c = "f"%char) then expect "false" (Bool false) (String c s')
          else if bool_decide (c = "n"%char) then expect "null" Null (String c s')
          else '(n, rest) ← parse_nat (String c s'); Some (Num (Z.of_N n), rest)
      end
  end
with parse_elements (fuel : nat) (s : string) : option (list value * string) :=
  match fuel with
  | O => None
  | S fuel' =>
      '(v, rest) ← parse_value fuel' s;
      match skip_ws rest with
      | String "]" rest' => Some ([v], rest')
      | String "," rest' =>
          '(vs, rest'') ← parse_elements fuel' rest'; Some (v :: vs, rest'')
      | _ => None
      end
  end
with parse_members (fuel : nat) (s : string) : option (list (string * value) * string) :=
  match fuel with
  | O => None
  | S fuel' =>
      match skip_ws s with
      | String c s' =>
          if bool_decide (c = dq) then
            '(key, rest) ← parse_chars s';
            match skip_ws rest with
            | String ":" rest' =>
                '(v, rest'') ← parse_value fuel' rest';
                match skip_ws rest'' with
                | String "}" rest3 => Some ([(key, v)], rest3)
                | String "," rest3 =>
                    '(ms, rest4) ← parse_members fuel' rest3;
                    Some ((key, v) :: ms, rest4)
                | _ => None
                end
            | _ => None
            end
          else None
      | EmptyString => None
      end
  end.

(** [JSON.parse]: one value and nothing but white space after it. *)
Definition parse (s : string) : option value :=
  '(v, rest) ← parse_value (S (String.length s)) s;
  if bool_decide (skip_ws rest = EmptyString) then Some v else None.

(** [obj[key]]: the last member with that key wins. *)
Definition get (key : string) (members : list (string * value)) : option value :=
  snd <$> last (filter (λ kv, fst kv = key) members).

(** A property of string type: absent, or a string. *)
Definition asString (v : option value) : option (option string) :=
  match v with
  | None => Some None
  | Some (Str s) => Some (Some s)
  | Some _ => None
  end.

Definition asSource (v : value) : option Source.t :=
  match v with
  | Obj ms =>
      match get "index" ms, get "title" ms, get "url" ms with
      | Some (Num i), Some (Str t), Some (Str u) => Some (Source.mk i t u)
      | _, _, _ => None
      end
  | _ => None
  end.

Definition asSources (v : option value) : option (option (list Source.t)) :=
  match v with
  | None => Some None
  | Some (Arr vs) => Some <$> mapM asSource vs
  | Some _ => None
  end.

(** The property reads on a parsed value; reading a property of [null]
    throws. *)
Definition toWire (v : value) : option Wire.t :=
  match v with
  | Null => None
  | Obj ms =>
      ty ← asString (get "type" ms);
      mid ← asString (get "messageId" ms);
      i ← asString (get "id" ms);
      st ← asString (get "status" ms);
      c ← asString (get "content" ms);
      d ← asString (get "delta" ms);
      srcs ← asSources (get "sources" ms);
      Some (Wire.mk ty mid i st c d srcs)
  | _ => Some Wire.empty
  end.

Definition decode (s : string) : option Wire.t := parse s ≫= toWire.

(** [JSON.stringify] on strings. *)
Definition escape (c : ascii) : string :=
  match c with
  | "034" => String backslash (String dq EmptyString)
  | "092" => String backslash (String backslash EmptyString)
  | "008" => String backslash "b"
  | "012" => String backslash "f"
  | "010" => String backslash "n"
  | "013" => String backslash "r"
  | "009" => String backslash "t"
  | _ => String c EmptyString
  end%char.

Fixpoint escaped (s : string) : string :=
  match s with
  | EmptyString => EmptyString
  | String c s' => escape c +:+ escaped s'
  end.

Definition quoted (s : string) : string :=
  String dq (escaped s +:+ String dq EmptyString).

Fixpoint commas (items : list string) : string :=
  match items with
  | [] => EmptyString
  | [item] => item
  | item :: items' => item +:+ "," +:+ commas items'
  end.

Definition member (key value : string) : string := quoted key +:+ ":" +:+ value.

Definition stringifySource (src : Source.t) : string :=
  "{" +:+ commas [member "index" (pretty (Source.index src));
                  member "title" (quoted (Source.title src));
                  member "url" (quoted (Source.url src))] +:+ "}".

Definition stringMember (key : string) (v : option string) : list string :=
  match v with
  | Some s => [member key (quoted s)]
  | None => []
  end.

(** [JSON.stringify] on the object literals of the relay: the properties
    in the order they are written, [undefined] ones left out. *)
Definition stringify (w : Wire.t) : string :=
  "{" +:+ commas (stringMember "type" (Wire.type w)
                  ++ stringMember "messageId" (Wire.messageId w)
                  ++ stringMember "id" (Wire.id w)
                  ++ stringMember "status" (Wire.status w)
                  ++ stringMember "content" (Wire.content w)
                  ++ stringMember "delta" (Wire.delta w)
                  ++ match Wire.sources w with
                     | Some srcs =>
                         [member "sources"
                            ("[" +:+ commas (stringifySource <$> srcs) +:+ "]")]
                     | None => []
                     end) +:+ "}".

End Json.

(** ** Frame sequences

    The vocabulary in which the properties of the two read loops are stated:
    the text of a sequence of frames, given by their payloads. *)

Module Frames.

(** The line a frame contributes: [data: ] and the payload. *)
Definition dataLine (payload : string) : string := "data: " +:+ payload.

(** The text of a sequence of frames. *)
Definition text (payloads : list string) : string :=
  Text.concat (Relay.frameText <$> payloads).

(** The lines of that text. *)
Definition lines (payloads : list string) : list string :=
  flat_map (λ p, [dataLine p; EmptyString]) payloads.

(** The payload is the sentinel, as the chat loop tests it. *)
Definition isDone (payload : string) : bool :=
  bool_decide (Text.trim payload = "[DONE]").

(** The payloads before the first sentinel. *)
Fixpoint beforeDone (payloads : list string) : list string :=
  match payloads with
  | [] => []
  | p :: ps => if isDone p then [] else p :: beforeDone ps
  end.

(** A valid frame sequence: no payload holds a line feed, and only the
    last frame may be the sentinel. *)
Definition valid (payloads : list string) : Prop :=
  Forall (λ p, Text.has_LF p = false) payloads
  ∧ Forall (λ p, isDone p = false) (removelast payloads).

(** [chunks] is a way of cutting [text] into pieces. *)
Definition splits (chunks : list string) (text : string) : Prop :=
  Text.concat chunks = text.

End Frames.

Module ChatLines.

Section Lines.

Variable JSON_parse : string → option Wire.t.

(** The parsed objects the chat loop hands to its chain for a list of
    lines processed by one [for] loop. *)
Definition handled (lines : list string) : list Wire.t :=
  Chat.forLines JSON_parse (λ parsed acc, acc ++ [parsed]) lines [].

(** After a line that breaks the loop, only lines without effect. *)
Fixpoint quietAfterBreak (lines : list string) : Prop :=
  match lines with
  | [] => True
  | line :: lines' =>
      match Chat.classify JSON_parse line with
      | Chat.Break => Forall (λ l, Chat.classify JSON_parse l = Chat.Ignore) lines'
      | _ => quietAfterBreak lines'
      end
  end.

(** What the payloads of a frame sequence decode to, up to the sentinel. *)
Definition decodedPayloads (payloads : list string) : list Wire.t :=
  omap (λ p, JSON_parse (Text.trim p)) (Frames.beforeDone payloads).

(** A frame on the wire and what it carries: [Some e] when its payload
    decodes to the object of the event [e], [None] when it cannot be
    decoded. The sentinel is not such a frame. *)
Definition means (frame : string * option Event.t) : Prop :=
  Text.has_LF frame.1 = false
  ∧ Frames.isDone frame.1 = false
  ∧ JSON_parse (Text.trim frame.1) = frame.2 ≫= Event.wire
  ∧ frame.2 ≠ Some Event.Done.

(** The events a sequence of such frames carries. *)
Definition carried (frames : list (string * option Event.t)) : list Event.t :=
  omap snd frames.

End Lines.

End ChatLines.


(** ** The mutation of the in-progress message, event by event

    A derived description, proved below to be what the chain does: the
    change an event makes to a last message of role assistant. *)

Module Progress.

Definition effect (e : Event.t) (m : Message.t) : Message.t :=
  match e with
  | Event.TextDelta _ d => Message.with_content (Message.content m +:+ d) m
  | Event.Thinking c =>
      Message.with_thinking (Some (or_empty (Message.thinking m) +:+ c)) m
  | Event.Sources l => Message.with_sources (Some l) m
  | _ => m
  end.

Definition effects (evs : list Event.t) (m : Message.t) : Message.t :=
  foldl (λ acc e, effect e acc) m evs.

(** A state of the component whose message list is [hist] followed by [m]. *)
Definition stateWith (hist : list Message.t) (m : Message.t) (st : Chat.State)
  : Chat.State :=
  Chat.mkState (hist ++ [m]) (Chat.input st) (Chat.isLoading st)
    (Chat.currentStatus st) (Chat.abortControllerRef st) (Chat.renderError st).

(** [after] differs from [before] at most in its last message, and only if
    that message is an assistant message, whose [id], [role] and
    [timestamp] stay. *)
Definition framed (before after : list Message.t) : Prop :=
  length after = length before
  ∧ take (pred (length before)) after = take (pred (length before)) before
  ∧ match last before with
    | Some m =>
        if bool_decide (Message.role m = assistant)
        then ∃ m', last after = Some m'
                   ∧ Message.id m' = Message.id m
                   ∧ Message.role m' = Message.role m
                   ∧ Message.timestamp m' = Message.timestamp m
        else after = before
    | None => after = before
    end.

End Progress.


(** ** Invariant of the component

    Either no call of [sendMessage] is in flight and [isLoading] is false, or
    exactly one is, [isLoading] is true and the ref holds its controller. *)

Module Invariant.

Definition idle (cfg : Chat.Config) : Prop :=
  Chat.running cfg = [] ∧ Chat.isLoading (Chat.ui cfg) = false.

Definition busy (cfg : Chat.Config) : Prop :=
  ∃ c ph, Chat.running cfg = [Chat.mkInvocation c ph]
          ∧ Chat.isLoading (Chat.ui cfg) = true
          ∧ Chat.abortControllerRef (Chat.ui cfg) = Some c.

Definition holds (cfg : Chat.Config) : Prop := idle cfg ∨ busy cfg.

End Invariant.


(** ** One exchange, from submission to the reads

    The inputs that open an exchange on a freshly mounted component and
    deliver the chunks of its response, and the request it issues. *)

Module Exchange.

Definition opening (messageText : string) (clock : Chat.Clock) : list Chat.Input :=
  [Chat.Submit messageText clock; Chat.FetchResolved O true true].

Definition reads (chunks : list string) : list Chat.Input :=
  Chat.ReadValue O <$> chunks.

Definition history (saved : option (list Message.t)) (messageText : string)
    (clock : Chat.Clock) : list Message.t :=
  default [] saved ++ [Chat.userMessage messageText clock].

Definition request (saved : option (list Message.t)) (messageText : string)
    (clock : Chat.Clock) : Chat.Request :=
  Chat.mkRequest
    ((λ m, (Message.role m, Message.content m)) <$> history saved messageText clock) O.

(** The component while the call with controller [0] reads the stream. *)
Definition reading (hist : list Message.t) (m : Message.t) (st : Chat.State)
    (partial : string) (reqs : list Chat.Request) : Chat.Config :=
  Chat.mkConfig (Progress.stateWith hist m st)
    [Chat.mkInvocation O (Chat.AwaitRead partial)] reqs [] 1%nat.

End Exchange.


(** ** The message list as an array of objects

    The updaters of [sendMessage] copy the array ([[...prev]]) but not its
    elements: [lastMessage.content += ...] mutates the object that the
    previous array holds too. Here the array holds references and the
    messages live in a heap; the sources branch alone allocates a new
    object. The list of messages used elsewhere is the [contents] of this
    store, as proved below. *)

Module Store.

Record t := mk {
  array : list nat;                      (* the references, in order *)
  objects : gmap nat Message.t           (* the objects they point to *)
}.

(** The messages the array denotes. *)
Definition contents (s : t) : list Message.t :=
  omap (λ r, objects s !! r) (array s).

(** Every reference is allocated and no object occurs twice in the array. *)
Definition wf (s : t) : Prop :=
  NoDup (array s) ∧ Forall (λ r, is_Some (objects s !! r)) (array s).

(** [setMessages(prev => [...prev, m])] for a new object [m]. *)
Definition push (m : Message.t) (s : t) : t :=
  let r := fresh (dom (objects s)) in
  mk (array s ++ [r]) (<[r := m]> (objects s)).

(** The array [JSON.parse] builds from the saved text: one new object per
    message. *)
Definition ofList (ms : list Message.t) : t :=
  foldl (λ s m, push m s) (mk [] ∅) ms.

(** [const newMessages = [...prev];
     const lastMessage = newMessages[newMessages.length - 1];
     if (lastMessage.role === 'assistant') { lastMessage.x = ... }
     return newMessages]: the object is mutated in place. *)
Definition mutateLast (f : Message.t → Message.t) (s : t) : option t :=
  lastRef ← last (array s);
  lastMessage ← objects s !! lastRef;
  if bool_decide (Message.role lastMessage = assistant)
  then Some (mk (array s) (<[lastRef := f lastMessage]> (objects s)))
  else Some s.

(** [const updatedMessage = {...lastMessage, ...};
     newMessages[newMessages.length - 1] = updatedMessage]: a new object
    takes the last place. *)
Definition replaceLast (f : Message.t → Message.t) (s : t) : option t :=
  lastRef ← last (array s);
  lastMessage ← objects s !! lastRef;
  if bool_decide (Message.role lastMessage = assistant)
  then
    let r := fresh (dom (objects s)) in
    Some (mk (<[pred (length (array s)) := r]> (array s))
            (<[r := f lastMessage]> (objects s)))
  else Some s.

(** The chain of handlers on the store; [None] when an updater throws. A
    status object touches no message. *)
Definition handleParsed (parsed : Wire.t) (s : t) : option t :=
  if Wire.has_type "content" parsed || Wire.has_type "text-delta" parsed then
    mutateLast (λ lastMessage,
      Message.with_content
        (Message.content lastMessage
           +:+ or_empty (js_or (Wire.content parsed) (Wire.delta parsed)))
        lastMessage) s
  else if Wire.has_type "sources" parsed then
    replaceLast (Message.with_sources (Wire.sources parsed)) s
  else if Wire.has_type "thinking" parsed then
    mutateLast (λ lastMessage,
      Message.with_thinking
        (Some (or_empty (Message.thinking lastMessage)
                 +:+ or_empty (Wire.content parsed)))
        lastMessage) s
  else Some s.

(** The updater of the [catch] block. *)
Definition overwriteWithFailure : t → option t :=
  mutateLast (Message.with_content Chat.failureText).

(** The chain applied to the objects of a stream, one after the other;
    [None] from the first updater that throws. *)
Definition handleAll (objs : list Wire.t) (s : t) : option t :=
  foldl (λ acc parsed, acc ≫= handleParsed parsed) (Some s) objs.

(** What an updater of the last message can return: the store it was given,
    or the store with a message [m'] at a reference [r'] in last place, where
    [r'] is the last reference itself (mutation in place) or a new one. *)
Definition reshaped (f : Message.t → Message.t) (s s' : t) : Prop :=
  s' = s
  ∨ ∃ hist r r' m,
      array s = hist ++ [r]
      ∧ objects s !! r = Some m
      ∧ Message.role m = assistant
      ∧ (r' ∉ hist)
      ∧ s' = mk (hist ++ [r']) (<[r' := f m]> (objects s)).

End Store.


(** ** Vocabulary for further properties of the relay and the chat loop *)

Module Outbound.

(** The span and message identifiers a frame carries. *)
Definition spanId (f : Relay.Frame) : option string :=
  match f with
  | Relay.FrameJson obj => Wire.id obj
  | Relay.FrameDone => None
  end.

Definition messageId (f : Relay.Frame) : option string :=
  match f with
  | Relay.FrameJson obj => Wire.messageId obj
  | Relay.FrameDone => None
  end.

(** What a frame written for an upstream object looks like: not the
    sentinel, no message identifier, and no span identifier but the
    request's. *)
Definition shape (ids : Relay.Ids) (f : Relay.Frame) : Prop :=
  f ≠ Relay.FrameDone
  ∧ messageId f = None
  ∧ (spanId f = None ∨ spanId f = Some (Relay.textId ids)).

(** The objects of the frames before the sentinel. *)
Fixpoint objects (frames : list Relay.Frame) : list Wire.t :=
  match frames with
  | [] => []
  | Relay.FrameJson obj :: frames' => obj :: objects frames'
  | Relay.FrameDone :: _ => []
  end.

(** The answer text the backend has streamed: the [content] of its objects
    of type [content], in order. *)
Definition answer (upstream : list Wire.t) : string :=
  Text.concat
    (omap (λ u, if Wire.has_type "content" u then Some (or_empty (Wire.content u))
                else None) upstream).

(** The reasoning text the backend has streamed. *)
Definition reasoning (upstream : list Wire.t) : string :=
  Text.concat
    (omap (λ u, if Wire.has_type "thinking" u then Some (or_empty (Wire.content u))
                else None) upstream).

(** The two platform functions agree on a frame the relay writes: its text
    holds no line feed, is not the sentinel, and parses back to the object. *)
Definition agree (JSON_stringify : Wire.t → string)
    (JSON_parse : string → option Wire.t) (f : Relay.Frame) : Prop :=
  match f with
  | Relay.FrameJson obj =>
      Text.has_LF (JSON_stringify obj) = false
      ∧ Frames.isDone (JSON_stringify obj) = false
      ∧ JSON_parse (Text.trim (JSON_stringify obj)) = Some obj
  | Relay.FrameDone => True
  end.

(** A derived description of the chain on a last message of role assistant,
    for any parsed object (proved below). *)
Definition effect (parsed : Wire.t) (m : Message.t) : Message.t :=
  if Wire.has_type "content" parsed || Wire.has_type "text-delta" parsed then
    Message.with_content
      (Message.content m +:+ or_empty (js_or (Wire.content parsed) (Wire.delta parsed))) m
  else if Wire.has_type "sources" parsed then
    Message.with_sources (Wire.sources parsed) m
  else if Wire.has_type "thinking" parsed then
    Message.with_thinking
      (Some (or_empty (Message.thinking m) +:+ or_empty (Wire.content parsed))) m
  else m.

End Outbound.

Module Blank.

(** Every character is white space. *)
Fixpoint isBlank (s : string) : bool :=
  match s with
  | EmptyString => true
  | String c s' => Ascii.is_space c && isBlank s'
  end.

End Blank.


(** ** Accounting of the calls of [sendMessage]

    The controllers created so far are the numbers below [nextController];
    each belongs to a call in flight or to a call that has ended. *)

Module Accounting.

Definition controllers (cfg : Chat.Config) : list nat :=
  (Chat.outcomes cfg).*1 ++ (Chat.controller <$> Chat.running cfg).

Definition holds (cfg : Chat.Config) : Prop :=
  Chat.nextController cfg = length (Chat.requests cfg)
  ∧ Chat.signal <$> Chat.requests cfg = seq 0 (length (Chat.requests cfg))
  ∧ controllers cfg ≡ₚ seq 0 (Chat.nextController cfg).

End Accounting.


(** ** Failure before the stream is read

    The three ways the call with controller [0] leaves its [try] statement
    before the first [reader.read()]: [fetch] is rejected, the response is
    not [ok], or it has no body. *)

Module Unanswered.

Definition failure (i : Chat.Input) : Prop :=
  i = Chat.FetchRejected O
  ∨ ∃ ok hasBody, i = Chat.FetchResolved O ok hasBody ∧ ok && hasBody = false.

End Unanswered.



(** ** The session storage of the chat page

    [sessionStorage] maps string keys to string values; [getItem] answers
    [null] for a missing key. The component keeps two entries per chat: the
    saved messages and the mark that the initial query has been submitted. *)

Module Session.

Definition Storage := gmap string string.

Definition getItem (key : string) (storage : Storage) : option string :=
  storage !! key.

Definition setItem (key value : string) (storage : Storage) : Storage :=
  <[key := value]> storage.

(** Truthiness of a string that may be [null] or [undefined]. *)
Definition truthy (v : option string) : bool :=
  match v with
  | Some (String _ _) => true
  | _ => false
  end.

(** [`chat-messages-${chatId}`] and [`chat-submitted-${chatId}`] *)
Definition messagesKey (chatId : string) : string := "chat-messages-" +:+ chatId.
Definition submittedKey (chatId : string) : string := "chat-submitted-" +:+ chatId.

(** The initializer of the [messages] cell; [JSON_parse] answers [None]
    when it throws. *)
Definition initialMessages (JSON_parse : string → option (list Message.t))
    (chatId : string) (storage : Storage) : list Message.t :=
  match getItem (messagesKey chatId) storage with
  | Some saved =>
      if truthy (Some saved) then default [] (JSON_parse saved) else []
  | None => []
  end.

(** The effect "Save messages to sessionStorage whenever they change". *)
Definition persistEffect (JSON_stringify : list Message.t → string)
    (chatId : string) (messages : list Message.t) (storage : Storage) : Storage :=
  if bool_decide (0 < length messages)%nat
  then setItem (messagesKey chatId) (JSON_stringify messages) storage
  else storage.

(** What one run of the effect "Handle initial query" does: the two cells
    it sets, the storage it leaves, and the argument of [sendMessage] if it
    calls it. *)
Record Effect := mkEffect {
  hasInitialized : bool;
  input : option string;
  storage : Storage;
  sent : option string
}.

Definition initialQueryEffect (chatId : string) (initialQuery : option string)
    (hasInitialized : bool) (storage : Storage) : Effect :=
  match initialQuery with
  | Some query =>
      if truthy initialQuery && negb hasInitialized then
        let alreadySubmitted := getItem (submittedKey chatId) storage in
        if negb (truthy alreadySubmitted)
        then mkEffect true (Some query)
               (setItem (submittedKey chatId) "true" storage) (Some query)
        else mkEffect true (Some query) storage None
      else mkEffect hasInitialized None storage None
  | None => mkEffect hasInitialized None storage None
  end.

(** The runs of the two effects over the life of one storage, by any
    instances of the component: the chat, the query and the value of the
    [hasInitialized] cell of each. *)
Inductive Run :=
| InitialQuery (chatId : string) (initialQuery : option string) (hasInitialized : bool)
| Persist (chatId : string) (messages : list Message.t).

Section Runs.

Variable JSON_stringify : list Message.t → string.

(** The storage and the calls of [sendMessage] made so far, each with the
    chat of the instance that made it. *)
Definition run1 (acc : Storage * list (string * string)) (r : Run)
  : Storage * list (string * string) :=
  match r with
  | InitialQuery chatId initialQuery hasInitialized =>
      let e := initialQueryEffect chatId initialQuery hasInitialized acc.1 in
      (storage e,
       match sent e with
       | Some query => acc.2 ++ [(chatId, query)]
       | None => acc.2
       end)
  | Persist chatId messages =>
      (persistEffect JSON_stringify chatId messages acc.1, acc.2)
  end.

Definition run (storage : Storage) (runs : list Run) : Storage * list (string * string) :=
  foldl run1 (storage, []) runs.

End Runs.

(** The messages a run saves for the chat, if any. *)
Definition savedFor (chatId : string) (r : Run) : option (list Message.t) :=
  match r with
  | Persist c (m :: ms) => if bool_decide (c = chatId) then Some (m :: ms) else None
  | _ => None
  end.

(** The chat is marked as submitted. *)
Definition marked (storage : Storage) (chatId : string) : Prop :=
  truthy (getItem (submittedKey chatId) storage) = true.

End Session.



(** ** The blocks of a rendered message

    [splitIntoBlocks] of [MemoizedMarkdown]: [content.split(/\n\n/)], the
    segments between the matches of two line feeds, found from the left and
    without overlap. *)

Module Markdown.

(** Put a character in front of the first block. *)
Definition extend (c : ascii) (blocks : list string) : list string :=
  match blocks with
  | [] => [String c EmptyString]
  | block :: blocks' => String c block :: blocks'
  end.

Fixpoint splitIntoBlocks (content : string) : list string :=
  match content with
  | EmptyString => [EmptyString]
  | String c s' =>
      match s' with
      | String c' s'' =>
          if Text.is_LF c && Text.is_LF c'
          then EmptyString :: splitIntoBlocks s''
          else extend c (splitIntoBlocks s')
      | EmptyString => extend c (splitIntoBlocks s')
      end
  end.

(** [blocks.join('\n\n')] *)
Fixpoint join (blocks : list string) : string :=
  match blocks with
  | [] => EmptyString
  | [block] => block
  | block :: blocks' => block +:+ String Text.LF (String Text.LF (join blocks'))
  end.

(** The text holds two line feeds in a row. *)
Fixpoint hasBreak (s : string) : bool :=
  match s with
  | String c s' =>
      match s' with
      | String c' _ => (Text.is_LF c && Text.is_LF c') || hasBreak s'
      | EmptyString => false
      end
  | EmptyString => false
  end.

(** *** The chart directive, [/\[STOCK_CHART:([A-Z]+)\]/] *)

Definition opener : string := "[STOCK_CHART:".

Definition closer : ascii := "]"%char.

(** [[A-Z]] *)
Definition isUpper (c : ascii) : bool :=
  (65 <=? nat_of_ascii c)%nat && (nat_of_ascii c <=? 90)%nat.

Fixpoint allUpper (s : string) : bool :=
  match s with
  | String c s' => isUpper c && allUpper s'
  | EmptyString => true
  end.

(** The longest run of capital letters at the head of the text, and the
    rest of the text. *)
Fixpoint symbolOf (s : string) : string * string :=
  match s with
  | String c s' =>
      if isUpper c then (String c (symbolOf s').1, (symbolOf s').2)
      else (EmptyString, s)
  | EmptyString => (EmptyString, EmptyString)
  end.

(** The match of the expression at the head of the text, as its capture
    group. The run of letters is greedy, and giving letters back cannot
    help: the character after a shorter run is a letter, not the bracket. *)
Definition directiveAt (s : string) : option string :=
  if Text.startsWith opener s then
    match symbolOf (Text.slice (String.length opener) s) with
    | (String c symbol, String r _) =>
        if bool_decide (r = closer) then Some (String c symbol) else None
    | _ => None
    end
  else None.

(** [content.match(...)]: the leftmost match, as [stockChartMatch.index]
    and [stockChartMatch[1]]. *)
Fixpoint stockChartMatch (content : string) : option (nat * string) :=
  match directiveAt content with
  | Some symbol => Some (O, symbol)
  | None =>
      match content with
      | String _ s' => prod_map S id <$> stockChartMatch s'
      | EmptyString => None
      end
  end.

(** [stockChartMatch[0]], the text matched. *)
Definition matched (symbol : string) : string :=
  opener +:+ symbol +:+ String closer EmptyString.

(** [s.substring(0, index)] *)
Fixpoint substring0 (index : nat) (s : string) : string :=
  match index, s with
  | S index', String c s' => String c (substring0 index' s')
  | _, _ => EmptyString
  end.

Definition beforeChart (content : string) (index : nat) : string :=
  substring0 index content.

Definition afterChart (content : string) (index : nat) (symbol : string) : string :=
  Text.slice (index + String.length (matched symbol)) content.

End Markdown.



(** ** The times of the candles of [StockChart]

    The generated series: one candle per interval, the last one at [now].
    The prices are random floating-point numbers and are not modelled. A
    daily candle is dated by its UTC calendar day
    ([toISOString().split('T')[0]]), represented here by the number of the
    day since the epoch, which the date string denotes. *)

Module StockChart.

Inductive TimeRange := R1D | R1W | R1M | R3M | R1Y | RALL.

Inductive Interval := I1m | I5m | I15m | I1h | I4h | I1d.

Inductive Time :=
| Seconds (t : Z)       (* [Math.floor(timestamp / 1000)] *)
| Day (d : Z).          (* the date of [new Date(timestamp)] *)

Definition totalMs (timeRange : TimeRange) : Z :=
  match timeRange with
  | R1D => 24 * 60 * 60 * 1000
  | R1W => 7 * 24 * 60 * 60 * 1000
  | R1M => 30 * 24 * 60 * 60 * 1000
  | R3M => 90 * 24 * 60 * 60 * 1000
  | R1Y => 365 * 24 * 60 * 60 * 1000
  | RALL => 730 * 24 * 60 * 60 * 1000
  end.

Definition intervalMs (interval : Interval) : Z :=
  match interval with
  | I1m => 60 * 1000
  | I5m => 5 * 60 * 1000
  | I15m => 15 * 60 * 1000
  | I1h => 60 * 60 * 1000
  | I4h => 4 * 60 * 60 * 1000
  | I1d => 24 * 60 * 60 * 1000
  end.

(** [Math.min(Math.floor(totalMs / intervalMs), 500)] *)
Definition numCandles (timeRange : TimeRange) (interval : Interval) : Z :=
  Z.min (totalMs timeRange / intervalMs interval) 500.

Definition msPerDay : Z := 24 * 60 * 60 * 1000.

Definition time (interval : Interval) (timestamp : Z) : Time :=
  match interval with
  | I1d => Day (timestamp / msPerDay)
  | _ => Seconds (timestamp / 1000)
  end.

(** The [time] of the candle pushed at index [i] of the loop. *)
Definition candleTime (now : Z) (timeRange : TimeRange) (interval : Interval)
    (i : Z) : Time :=
  let timestamp :=
    now - (numCandles timeRange interval - i - 1) * intervalMs interval in
  time interval timestamp.

Definition candleTimes (now : Z) (timeRange : TimeRange) (interval : Interval)
  : list Time :=
  candleTime now timeRange interval <$> seqZ 0 (numCandles timeRange interval).

(** The time that lies [n] intervals after [t]. *)
Definition later (interval : Interval) (n : Z) (t : Time) : Time :=
  match t with
  | Seconds s => Seconds (s + n * (intervalMs interval / 1000))
  | Day d => Day (d + n * (intervalMs interval / msPerDay))
  end.

(** The order in which the chart wants its data. *)
Definition before (t t' : Time) : Prop :=
  match t, t' with
  | Seconds s, Seconds s' => s < s'
  | Day d, Day d' => d < d'
  | _, _ => False
  end.

End StockChart.



(** ** The shape of the conversation

    The roles of the message list after [n] accepted submissions: those of
    the list read from storage, then a user and an assistant message per
    submission. *)

Module Conversation.

Definition roles (saved : option (list Message.t)) (n : nat) : list Role :=
  (Message.role <$> default [] saved) ++ mjoin (replicate n [user; assistant]).

(** The list ends with an assistant message. *)
Definition answering (ms : list Message.t) : Prop :=
  ∃ hist m, ms = hist ++ [m] ∧ Message.role m = assistant.

(** A state whose updaters have a message to work on. *)
Definition sound (R : list Role) (st : Chat.State) : Prop :=
  Chat.renderError st = false
  ∧ Message.role <$> Chat.messages st = R
  ∧ answering (Chat.messages st).

Definition holds (saved : option (list Message.t)) (cfg : Chat.Config) : Prop :=
  Chat.renderError (Chat.ui cfg) = false
  ∧ Message.role <$> Chat.messages (Chat.ui cfg)
    = roles saved (length (Chat.requests cfg))
  ∧ (Chat.isLoading (Chat.ui cfg) = true → answering (Chat.messages (Chat.ui cfg))).

End Conversation.



(** ** The provider configuration read by [sendMessage]

    [const llmConfig = localStorage.getItem('llmConfig');
     const config = llmConfig ? JSON.parse(llmConfig) : null]
    stands between the updates of the cells and the [try] statement: when
    [JSON.parse] throws, the call ends there, with the cells set, no request
    sent and no [finally] block run. *)

Module Provider.

Section Config.

Context {Value : Type}.

(** [JSON.parse] on the stored text; [None] when it throws. *)
Variable JSON_parse : string → option Value.

(** [config]; [None] when the statement throws. *)
Definition config (llmConfig : option string) : option (option Value) :=
  match llmConfig with
  | Some (String c text) =>
      match JSON_parse (String c text) with
      | Some value => Some (Some value)
      | None => None
      end
  | _ => Some None
  end.

(** [sendMessage] with the stored text it finds. *)
Definition sendMessage (llmConfig : option string) (messageText : string)
    (clock : Chat.Clock) (cfg : Chat.Config) : Chat.Config :=
  let sent := Chat.sendMessage messageText clock cfg in
  match config llmConfig with
  | Some _ => sent
  | None =>
      Chat.mkConfig (Chat.ui sent) (Chat.running cfg) (Chat.requests cfg)
        (Chat.outcomes cfg) (Chat.nextController sent)
  end.

Variable JSON_parse_frame : string → option Wire.t.

(** A step of the component, with the text stored when it is taken. *)
Definition step (cfg : Chat.Config) (i : option string * Chat.Input) : Chat.Config :=
  match i.2 with
  | Chat.Submit messageText clock => sendMessage i.1 messageText clock cfg
  | _ => Chat.step JSON_parse_frame cfg i.2
  end.

Definition run (cfg : Chat.Config) (inputs : list (option string * Chat.Input))
  : Chat.Config :=
  foldl step cfg inputs.

End Config.

End Provider.



(** * Properties *)

(** ** Strings and line splitting *)

Section TextFacts.

Import Text.

Lemma append_cons c s t : String c s +:+ t = String c (s +:+ t).
Proof. reflexivity. Qed.

Lemma append_nil_r s : s +:+ EmptyString = s.
Proof. induction s as [|c s IH]; [done|]. by rewrite append_cons, IH. Qed.

Lemma append_assoc s t u : (s +:+ t) +:+ u = s +:+ (t +:+ u).
Proof. induction s as [|c s IH]; [done|]. by rewrite !append_cons, IH. Qed.

Lemma concat_app xs ys : concat (xs ++ ys) = concat xs +:+ concat ys.
Proof.
  unfold concat. induction xs as [|x xs IH]; [done|].
  cbn [app foldr]. by rewrite IH, append_assoc.
Qed.

Lemma concat_singleton x : concat [x] = x.
Proof. apply append_nil_r. Qed.

Lemma split_nonempty s : split s ≠ [].
Proof.
  destruct s as [|c s]; simpl; [done|].
  destruct (is_LF c); [done|]. by destruct (split s).
Qed.

Lemma split_cons_LF c s :
  is_LF c = true → split (String c s) = EmptyString :: split s.
Proof. simpl. by intros ->. Qed.

Lemma split_cons_other c s :
  is_LF c = false →
  ∃ seg segs, split s = seg :: segs ∧ split (String c s) = String c seg :: segs.
Proof.
  intros Hc. simpl. rewrite Hc.
  destruct (split s) as [|seg segs] eqn:E; [by apply split_nonempty in E|].
  by exists seg, segs.
Qed.

(** Splitting a concatenation: the complete segments of the first part,
    then the split of its last segment followed by the second part. *)
Lemma split_app a b :
  split (a +:+ b)
  = removelast (split a) ++ split (default EmptyString (last (split a)) +:+ b).
Proof.
  induction a as [|c a IH]; [done|].
  rewrite append_cons. destruct (is_LF c) eqn:Hc.
  - rewrite !split_cons_LF by done. rewrite IH.
    destruct (split a) as [|seg segs] eqn:E; [by apply split_nonempty in E|].
    done.
  - destruct (split_cons_other c a Hc) as (seg & segs & Ea & Eca).
    destruct (split_cons_other c (a +:+ b) Hc) as (seg' & segs' & Eab & Ecab).
    rewrite Ecab, Eca. rewrite IH, Ea in Eab.
    destruct segs as [|seg2 segs].
    + cbn in Eab |- *. rewrite append_cons.
      destruct (split_cons_other c (seg +:+ b) Hc) as (x & xs & Ex & ->).
      rewrite Ex in Eab. by simplify_eq.
    + cbn [removelast last] in Eab |- *.
      change (removelast (seg :: seg2 :: segs)) with (seg :: removelast (seg2 :: segs)) in Eab.
      cbn in Eab. simplify_eq. done.
Qed.

Lemma split_noLF s : has_LF s = false → split s = [s].
Proof.
  induction s as [|c s IH]; [done|]. cbn [has_LF].
  intros [Hc Hs]%orb_false_iff. simpl. rewrite Hc. by rewrite IH.
Qed.

Lemma has_LF_app s t : has_LF (s +:+ t) = has_LF s || has_LF t.
Proof.
  induction s as [|c s IH]; [done|].
  rewrite append_cons. cbn [has_LF]. by rewrite IH, orb_assoc.
Qed.

Lemma startsWith_app p s : startsWith p (p +:+ s) = true.
Proof.
  induction p as [|c p IH]; [done|].
  rewrite append_cons. cbn [startsWith]. rewrite IH.
  by rewrite bool_decide_eq_true_2.
Qed.

End TextFacts.

(** ** The reassembly buffer *)

Section ReassemblyFacts.

Import Reassembly.

Lemma lines_of_app buffer c1 c2 :
  lines_of buffer (c1 +:+ c2)
  = lines_of buffer c1 ++ lines_of (rest_of buffer c1) c2.
Proof.
  unfold lines_of, rest_of. rewrite <- append_assoc, split_app.
  pose proof (split_nonempty
    (default EmptyString (last (Text.split (buffer +:+ c1))) +:+ c2)).
  by rewrite removelast_app.
Qed.

Lemma rest_of_app buffer c1 c2 :
  rest_of buffer (c1 +:+ c2) = rest_of (rest_of buffer c1) c2.
Proof.
  unfold rest_of. rewrite <- append_assoc, split_app.
  pose proof (split_nonempty
    (default EmptyString (last (Text.split (buffer +:+ c1))) +:+ c2)) as Hne.
  rewrite last_app.
  destruct (last (Text.split (_ +:+ c2))) eqn:E; [done|].
  by apply last_None in E.
Qed.

Lemma lines_of_empty buffer :
  Text.has_LF buffer = false → lines_of buffer EmptyString = [].
Proof.
  intros H. unfold lines_of. rewrite append_nil_r, split_noLF; done.
Qed.

Lemma rest_of_empty buffer :
  Text.has_LF buffer = false → rest_of buffer EmptyString = buffer.
Proof.
  intros H. unfold rest_of. rewrite append_nil_r, split_noLF; done.
Qed.

End ReassemblyFacts.

(** ** Frame sequences and their lines *)

Section FramesFacts.

Import Text Reassembly Frames.

Lemma split_segments_noLF s : Forall (λ seg, has_LF seg = false) (split s).
Proof.
  induction s as [|c s IH]; [by repeat constructor|].
  destruct (is_LF c) eqn:Hc.
  - rewrite split_cons_LF by done. by constructor.
  - destruct (split_cons_other c s Hc) as (seg & segs & Es & ->).
    rewrite Es in IH. inversion_clear IH as [|?? Hseg Hsegs].
    constructor; [|done]. cbn [has_LF]. by rewrite Hc, Hseg.
Qed.

Lemma rest_of_noLF buffer chunk : has_LF (rest_of buffer chunk) = false.
Proof.
  unfold rest_of.
  destruct (last (split (buffer +:+ chunk))) as [seg|] eqn:E; [|done].
  apply last_Some_elem_of in E.
  pose proof (split_segments_noLF (buffer +:+ chunk)) as H.
  rewrite Forall_forall in H. by apply H.
Qed.

Lemma split_line line rest :
  has_LF line = false →
  split (line +:+ String LF rest) = line :: split rest.
Proof.
  induction line as [|c line IH]; intros H.
  - change (split (String LF rest) = EmptyString :: split rest).
    by rewrite (split_cons_LF LF).
  - cbn [has_LF] in H. apply orb_false_iff in H as [Hc Hline].
    rewrite append_cons.
    destruct (split_cons_other c (line +:+ String LF rest) Hc)
      as (seg & segs & Es & ->).
    rewrite IH in Es by done. by simplify_eq.
Qed.

Lemma dataLine_noLF p : has_LF p = false → has_LF (dataLine p) = false.
Proof. intros H. unfold dataLine. by rewrite has_LF_app, H. Qed.

Lemma split_frameText p rest :
  has_LF p = false →
  split (Relay.frameText p +:+ rest) = dataLine p :: EmptyString :: split rest.
Proof.
  intros H. unfold Relay.frameText, Relay.frameDelimiter.
  change ("data: " +:+ p +:+ String LF (String LF EmptyString))
    with (dataLine p +:+ String LF (String LF EmptyString)).
  rewrite append_assoc, append_cons.
  rewrite split_line by by apply dataLine_noLF.
  by rewrite append_cons, (split_cons_LF LF).
Qed.

Lemma text_cons p ps : text (p :: ps) = Relay.frameText p +:+ text ps.
Proof. reflexivity. Qed.

(** The text the relay writes is the text of the frame sequence of its
    payloads. *)
Lemma written_text JSON_stringify frames :
  Relay.written JSON_stringify frames
  = text (Relay.payload JSON_stringify <$> frames).
Proof.
  unfold Relay.written, text, Relay.encode. by rewrite <- list_fmap_compose.
Qed.

Lemma split_text ps partial :
  Forall (λ p, has_LF p = false) ps →
  has_LF partial = false →
  split (text ps +:+ partial) = lines ps ++ [partial].
Proof.
  intros Hps Hpartial. induction Hps as [|p ps Hp _ IH].
  - by apply split_noLF.
  - rewrite text_cons, append_assoc, split_frameText by done. by rewrite IH.
Qed.

(** The complete lines of the text of a frame sequence followed by an
    unfinished line, and what stays in the buffer. *)
Lemma lines_of_text ps partial :
  Forall (λ p, has_LF p = false) ps →
  has_LF partial = false →
  lines_of EmptyString (text ps +:+ partial) = lines ps
  ∧ rest_of EmptyString (text ps +:+ partial) = partial.
Proof.
  intros Hps Hpartial. unfold lines_of, rest_of.
  change (EmptyString +:+ ?s) with s.
  rewrite split_text by done. by rewrite removelast_last, last_snoc.
Qed.

End FramesFacts.

(** ** The chat read loop on lines and chunks *)

Section ChatLoopFacts.

Import Text Reassembly Frames ChatLines.

Variable JSON_parse : string → option Wire.t.

Local Abbreviation classify := (Chat.classify JSON_parse).
Local Abbreviation forLines := (Chat.forLines JSON_parse).
Local Abbreviation onChunks := (Chat.onChunks JSON_parse).

Lemma classify_empty : classify EmptyString = Chat.Ignore.
Proof. reflexivity. Qed.

Lemma classify_dataLine p :
  classify (dataLine p)
  = if isDone p then Chat.Break
    else match JSON_parse (trim p) with
         | Some parsed => Chat.Handle parsed
         | None => Chat.Ignore
         end.
Proof.
  unfold Chat.classify, dataLine. rewrite startsWith_app.
  change (slice 6 ("data: " +:+ p)) with p. reflexivity.
Qed.

Section Handler.

Context {S : Type} (handle : Wire.t → S → S).

Lemma forLines_ignored ls s :
  Forall (λ l, classify l = Chat.Ignore) ls → forLines handle ls s = s.
Proof.
  induction 1 as [|l ls Hl _ IH]; [done|].
  cbn [Chat.forLines]. by rewrite Hl.
Qed.

Lemma ignored_quiet ls :
  Forall (λ l, classify l = Chat.Ignore) ls → quietAfterBreak JSON_parse ls.
Proof.
  induction 1 as [|l ls Hl _ IH]; [done|].
  cbn [quietAfterBreak]. by rewrite Hl.
Qed.

(** A [for] loop over [l1 ++ l2] is the loop over [l1] followed by the
    loop over [l2], provided a break is followed by idle lines only. *)
Lemma forLines_split l1 l2 s :
  quietAfterBreak JSON_parse (l1 ++ l2) →
  forLines handle (l1 ++ l2) s = forLines handle l2 (forLines handle l1 s)
  ∧ quietAfterBreak JSON_parse l2.
Proof.
  revert s. induction l1 as [|l l1 IH]; intros s Hq; [done|].
  cbn [app quietAfterBreak Chat.forLines] in *.
  destruct (classify l) eqn:Hl; [by apply IH| |by apply IH].
  apply Forall_app in Hq as [_ Hl2].
  split; [by rewrite forLines_ignored|by apply ignored_quiet].
Qed.

(** Reading chunk by chunk is reading the concatenation at once. *)
Lemma onChunks_concat chunks buffer s :
  has_LF buffer = false →
  quietAfterBreak JSON_parse (lines_of buffer (concat chunks)) →
  onChunks handle buffer chunks s
  = (rest_of buffer (concat chunks),
     forLines handle (lines_of buffer (concat chunks)) s).
Proof.
  revert buffer s. induction chunks as [|chunk chunks IH]; intros buffer s Hb Hq.
  - cbn [Chat.onChunks]. change (concat []) with EmptyString.
    by rewrite rest_of_empty, lines_of_empty.
  - change (concat (chunk :: chunks)) with (chunk +:+ concat chunks) in *.
    rewrite lines_of_app in Hq |- *. rewrite rest_of_app.
    destruct (forLines_split _ _ s Hq) as [-> Hq2].
    cbn [Chat.onChunks Chat.onChunk].
    apply IH; [apply rest_of_noLF|done].
Qed.

Lemma forLines_lines ps s :
  forLines handle (lines ps) s
  = foldl (λ acc parsed, handle parsed acc) s (decodedPayloads JSON_parse ps).
Proof.
  revert s. induction ps as [|p ps IH]; intros s; [done|].
  unfold decodedPayloads. cbn [lines flat_map app Chat.forLines beforeDone].
  rewrite classify_dataLine, classify_empty.
  destruct (isDone p); [done|]. cbn [omap list_omap].
  destruct (JSON_parse (trim p)); cbn [foldl]; apply IH.
Qed.

End Handler.

Lemma lines_quiet ps : valid ps → quietAfterBreak JSON_parse (lines ps).
Proof.
  intros [_ Hdone]. induction ps as [|p ps IH]; [done|].
  cbn [lines flat_map app quietAfterBreak].
  rewrite classify_dataLine, classify_empty.
  destruct ps as [|p' ps].
  - destruct (isDone p); [by repeat constructor|].
    by destruct (JSON_parse (trim p)).
  - change (removelast (p :: p' :: ps)) with (p :: removelast (p' :: ps)) in Hdone.
    inversion_clear Hdone as [|?? Hp Hrest]. rewrite Hp.
    destruct (JSON_parse (trim p)); by apply IH.
Qed.

(** The chat loop on any cutting of a valid frame sequence followed by an
    unfinished line: the buffer keeps the unfinished line, and the state is
    the one reached by handling the decoded payloads in order. *)
Lemma onChunks_frames {S : Type} (handle : Wire.t → S → S) ps partial chunks s :
  valid ps →
  has_LF partial = false →
  splits chunks (text ps +:+ partial) →
  onChunks handle EmptyString chunks s
  = (partial, foldl (λ acc parsed, handle parsed acc) s (decodedPayloads JSON_parse ps)).
Proof.
  intros Hv Hpartial Hsplit. red in Hsplit.
  destruct (lines_of_text ps partial (proj1 Hv) Hpartial) as [Hlines Hrest].
  rewrite onChunks_concat; rewrite ?Hsplit, ?Hlines, ?Hrest;
    [|done|by apply lines_quiet].
  by rewrite forLines_lines.
Qed.

End ChatLoopFacts.

(** ** The relay read loop on lines and chunks *)

Section RelayLoopFacts.

Import Text Reassembly Frames.

Variable JSON_parse : string → option Wire.t.
Variable ids : Relay.Ids.

(** Reading chunk by chunk is reading the concatenation at once: the relay
    loop has no early exit, so this holds for every text. *)
Lemma pump_concat chunks buffer :
  has_LF buffer = false →
  Relay.pump JSON_parse ids buffer chunks
  = flat_map (Relay.forLine JSON_parse ids) (lines_of buffer (concat chunks)).
Proof.
  revert buffer. induction chunks as [|chunk chunks IH]; intros buffer Hb.
  - change (concat []) with EmptyString. by rewrite lines_of_empty.
  - change (concat (chunk :: chunks)) with (chunk +:+ concat chunks).
    cbn [Relay.pump]. rewrite lines_of_app, flat_map_app.
    f_equal. apply IH, rest_of_noLF.
Qed.

Lemma forLine_empty : Relay.forLine JSON_parse ids EmptyString = [].
Proof. reflexivity. Qed.

Lemma forLine_dataLine p :
  Relay.forLine JSON_parse ids (dataLine p)
  = match JSON_parse p with
    | Some data => Relay.forward ids data
    | None => []
    end.
Proof.
  unfold Relay.forLine, dataLine. rewrite startsWith_app.
  change (slice 6 ("data: " +:+ p)) with p. reflexivity.
Qed.

Lemma flat_map_forLine_lines ps :
  flat_map (Relay.forLine JSON_parse ids) (lines ps)
  = flat_map (Relay.forward ids) (omap JSON_parse ps).
Proof.
  induction ps as [|p ps IH]; [done|].
  cbn [lines flat_map app omap list_omap].
  rewrite forLine_dataLine, forLine_empty, app_nil_l.
  destruct (JSON_parse p); cbn [flat_map]; by rewrite <- IH.
Qed.

Lemma pump_frames ps partial chunks :
  Forall (λ p, has_LF p = false) ps →
  has_LF partial = false →
  splits chunks (text ps +:+ partial) →
  Relay.pump JSON_parse ids EmptyString chunks
  = flat_map (Relay.forward ids) (omap JSON_parse ps).
Proof.
  intros Hps Hpartial Hsplit. red in Hsplit.
  rewrite pump_concat by done. rewrite Hsplit.
  destruct (lines_of_text ps partial Hps Hpartial) as [-> _].
  apply flat_map_forLine_lines.
Qed.

End RelayLoopFacts.

(** ** Frame reassembly under arbitrary chunking *)

Lemma foldl_snoc {A} (l acc : list A) :
  foldl (λ acc x, acc ++ [x]) acc l = acc ++ l.
Proof.
  revert acc. induction l as [|x l IH]; intros acc; cbn [foldl].
  - by rewrite app_nil_r.
  - by rewrite IH, <- app_assoc.
Qed.

Lemma decoded_frames JSON_parse ps partial chunks :
  Frames.valid ps →
  Text.has_LF partial = false →
  Frames.splits chunks (Frames.text ps +:+ partial) →
  Chat.decoded JSON_parse chunks = ChatLines.decodedPayloads JSON_parse ps.
Proof.
  intros Hv Hp Hs. unfold Chat.decoded.
  rewrite (onChunks_frames JSON_parse _ ps partial) by done.
  cbn [snd]. apply (foldl_snoc _ []).
Qed.

Lemma splits_whole chunks text :
  Frames.splits chunks text → Frames.splits [Text.concat chunks] text.
Proof. unfold Frames.splits. intros <-. apply concat_singleton. Qed.

(** C3 (as amended). For every valid frame sequence, possibly followed by an
    unfinished line, and every way of cutting that text into chunks, the chat
    loop hands to its chain exactly the decodable payloads up to the sentinel,
    once each and in order, which is also what it does on the whole text in
    one chunk; the relay loop likewise forwards exactly the decodable
    payloads, once each and in order, as on the whole text. Nothing is
    produced for a line whose line feed has not arrived. *)
Theorem reassembly_chunking_invariant
    (JSON_parse : string → option Wire.t) (ids : Relay.Ids)
    (payloads : list string) (partial : string) (chunks : list string) :
  Frames.valid payloads →
  Text.has_LF partial = false →
  Frames.splits chunks (Frames.text payloads +:+ partial) →
  Chat.decoded JSON_parse chunks = Chat.decoded JSON_parse [Text.concat chunks]
  ∧ Chat.decoded JSON_parse chunks = ChatLines.decodedPayloads JSON_parse payloads
  ∧ Relay.pump JSON_parse ids EmptyString chunks
    = Relay.pump JSON_parse ids EmptyString [Text.concat chunks]
  ∧ Relay.pump JSON_parse ids EmptyString chunks
    = flat_map (Relay.forward ids) (omap JSON_parse payloads).
Proof.
  intros Hv Hp Hs. pose proof (splits_whole _ _ Hs) as Hw.
  rewrite !(decoded_frames JSON_parse payloads partial) by done.
  rewrite !(pump_frames JSON_parse ids payloads partial) by (done || apply Hv).
  done.
Qed.

(** A valid sequence of two frames, cut in the middle of the first frame and
    again between the two line feeds that end it. *)
Lemma reassembly_chunking_invariant_witness :
  let payloads :=
    [Relay.payload Json.stringify (Relay.ofEvent (Event.TextDelta "s1" "Hel"));
     Relay.payload Json.stringify (Relay.ofEvent Event.Done)] in
  let whole := Frames.text payloads in
  let n := String.length (Frames.dataLine (hd EmptyString payloads)) in
  let chunks :=
    [String.substring 0 9 whole; String.substring 9 (n - 8) whole; Text.slice (S n) whole] in
  Frames.valid payloads
  ∧ Text.has_LF EmptyString = false
  ∧ Frames.splits chunks (Frames.text payloads +:+ EmptyString)
  ∧ Chat.decoded Json.decode chunks = Chat.decoded Json.decode [Text.concat chunks]
  ∧ Chat.decoded Json.decode chunks = ChatLines.decodedPayloads Json.decode payloads
  ∧ Relay.pump Json.decode (Relay.mkIds "a" "b" "c") EmptyString chunks
    = Relay.pump Json.decode (Relay.mkIds "a" "b" "c") EmptyString [Text.concat chunks]
  ∧ Relay.pump Json.decode (Relay.mkIds "a" "b" "c") EmptyString chunks
    = flat_map (Relay.forward (Relay.mkIds "a" "b" "c")) (omap Json.decode payloads).
Proof.
  intros payloads whole n chunks.
  assert (Hv : Frames.valid payloads) by (split; repeat constructor).
  assert (Hs : Frames.splits chunks (Frames.text payloads +:+ EmptyString))
    by (vm_compute; reflexivity).
  split; [exact Hv|]. split; [reflexivity|]. split; [exact Hs|].
  exact (reassembly_chunking_invariant Json.decode (Relay.mkIds "a" "b" "c")
           payloads EmptyString chunks Hv eq_refl Hs).
Defined.

(** C3 (as stated) fails on its last clause: after the first of the two line
    feeds that end a frame, the frame is not yet complete, and the chat loop
    has already handed its event to the chain and the assistant message
    already shows the delta; the relay has likewise already forwarded an
    upstream object whose frame lacks its second line feed. *)
Lemma event_handled_before_frame_complete :
  let event := Event.TextDelta "s1" "X" in
  let payload := Relay.payload Json.stringify (Relay.ofEvent event) in
  let chunk := Frames.dataLine payload +:+ String Text.LF EmptyString in
  let cfg :=
    Chat.run Json.decode (Chat.mount None)
      (Exchange.opening "q" (Chat.mkClock 1 1 1 1) ++ Exchange.reads [chunk]) in
  let upstream :=
    Json.stringify (Wire.mk (Some "content") None None None (Some "X") None None) in
  let upstreamChunk := Frames.dataLine upstream +:+ String Text.LF EmptyString in
  chunk +:+ String Text.LF EmptyString = Relay.frameText payload
  ∧ chunk ≠ Relay.frameText payload
  ∧ Chat.decoded Json.decode [chunk] = omap Event.wire [event]
  ∧ (Message.content <$> last (Chat.messages (Chat.ui cfg))) = Some "X"
  ∧ upstreamChunk ≠ Relay.frameText upstream
  ∧ Relay.pump Json.decode (Relay.mkIds "x1" "m1" "s1") EmptyString [upstreamChunk]
    = [Relay.ofEvent event].
Proof.
  vm_compute. split; [reflexivity|]. split; [discriminate|].
  split; [reflexivity|]. split; [reflexivity|]. split; [discriminate|reflexivity].
Qed.

(** ** The chain of event handlers *)

(** Evaluate the tests on [parsed.type] for an object of known type. *)
Ltac eval_has_type :=
  repeat match goal with
  | |- context [Wire.has_type ?ty ?w] =>
      let b := eval vm_compute in (Wire.has_type ty w) in
      change (Wire.has_type ty w) with b
  end.

Section ChainFacts.

Import Chat Progress.

Lemma onLastAssistant_nil f : onLastAssistant f [] = None.
Proof. reflexivity. Qed.

Lemma insert_last {A} (hist : list A) (x y : A) :
  <[pred (length (hist ++ [x])) := y]> (hist ++ [x]) = hist ++ [y].
Proof.
  rewrite length_app. cbn [length]. replace (pred (length hist + 1)) with (length hist + 0)%nat by lia.
  by rewrite insert_app_r.
Qed.

Lemma onLastAssistant_assistant f hist m :
  Message.role m = assistant →
  onLastAssistant f (hist ++ [m]) = Some (hist ++ [f m]).
Proof.
  intros Hm. unfold onLastAssistant. rewrite last_snoc. cbn [mbind option_bind].
  rewrite bool_decide_eq_true_2 by done. by rewrite insert_last.
Qed.

Lemma onLastAssistant_other f hist m :
  Message.role m ≠ assistant →
  onLastAssistant f (hist ++ [m]) = Some (hist ++ [m]).
Proof.
  intros Hm. unfold onLastAssistant. rewrite last_snoc. cbn [mbind option_bind].
  by rewrite bool_decide_eq_false_2.
Qed.

(** What an updater of the last message does to the list, in one formula. *)
Lemma onLastAssistant_spec f prev :
  onLastAssistant f prev
  = match last prev with
    | Some m =>
        Some (if bool_decide (Message.role m = assistant)
              then take (pred (length prev)) prev ++ [f m] else prev)
    | None => None
    end.
Proof.
  unfold onLastAssistant. destruct (last prev) as [m|] eqn:E; [|done].
  cbn [mbind option_bind]. apply last_Some in E as [hist ->].
  case_bool_decide; [|done]. rewrite insert_last. f_equal.
  rewrite length_app. cbn [length].
  replace (pred (length hist + 1)) with (length hist) by lia.
  by rewrite take_app_length.
Qed.

Lemma setMessages_stateWith_assistant f hist m st :
  Message.role m = assistant →
  setMessages (onLastAssistant f) (stateWith hist m st) = stateWith hist (f m) st.
Proof.
  intros Hm. unfold setMessages, stateWith. cbn [messages].
  by rewrite onLastAssistant_assistant.
Qed.

Lemma effect_role e m : Message.role (effect e m) = Message.role m.
Proof. by destruct e. Qed.

Lemma effects_role evs m : Message.role (effects evs m) = Message.role m.
Proof.
  revert m. induction evs as [|e evs IH]; intros m; [done|].
  unfold effects in *. cbn [foldl]. by rewrite IH, effect_role.
Qed.

(** The chain does to an assistant message in last position what [effect]
    says; a status event moves the status indicator only. *)
Lemma applyEvent_stateWith e hist m st :
  Message.role m = assistant →
  ∃ st', applyEvent (stateWith hist m st) e = stateWith hist (effect e m) st'
         ∧ renderError st' = renderError st
         ∧ isLoading st' = isLoading st
         ∧ abortControllerRef st' = abortControllerRef st.
Proof.
  intros Hm. unfold applyEvent.
  destruct e as [mid|i|s|c|i d|l|i|]; cbn [Event.wire effect];
    try (by exists st); unfold handleParsed; eval_has_type; cbn [orb].
  - cbn [Wire.status].
    repeat case_bool_decide;
      [by exists (setCurrentStatus (Some WorkflowStatus.searching) st)
      |by exists (setCurrentStatus (Some WorkflowStatus.summarizing) st)
      |by exists st].
  - unfold appendThinking. rewrite setMessages_stateWith_assistant by done.
    by exists st.
  - unfold appendContent. rewrite setMessages_stateWith_assistant by done.
    by exists st.
  - unfold replaceSources. rewrite setMessages_stateWith_assistant by done.
    by exists st.
Qed.

Lemma applyEvents_stateWith evs hist m st :
  Message.role m = assistant →
  ∃ st', applyEvents (stateWith hist m st) evs = stateWith hist (effects evs m) st'
         ∧ renderError st' = renderError st
         ∧ isLoading st' = isLoading st
         ∧ abortControllerRef st' = abortControllerRef st.
Proof.
  revert m st. induction evs as [|e evs IH]; intros m st Hm; [by exists st|].
  unfold applyEvents, effects in *. cbn [foldl].
  destruct (applyEvent_stateWith e hist m st Hm) as (st1 & -> & E1 & E2 & E3).
  destruct (IH (effect e m) st1) as (st2 & -> & ? & ? & ?); [by rewrite effect_role|].
  exists st2. repeat split; congruence.
Qed.

Lemma deltas_cons e evs :
  Event.deltas (e :: evs)
  = match e with Event.TextDelta _ d => d | _ => EmptyString end +:+ Event.deltas evs.
Proof. by destruct e. Qed.

Lemma thoughts_cons e evs :
  Event.thoughts (e :: evs)
  = match e with Event.Thinking c => c | _ => EmptyString end +:+ Event.thoughts evs.
Proof. by destruct e. Qed.

Lemma effects_content evs m :
  Message.content (effects evs m) = Message.content m +:+ Event.deltas evs.
Proof.
  revert m. induction evs as [|e evs IH]; intros m.
  - by rewrite append_nil_r.
  - unfold effects in *. cbn [foldl]. rewrite IH, deltas_cons.
    destruct e; cbn [effect Message.content Message.with_content
      Message.with_thinking Message.with_sources]; try done.
    by rewrite append_assoc.
Qed.

Lemma effects_thinking evs m :
  or_empty (Message.thinking (effects evs m))
  = or_empty (Message.thinking m) +:+ Event.thoughts evs.
Proof.
  revert m. induction evs as [|e evs IH]; intros m.
  - by rewrite append_nil_r.
  - unfold effects in *. cbn [foldl]. rewrite IH, thoughts_cons.
    destruct e; cbn [effect Message.thinking Message.with_content
      Message.with_thinking Message.with_sources or_empty from_option id]; try done.
    by rewrite append_assoc.
Qed.

Lemma effects_thinking_defined evs m :
  is_Some (Message.thinking m) → is_Some (Message.thinking (effects evs m)).
Proof.
  revert m. induction evs as [|e evs IH]; intros m Hm; [done|].
  unfold effects in *. cbn [foldl]. apply IH. by destruct e.
Qed.

End ChainFacts.

(** ** C1, C5, C8: what the chain does to the in-progress message *)

(** C1. Whatever events reach the chain, in whatever order, the assistant
    message opened by [sendMessage] ends with [content] the concatenation of
    the text deltas in arrival order and [thinking] the concatenation of the
    thinking chunks in arrival order; a status event changes no message. *)
Theorem content_and_thinking_concatenate
    (hist : list Message.t) (clock : Chat.Clock) (st : Chat.State)
    (evs : list Event.t) :
  (∃ m,
      Chat.messages
        (Chat.applyEvents (Progress.stateWith hist (Chat.assistantMessage clock) st) evs)
      = hist ++ [m]
      ∧ Message.content m = Event.deltas evs
      ∧ Message.thinking m = Some (Event.thoughts evs))
  ∧ (∀ status st', Chat.messages (Chat.applyEvent st' (Event.Status status))
                   = Chat.messages st').
Proof.
  split.
  - destruct (applyEvents_stateWith evs hist (Chat.assistantMessage clock) st eq_refl)
      as (st' & -> & _).
    eexists. split; [reflexivity|]. split.
    + by rewrite effects_content.
    + pose proof (effects_thinking evs (Chat.assistantMessage clock)) as Hth.
      destruct (effects_thinking_defined evs (Chat.assistantMessage clock)) as [th Eth];
        [by eexists|].
      rewrite Eth in Hth |- *. cbn in Hth. by rewrite Hth.
  - intros status st'. unfold Chat.applyEvent, Chat.handleParsed.
    cbn [Event.wire]. eval_has_type. cbn [orb Wire.status].
    by repeat case_bool_decide.
Qed.

(** C5 (as amended). The chain keeps no record of spans: a text delta is
    appended to the content of the in-progress assistant message whatever
    its span identifier and whatever events came before it, a [TextEnd] for
    the same span included. *)
Theorem text_delta_appended_whatever_the_span
    (hist : list Message.t) (m : Message.t) (st : Chat.State)
    (before : list Event.t) (spanId delta : string) :
  Message.role m = assistant →
  ∃ m1 m2,
    Chat.messages (Chat.applyEvents (Progress.stateWith hist m st) before) = hist ++ [m1]
    ∧ Chat.messages
        (Chat.applyEvents (Progress.stateWith hist m st)
           (before ++ [Event.TextDelta spanId delta]))
      = hist ++ [m2]
    ∧ Message.content m2 = Message.content m1 +:+ delta.
Proof.
  intros Hm.
  destruct (applyEvents_stateWith before hist m st Hm) as (st1 & E1 & _).
  destruct (applyEvents_stateWith (before ++ [Event.TextDelta spanId delta]) hist m st Hm)
    as (st2 & E2 & _).
  rewrite E1, E2. do 2 eexists. split; [reflexivity|]. split; [reflexivity|].
  unfold Progress.effects. by rewrite foldl_app.
Qed.

Lemma text_delta_appended_whatever_the_span_witness :
  let m := Message.mk "2" assistant "A" (Some EmptyString) None 0 in
  let st := Chat.mkState [] EmptyString true None (Some O) false in
  let before := [Event.TextStart "s1"; Event.TextEnd "s1"] in
  Message.role m = assistant
  ∧ ∃ m1 m2,
      Chat.messages (Chat.applyEvents (Progress.stateWith [] m st) before) = [] ++ [m1]
      ∧ Chat.messages
          (Chat.applyEvents (Progress.stateWith [] m st)
             (before ++ [Event.TextDelta "s1" "X"]))
        = [] ++ [m2]
      ∧ Message.content m2 = Message.content m1 +:+ "X".
Proof.
  intros m st before. split; [reflexivity|].
  exact (text_delta_appended_whatever_the_span [] m st before "s1" "X" eq_refl).
Defined.

(** C5 (as stated) fails: a text delta for span [s1] that arrives after the
    [TextEnd] of [s1] is appended, not dropped. *)
Lemma late_text_delta_is_appended :
  let placeholder := Chat.assistantMessage (Chat.mkClock 1 1 1 1) in
  let st0 := Chat.mkState [Chat.userMessage "q" (Chat.mkClock 1 1 1 1); placeholder]
               EmptyString true (Some WorkflowStatus.thinking) (Some O) false in
  let before := Chat.applyEvents st0
                  [Event.Start "m1"; Event.TextStart "s1"; Event.TextDelta "s1" "A";
                   Event.TextEnd "s1"] in
  let after := Chat.applyEvent before (Event.TextDelta "s1" "X") in
  (Message.content <$> last (Chat.messages before)) = Some "A"
  ∧ (Message.content <$> last (Chat.messages after)) = Some "AX"
  ∧ Chat.messages after ≠ Chat.messages before.
Proof. vm_compute. split; [reflexivity|]. split; [reflexivity|discriminate]. Qed.

(** C8. A sources event stores its list as the [sources] of the in-progress
    assistant message, whatever the message held before; after two such
    events the message holds exactly the second list. *)
Theorem sources_replaced_wholesale
    (hist : list Message.t) (m : Message.t) (st : Chat.State)
    (first second : list Source.t) :
  Message.role m = assistant →
  (∃ m1,
      Chat.messages (Chat.applyEvent (Progress.stateWith hist m st) (Event.Sources second))
      = hist ++ [m1]
      ∧ Message.sources m1 = Some second)
  ∧ (∃ m2,
      Chat.messages
        (Chat.applyEvents (Progress.stateWith hist m st)
           [Event.Sources first; Event.Sources second])
      = hist ++ [m2]
      ∧ Message.sources m2 = Some second
      ∧ Message.content m2 = Message.content m
      ∧ Message.thinking m2 = Message.thinking m).
Proof.
  intros Hm. split.
  - destruct (applyEvent_stateWith (Event.Sources second) hist m st Hm) as (st1 & -> & _).
    by eexists.
  - destruct (applyEvents_stateWith [Event.Sources first; Event.Sources second] hist m st Hm)
      as (st2 & -> & _).
    by eexists.
Qed.

Lemma sources_replaced_wholesale_witness :
  let m := Message.mk "2" assistant "Paris" (Some EmptyString)
             (Some [Source.mk 9 "old" "http://old"]) 0 in
  let st := Chat.mkState [] EmptyString true None (Some O) false in
  let first := [Source.mk 1 "a" "http://a"] in
  let second := [Source.mk 1 "a" "http://a"; Source.mk 2 "b" "http://b"] in
  Message.role m = assistant
  ∧ (∃ m1,
      Chat.messages (Chat.applyEvent (Progress.stateWith [] m st) (Event.Sources second))
      = [] ++ [m1]
      ∧ Message.sources m1 = Some second)
  ∧ (∃ m2,
      Chat.messages
        (Chat.applyEvents (Progress.stateWith [] m st)
           [Event.Sources first; Event.Sources second])
      = [] ++ [m2]
      ∧ Message.sources m2 = Some second
      ∧ Message.content m2 = Message.content m
      ∧ Message.thinking m2 = Message.thinking m).
Proof.
  intros m st first second. split; [reflexivity|].
  exact (sources_replaced_wholesale [] m st first second eq_refl).
Defined.

(** ** The frame of the chain on the list of messages *)

Section FrameFacts.

Import Chat Progress.

Lemma framed_refl ms : framed ms ms.
Proof.
  repeat split. destruct (last ms) as [m|] eqn:E; [|done].
  case_bool_decide; [|done]. by exists m.
Qed.

Lemma framed_onLastAssistant f st :
  (∀ m, Message.id (f m) = Message.id m
        ∧ Message.role (f m) = Message.role m
        ∧ Message.timestamp (f m) = Message.timestamp m) →
  framed (messages st) (messages (setMessages (onLastAssistant f) st)).
Proof.
  intros Hf. unfold setMessages. rewrite onLastAssistant_spec.
  destruct (last (messages st)) as [m|] eqn:E; cbn [messages]; [|apply framed_refl].
  case_bool_decide as Hrole; [|apply framed_refl].
  pose proof E as E'. apply last_Some in E' as [hist Ehist].
  unfold framed. rewrite E, Ehist.
  assert (pred (length (hist ++ [m])) = length hist) as ->
    by (rewrite length_app; cbn [length]; lia).
  rewrite !take_app_length, bool_decide_eq_true_2 by done.
  rewrite !length_app. cbn [length]. split; [done|]. split; [done|].
  exists (f m). by rewrite last_snoc.
Qed.

End FrameFacts.

(** On the list of messages, the chain changes at most the last message. *)
Lemma handleParsed_framed (parsed : Wire.t) (st : Chat.State) :
  Progress.framed (Chat.messages st) (Chat.messages (Chat.handleParsed parsed st)).
Proof.
  unfold Chat.handleParsed.
  repeat match goal with
  | |- context [if ?b then _ else _] => destruct b
  end;
  first [apply framed_refl | by apply framed_onLastAssistant].
Qed.

(** ** The component as a transition system *)

Section StepFacts.

Import Chat Invariant.

Variable JSON_parse : string → option Wire.t.

Lemma setMessages_cells u st :
  isLoading (setMessages u st) = isLoading st
  ∧ abortControllerRef (setMessages u st) = abortControllerRef st
  ∧ input (setMessages u st) = input st
  ∧ currentStatus (setMessages u st) = currentStatus st.
Proof. unfold setMessages. by destruct (u (messages st)). Qed.

Lemma handleParsed_cells parsed st :
  isLoading (handleParsed parsed st) = isLoading st
  ∧ abortControllerRef (handleParsed parsed st) = abortControllerRef st.
Proof.
  unfold handleParsed.
  repeat match goal with
  | |- context [if ?b then _ else _] => destruct b
  end;
  first [done | split; apply setMessages_cells].
Qed.

Lemma forLines_cells lines st :
  isLoading (forLines JSON_parse handleParsed lines st) = isLoading st
  ∧ abortControllerRef (forLines JSON_parse handleParsed lines st)
    = abortControllerRef st.
Proof.
  revert st. induction lines as [|l lines IH]; intros st; [done|].
  cbn [forLines]. destruct (classify JSON_parse l); [apply IH|done|].
  destruct (IH (handleParsed parsed st)) as [-> ->]. apply handleParsed_cells.
Qed.

Lemma lookupInvocation_single c c0 ph :
  lookupInvocation c [mkInvocation c0 ph]
  = if bool_decide (c0 = c) then Some (mkInvocation c0 ph) else None.
Proof. unfold lookupInvocation. cbn. by case_bool_decide. Qed.

Lemma dropInvocation_single c ph : dropInvocation c [mkInvocation c ph] = [].
Proof. unfold dropInvocation. cbn. by rewrite bool_decide_eq_true_2. Qed.

Lemma setPhase_single c ph ph' :
  setPhase c ph' [mkInvocation c ph] = [mkInvocation c ph'].
Proof. unfold setPhase. cbn. by rewrite bool_decide_eq_true_2. Qed.

Lemma settle_idle c o ph cfg :
  running cfg = [mkInvocation c ph] → idle (settle c o cfg).
Proof.
  intros Hr. unfold idle, settle. cbn [running ui]. rewrite Hr, dropInvocation_single.
  done.
Qed.

Lemma sendMessage_blocked messageText clock cfg :
  isLoading (ui cfg) = true → sendMessage messageText clock cfg = cfg.
Proof. intros H. unfold sendMessage. by rewrite H, orb_true_r. Qed.

Lemma step_holds cfg i : holds cfg → holds (step JSON_parse cfg i).
Proof.
  intros [[Hr Hl]|(c0 & ph & Hr & Hl & Hc)].
  - (* idle *)
    destruct i; cbn [step]; unfold stopGeneration; rewrite ?Hr; cbn [lookupInvocation find];
      try (left; by split).
    + unfold sendMessage. rewrite Hl, orb_false_r.
      case_bool_decide; [left; by split|]. right.
      exists (nextController cfg), AwaitFetch. cbn. by rewrite Hr.
    + destruct (abortControllerRef (ui cfg)); left; by split.
  - (* busy *)
    destruct i; cbn [step].
    + rewrite sendMessage_blocked by done. right. by exists c0, ph.
    + unfold stopGeneration. rewrite Hc, Hr, lookupInvocation_single.
      rewrite bool_decide_eq_true_2 by done. left. by eapply settle_idle.
    + rewrite Hr, lookupInvocation_single. case_bool_decide as Ec; [subst c|right; by exists c0, ph].
      destruct ph; [|right; by exists c0, (AwaitRead buffer)].
      destruct (ok && hasBody); [|left; by eapply settle_idle].
      right. exists c0, (AwaitRead EmptyString). cbn [running ui].
      by rewrite setPhase_single.
    + rewrite Hr, lookupInvocation_single. case_bool_decide as Ec; [subst c|right; by exists c0, ph].
      destruct ph; [left; by eapply settle_idle|right; by exists c0, (AwaitRead buffer)].
    + rewrite Hr, lookupInvocation_single. case_bool_decide as Ec; [subst c|right; by exists c0, ph].
      destruct ph; [right; by exists c0, AwaitFetch|].
      right. exists c0, (AwaitRead (Reassembly.rest_of buffer chunk)).
      cbn [onChunk running ui]. rewrite setPhase_single.
      destruct (forLines_cells (Reassembly.lines_of buffer chunk) (ui cfg)) as [-> ->].
      done.
    + rewrite Hr, lookupInvocation_single. case_bool_decide as Ec; [subst c|right; by exists c0, ph].
      destruct ph; [right; by exists c0, AwaitFetch|left; by eapply settle_idle].
    + rewrite Hr, lookupInvocation_single. case_bool_decide as Ec; [subst c|right; by exists c0, ph].
      destruct ph; [right; by exists c0, AwaitFetch|left; by eapply settle_idle].
Qed.

Lemma mount_holds saved : holds (mount saved).
Proof. left. by split. Qed.

Lemma run_holds cfg inputs : holds cfg → holds (run JSON_parse cfg inputs).
Proof.
  revert cfg. induction inputs as [|i inputs IH]; intros cfg H; [done|].
  cbn [run foldl]. apply IH. by apply step_holds.
Qed.

Lemma run_app cfg l1 l2 :
  run JSON_parse cfg (l1 ++ l2) = run JSON_parse (run JSON_parse cfg l1) l2.
Proof. apply foldl_app. Qed.

End StepFacts.

(** C9. However the component is driven from its mounting, at most one call
    of [sendMessage] is in flight (awaiting the response or reading the
    stream), and while one is, a further submission leaves the component as
    it is: no message appended, no request issued, nothing queued. *)
Theorem one_exchange_in_flight
    (JSON_parse : string → option Wire.t)
    (saved : option (list Message.t)) (inputs : list Chat.Input) :
  let cfg := Chat.run JSON_parse (Chat.mount saved) inputs in
  (length (Chat.running cfg) ≤ 1)%nat
  ∧ (Chat.running cfg = []
     ∨ ∀ messageText clock,
         Chat.step JSON_parse cfg (Chat.Submit messageText clock) = cfg).
Proof.
  cbv zeta.
  destruct (run_holds JSON_parse (Chat.mount saved) inputs (mount_holds saved))
    as [[Hr Hl]|(c & ph & Hr & Hl & Hc)]; rewrite Hr.
  - split; [cbn; lia|by left].
  - split; [cbn; lia|right]. intros messageText clock.
    cbn [Chat.step]. by apply sendMessage_blocked.
Qed.

(** ** One exchange, end to end *)

Section ExchangeFacts.

Import Chat Progress Exchange Frames ChatLines.

Variable JSON_parse : string → option Wire.t.

Lemma run_reads chunks cfg c buffer :
  running cfg = [mkInvocation c (AwaitRead buffer)] →
  run JSON_parse cfg (ReadValue c <$> chunks)
  = mkConfig (onChunks JSON_parse handleParsed buffer chunks (ui cfg)).2
      [mkInvocation c (AwaitRead (onChunks JSON_parse handleParsed buffer chunks (ui cfg)).1)]
      (requests cfg) (outcomes cfg) (nextController cfg).
Proof.
  revert cfg buffer. induction chunks as [|chunk chunks IH]; intros cfg buffer Hr.
  - cbn. rewrite <- Hr. by destruct cfg.
  - cbn [fmap list_fmap run foldl step]. rewrite Hr, lookupInvocation_single.
    rewrite bool_decide_eq_true_2 by done. cbn [onChunk onChunks].
    rewrite setPhase_single. exact (IH (mkConfig _ _ _ _ _) _ eq_refl).
Qed.

Lemma run_opening saved messageText clock :
  Text.trim messageText ≠ EmptyString →
  run JSON_parse (mount saved) (opening messageText clock)
  = mkConfig
      (stateWith (history saved messageText clock) (assistantMessage clock)
         (mkState [] EmptyString true (Some WorkflowStatus.thinking) (Some O) false))
      [mkInvocation O (AwaitRead EmptyString)]
      [request saved messageText clock] [] 1%nat.
Proof.
  intros Ht. unfold opening, run. cbn [foldl step]. unfold sendMessage.
  rewrite bool_decide_eq_false_2 by done. reflexivity.
Qed.

Lemma foldl_handleParsed_wire evs st :
  foldl (λ acc parsed, handleParsed parsed acc) st (omap Event.wire evs)
  = applyEvents st evs.
Proof.
  revert st. induction evs as [|e evs IH]; intros st; [done|].
  unfold applyEvents in *. cbn [foldl omap list_omap]. unfold applyEvent at 2.
  destruct (Event.wire e); cbn [foldl]; apply IH.
Qed.

Lemma means_fst_noLF fs :
  Forall (means JSON_parse) fs → Forall (λ p, Text.has_LF p = false) fs.*1.
Proof. induction 1 as [|f fs (? & _) _ IH]; by constructor. Qed.

Lemma means_fst_notDone fs :
  Forall (means JSON_parse) fs → Forall (λ p, isDone p = false) fs.*1.
Proof. induction 1 as [|f fs (_ & ? & _) _ IH]; by constructor. Qed.

Lemma removelast_snoc {A} (l : list A) x : removelast (l ++ [x]) = l.
Proof. apply removelast_last. Qed.

Lemma valid_frames fs : Forall (means JSON_parse) fs → valid fs.*1.
Proof.
  intros H. split; [by apply means_fst_noLF|].
  pose proof (means_fst_notDone fs H) as Hd.
  destruct (fs.*1) as [|p ps] using rev_ind; [constructor|].
  rewrite removelast_snoc. by apply Forall_app in Hd as [? _].
Qed.

Lemma valid_frames_done fs : Forall (means JSON_parse) fs → valid (fs.*1 ++ ["[DONE]"]).
Proof.
  intros H. split.
  - apply Forall_app. split; [by apply means_fst_noLF|by repeat constructor].
  - rewrite removelast_snoc. by apply means_fst_notDone.
Qed.

Lemma decodedPayloads_frames fs tail :
  Forall (means JSON_parse) fs →
  decodedPayloads JSON_parse (fs.*1 ++ tail)
  = omap Event.wire (carried fs) ++ decodedPayloads JSON_parse tail.
Proof.
  unfold decodedPayloads, carried.
  induction 1 as [|[p oe] fs (_ & Hd & Hp & Hne) _ IH]; [done|].
  cbn [fmap list_fmap app beforeDone fst snd] in *. rewrite Hd.
  cbn [omap list_omap]. rewrite Hp, IH.
  destruct oe as [e|]; [|done]. cbn [mbind option_bind snd omap list_omap].
  destruct (Event.wire e) eqn:Ew; [done|]. by destruct e.
Qed.

(** The component after the opening of an exchange and the reads of any
    cutting of a frame sequence followed by an unfinished line. *)
Lemma exchange_streamed ps evs partial chunks saved messageText clock :
  Text.trim messageText ≠ EmptyString →
  valid ps →
  decodedPayloads JSON_parse ps = omap Event.wire evs →
  Text.has_LF partial = false →
  splits chunks (text ps +:+ partial) →
  ∃ st',
    run JSON_parse (mount saved) (opening messageText clock ++ reads chunks)
    = mkConfig
        (stateWith (history saved messageText clock)
           (effects evs (assistantMessage clock)) st')
        [mkInvocation O (AwaitRead partial)]
        [request saved messageText clock] [] 1%nat
    ∧ isLoading st' = true
    ∧ abortControllerRef st' = Some O
    ∧ renderError st' = false.
Proof.
  intros Ht Hv Hd Hp Hs.
  rewrite run_app, run_opening by done. unfold reads.
  rewrite (run_reads _ _ O EmptyString) by done. cbn [ui requests outcomes nextController].
  rewrite (onChunks_frames JSON_parse handleParsed ps partial) by done.
  rewrite Hd, foldl_handleParsed_wire. cbn [fst snd].
  destruct (applyEvents_stateWith evs (history saved messageText clock)
              (assistantMessage clock)
              (mkState [] EmptyString true (Some WorkflowStatus.thinking) (Some O) false)
              eq_refl) as (st' & -> & E1 & E2 & E3).
  by exists st'.
Qed.

End ExchangeFacts.

(** ** C6, C7, C2: how an exchange ends *)

Section EndingFacts.

Import Chat Progress Exchange.

Variable JSON_parse : string → option Wire.t.

Lemma step_settles hist m st partial reqs i o :
  (i = ReadDone O ∧ o = Completed) ∨ (i = ReadRejected O ∧ o = Errored)
  ∨ (i = Stop ∧ o = Aborted ∧ abortControllerRef st = Some O) →
  step JSON_parse (reading hist m st partial reqs) i
  = mkConfig (finally (catch o (stateWith hist m st))) [] reqs [(O, o)] 1%nat.
Proof.
  intros [[-> ->]|[[-> ->]|(-> & -> & Href)]]; cbn [step]; unfold stopGeneration, reading;
    cbn [ui running abortControllerRef stateWith]; rewrite ?Href, lookupInvocation_single;
    rewrite bool_decide_eq_true_2 by done; unfold settle;
    cbn [ui running requests outcomes nextController app];
    by rewrite dropInvocation_single.
Qed.

Lemma catch_errored hist m st :
  Message.role m = assistant →
  catch Errored (stateWith hist m st)
  = stateWith hist (Message.with_content failureText m) st.
Proof.
  intros Hm. unfold catch, overwriteWithFailure.
  by rewrite setMessages_stateWith_assistant.
Qed.

End EndingFacts.

Section Endings.

Import Chat Progress Exchange Frames ChatLines.

Variable JSON_parse : string → option Wire.t.

(** The exchange after its opening and the reads of any cutting of frames
    followed by an unfinished line, then one more input that ends it. *)
Lemma exchange_ended fs tail partial chunks saved messageText clock i o :
  Text.trim messageText ≠ EmptyString →
  Forall (means JSON_parse) fs →
  tail = [] ∨ tail = ["[DONE]"] →
  Text.has_LF partial = false →
  splits chunks (text (fs.*1 ++ tail) +:+ partial) →
  (i = ReadDone O ∧ o = Completed) ∨ (i = ReadRejected O ∧ o = Errored)
  ∨ (i = Stop ∧ o = Aborted) →
  ∃ st',
    run JSON_parse (mount saved) (opening messageText clock ++ reads chunks)
    = reading (history saved messageText clock)
        (effects (carried fs) (assistantMessage clock)) st' partial
        [request saved messageText clock]
    ∧ run JSON_parse (mount saved) (opening messageText clock ++ reads chunks ++ [i])
      = mkConfig
          (finally (catch o
             (stateWith (history saved messageText clock)
                (effects (carried fs) (assistantMessage clock)) st')))
          [] [request saved messageText clock] [(O, o)] 1%nat
    ∧ renderError st' = false.
Proof.
  intros Ht Hfs Htail Hp Hs Hi.
  assert (Hv : valid (fs.*1 ++ tail)).
  { destruct Htail as [-> | ->];
      [rewrite app_nil_r; by apply (valid_frames JSON_parse)|].
    by apply (valid_frames_done JSON_parse). }
  assert (Hd : decodedPayloads JSON_parse (fs.*1 ++ tail) = omap Event.wire (carried fs)).
  { rewrite decodedPayloads_frames by done.
    destruct Htail as [-> | ->]; by rewrite app_nil_r. }
  destruct (exchange_streamed JSON_parse _ _ partial chunks saved messageText clock
              Ht Hv Hd Hp Hs) as (st' & Erun & El & Eref & Eerr).
  exists st'. split; [done|]. split; [|done].
  rewrite app_assoc, run_app, Erun. cbn [run foldl].
  apply (step_settles JSON_parse). intuition.
Qed.

End Endings.

(** C6. Frames whose payload cannot be decoded are skipped and the stream
    stays open: for frames of which some carry events and some are
    undecodable, followed by the sentinel and cut into chunks in any way, the
    exchange completes, and the assistant message holds the concatenation of
    the deltas of the decodable frames. The relay, on any cutting of upstream
    frames, forwards the decodable ones and ends its stream as usual. *)
Theorem undecodable_frames_are_skipped
    (JSON_parse : string → option Wire.t)
    (frames : list (string * option Event.t)) (chunks : list string)
    (saved : option (list Message.t)) (messageText : string) (clock : Chat.Clock)
    (ids : Relay.Ids) (upstream upstreamChunks : list string) :
  Text.trim messageText ≠ EmptyString →
  Forall (ChatLines.means JSON_parse) frames →
  Frames.splits chunks (Frames.text (frames.*1 ++ ["[DONE]"])) →
  Forall (λ p, Text.has_LF p = false) upstream →
  Frames.splits upstreamChunks (Frames.text upstream) →
  let cfg :=
    Chat.run JSON_parse (Chat.mount saved)
      (Exchange.opening messageText clock ++ Exchange.reads chunks
         ++ [Chat.ReadDone O]) in
  (∃ m,
      Chat.messages (Chat.ui cfg) = Exchange.history saved messageText clock ++ [m]
      ∧ Message.content m = Event.deltas (ChatLines.carried frames)
      ∧ Chat.outcomes cfg = [(O, Chat.Completed)]
      ∧ Chat.running cfg = []
      ∧ Chat.isLoading (Chat.ui cfg) = false
      ∧ Chat.currentStatus (Chat.ui cfg) = None
      ∧ Chat.renderError (Chat.ui cfg) = false)
  ∧ Relay.start JSON_parse ids (Some (upstreamChunks, Relay.EndOfStream))
    = [Relay.startFrame ids; Relay.textStartFrame ids]
        ++ flat_map (Relay.forward ids) (omap JSON_parse upstream)
        ++ [Relay.textEndFrame ids; Relay.FrameDone].
Proof.
  intros Ht Hfs Hs Hup Hups. cbv zeta. split.
  - destruct (exchange_ended JSON_parse frames ["[DONE]"] EmptyString chunks saved
                messageText clock (Chat.ReadDone O) Chat.Completed)
      as (st' & _ & -> & Herr); try done; [by right|by rewrite append_nil_r|by left|].
    eexists. split; [reflexivity|]. by rewrite effects_content.
  - unfold Relay.start.
    rewrite (pump_frames JSON_parse ids upstream EmptyString); try done.
    by rewrite append_nil_r.
Qed.

(** The scenario of two deltas around an undecodable frame, then the
    sentinel, cut in the middle of the second frame. *)
Lemma undecodable_frames_are_skipped_witness :
  let delta (d : string) :=
    Relay.payload Json.stringify (Relay.ofEvent (Event.TextDelta "s1" d)) in
  let frames :=
    [(delta "Hel", Some (Event.TextDelta "s1" "Hel"));
     ("{not json", None);
     (delta "lo", Some (Event.TextDelta "s1" "lo"))] in
  let whole := Frames.text (frames.*1 ++ ["[DONE]"]) in
  let chunks := [String.substring 0 60 whole; Text.slice 60 whole] in
  let clock := Chat.mkClock 1000 1000 1000 1000 in
  let ids := Relay.mkIds "x1" "m1" "s1" in
  let content (d : string) :=
    Json.stringify (Wire.mk (Some "content") None None None (Some d) None None) in
  let upstream := [content "Hel"; "{not json"; content "lo"] in
  let upstreamChunks := [Frames.text upstream] in
  let cfg :=
    Chat.run Json.decode (Chat.mount None)
      (Exchange.opening "hi" clock ++ Exchange.reads chunks ++ [Chat.ReadDone O]) in
  Text.trim "hi" ≠ EmptyString
  ∧ Forall (ChatLines.means Json.decode) frames
  ∧ Frames.splits chunks (Frames.text (frames.*1 ++ ["[DONE]"]))
  ∧ Forall (λ p, Text.has_LF p = false) upstream
  ∧ Frames.splits upstreamChunks (Frames.text upstream)
  ∧ (∃ m,
      Chat.messages (Chat.ui cfg) = Exchange.history None "hi" clock ++ [m]
      ∧ Message.content m = "Hello"
      ∧ Chat.outcomes cfg = [(O, Chat.Completed)]
      ∧ Chat.running cfg = []
      ∧ Chat.isLoading (Chat.ui cfg) = false
      ∧ Chat.currentStatus (Chat.ui cfg) = None
      ∧ Chat.renderError (Chat.ui cfg) = false)
  ∧ Relay.start Json.decode ids (Some (upstreamChunks, Relay.EndOfStream))
    = [Relay.startFrame ids; Relay.textStartFrame ids]
        ++ flat_map (Relay.forward ids) (omap Json.decode upstream)
        ++ [Relay.textEndFrame ids; Relay.FrameDone].
Proof.
  intros delta frames whole chunks clock ids content upstream upstreamChunks cfg.
  assert (H1 : Text.trim "hi" ≠ EmptyString) by discriminate.
  assert (H2 : Forall (ChatLines.means Json.decode) frames)
    by (repeat constructor; vm_compute; discriminate).
  assert (H3 : Frames.splits chunks (Frames.text (frames.*1 ++ ["[DONE]"])))
    by (vm_compute; reflexivity).
  assert (H4 : Forall (λ p, Text.has_LF p = false) upstream) by (repeat constructor).
  assert (H5 : Frames.splits upstreamChunks (Frames.text upstream))
    by (vm_compute; reflexivity).
  do 5 (split; [assumption|]).
  exact (undecodable_frames_are_skipped Json.decode frames chunks None "hi" clock
           ids upstream upstreamChunks H1 H2 H3 H4 H5).
Defined.

(** C7. When [stopGeneration] is called after the frames received so far
    have been applied and before the sentinel, the exchange ends as aborted;
    the message list is the one before the call, its assistant message holds
    the concatenation of the deltas applied so far, and the failure text is
    not written. *)
Theorem cancellation_keeps_partial_content
    (JSON_parse : string → option Wire.t)
    (frames : list (string * option Event.t)) (partial : string)
    (chunks : list string)
    (saved : option (list Message.t)) (messageText : string) (clock : Chat.Clock) :
  Text.trim messageText ≠ EmptyString →
  Forall (ChatLines.means JSON_parse) frames →
  Text.has_LF partial = false →
  Frames.splits chunks (Frames.text frames.*1 +:+ partial) →
  let before :=
    Chat.run JSON_parse (Chat.mount saved)
      (Exchange.opening messageText clock ++ Exchange.reads chunks) in
  let after := Chat.step JSON_parse before Chat.Stop in
  ∃ m,
    Chat.messages (Chat.ui after) = Exchange.history saved messageText clock ++ [m]
    ∧ Message.content m = Event.deltas (ChatLines.carried frames)
    ∧ Chat.messages (Chat.ui after) = Chat.messages (Chat.ui before)
    ∧ Chat.outcomes after = [(O, Chat.Aborted)]
    ∧ Chat.running after = []
    ∧ Chat.isLoading (Chat.ui after) = false
    ∧ Chat.currentStatus (Chat.ui after) = None
    ∧ Chat.abortControllerRef (Chat.ui after) = None.
Proof.
  intros Ht Hfs Hp Hs. cbv zeta.
  destruct (exchange_ended JSON_parse frames [] partial chunks saved
              messageText clock Chat.Stop Chat.Aborted)
    as (st' & Ebefore & Eafter & _); try done;
    [by left|by rewrite app_nil_r|by right; right|].
  change (Chat.step JSON_parse ?c Chat.Stop) with (Chat.run JSON_parse c [Chat.Stop]).
  rewrite <- run_app, <- app_assoc, Eafter, Ebefore.
  eexists. split; [reflexivity|]. by rewrite effects_content.
Qed.

(** The scenario: cancellation after the delta [Par], while the next frame
    is half received. *)
Lemma cancellation_keeps_partial_content_witness :
  let frames :=
    [(Relay.payload Json.stringify (Relay.ofEvent (Event.TextDelta "s1" "Par")),
      Some (Event.TextDelta "s1" "Par"))] in
  let partial := "data: {" in
  let whole := Frames.text frames.*1 +:+ partial in
  let chunks := [String.substring 0 20 whole; Text.slice 20 whole] in
  let clock := Chat.mkClock 1000 1000 1000 1000 in
  let before :=
    Chat.run Json.decode (Chat.mount None)
      (Exchange.opening "capital of France?" clock ++ Exchange.reads chunks) in
  let after := Chat.step Json.decode before Chat.Stop in
  Text.trim "capital of France?" ≠ EmptyString
  ∧ Forall (ChatLines.means Json.decode) frames
  ∧ Text.has_LF partial = false
  ∧ Frames.splits chunks (Frames.text frames.*1 +:+ partial)
  ∧ ∃ m,
      Chat.messages (Chat.ui after)
      = Exchange.history None "capital of France?" clock ++ [m]
      ∧ Message.content m = "Par"
      ∧ Chat.messages (Chat.ui after) = Chat.messages (Chat.ui before)
      ∧ Chat.outcomes after = [(O, Chat.Aborted)]
      ∧ Chat.running after = []
      ∧ Chat.isLoading (Chat.ui after) = false
      ∧ Chat.currentStatus (Chat.ui after) = None
      ∧ Chat.abortControllerRef (Chat.ui after) = None.
Proof.
  intros frames partial whole chunks clock before after.
  assert (H1 : Text.trim "capital of France?" ≠ EmptyString) by discriminate.
  assert (H2 : Forall (ChatLines.means Json.decode) frames)
    by (repeat constructor; vm_compute; discriminate).
  assert (H3 : Text.has_LF partial = false) by reflexivity.
  assert (H4 : Frames.splits chunks (Frames.text frames.*1 +:+ partial))
    by (vm_compute; reflexivity).
  do 4 (split; [assumption|]).
  exact (cancellation_keeps_partial_content Json.decode frames partial chunks None
           "capital of France?" clock H1 H2 H3 H4).
Defined.

(** C2 (as amended). When the read of the stream fails with an error that is
    not an abort, the content of the in-progress assistant message is
    overwritten with the fixed failure text whatever had streamed before, the
    exchange ends as errored, and the status indicator is cleared. *)
Theorem read_error_overwrites_content
    (JSON_parse : string → option Wire.t)
    (frames : list (string * option Event.t)) (partial : string)
    (chunks : list string)
    (saved : option (list Message.t)) (messageText : string) (clock : Chat.Clock) :
  Text.trim messageText ≠ EmptyString →
  Forall (ChatLines.means JSON_parse) frames →
  Text.has_LF partial = false →
  Frames.splits chunks (Frames.text frames.*1 +:+ partial) →
  let before :=
    Chat.run JSON_parse (Chat.mount saved)
      (Exchange.opening messageText clock ++ Exchange.reads chunks) in
  let after := Chat.step JSON_parse before (Chat.ReadRejected O) in
  ∃ m m',
    Chat.messages (Chat.ui before) = Exchange.history saved messageText clock ++ [m]
    ∧ Message.content m = Event.deltas (ChatLines.carried frames)
    ∧ Chat.messages (Chat.ui after) = Exchange.history saved messageText clock ++ [m']
    ∧ Message.content m' = Chat.failureText
    ∧ Chat.outcomes after = [(O, Chat.Errored)]
    ∧ Chat.running after = []
    ∧ Chat.isLoading (Chat.ui after) = false
    ∧ Chat.currentStatus (Chat.ui after) = None.
Proof.
  intros Ht Hfs Hp Hs. cbv zeta.
  destruct (exchange_ended JSON_parse frames [] partial chunks saved
              messageText clock (Chat.ReadRejected O) Chat.Errored)
    as (st' & Ebefore & Eafter & _); try done;
    [by left|by rewrite app_nil_r|by right; left|].
  change (Chat.step JSON_parse ?c (Chat.ReadRejected O))
    with (Chat.run JSON_parse c [Chat.ReadRejected O]).
  rewrite <- run_app, <- app_assoc, Eafter, Ebefore.
  rewrite catch_errored by by rewrite effects_role.
  do 2 eexists. split; [reflexivity|]. split; [by rewrite effects_content|].
  split; [reflexivity|]. done.
Qed.

Lemma read_error_overwrites_content_witness :
  let frames :=
    [(Relay.payload Json.stringify (Relay.ofEvent (Event.TextDelta "s1" "Par")),
      Some (Event.TextDelta "s1" "Par"))] in
  let chunks := [Frames.text frames.*1] in
  let clock := Chat.mkClock 1000 1000 1000 1000 in
  let before :=
    Chat.run Json.decode (Chat.mount None)
      (Exchange.opening "capital of France?" clock ++ Exchange.reads chunks) in
  let after := Chat.step Json.decode before (Chat.ReadRejected O) in
  Text.trim "capital of France?" ≠ EmptyString
  ∧ Forall (ChatLines.means Json.decode) frames
  ∧ Text.has_LF EmptyString = false
  ∧ Frames.splits chunks (Frames.text frames.*1 +:+ EmptyString)
  ∧ ∃ m m',
      Chat.messages (Chat.ui before)
      = Exchange.history None "capital of France?" clock ++ [m]
      ∧ Message.content m = "Par"
      ∧ Chat.messages (Chat.ui after)
        = Exchange.history None "capital of France?" clock ++ [m']
      ∧ Message.content m' = Chat.failureText
      ∧ Chat.outcomes after = [(O, Chat.Errored)]
      ∧ Chat.running after = []
      ∧ Chat.isLoading (Chat.ui after) = false
      ∧ Chat.currentStatus (Chat.ui after) = None.
Proof.
  intros frames chunks clock before after.
  assert (H1 : Text.trim "capital of France?" ≠ EmptyString) by discriminate.
  assert (H2 : Forall (ChatLines.means Json.decode) frames)
    by (repeat constructor; vm_compute; discriminate).
  assert (H3 : Text.has_LF EmptyString = false) by reflexivity.
  assert (H4 : Frames.splits chunks (Frames.text frames.*1 +:+ EmptyString))
    by (vm_compute; reflexivity).
  do 4 (split; [assumption|]).
  exact (read_error_overwrites_content Json.decode frames EmptyString chunks None
           "capital of France?" clock H1 H2 H3 H4).
Defined.

(** C2 (as stated) fails: the delta [Par] has streamed into the assistant
    message when the read fails, and the message ends with the failure text,
    not with [Par]. *)
Lemma partial_content_is_overwritten_on_error :
  let frame :=
    Relay.frameText
      (Relay.payload Json.stringify (Relay.ofEvent (Event.TextDelta "s1" "Par"))) in
  let clock := Chat.mkClock 1000 1000 1000 1000 in
  let before :=
    Chat.run Json.decode (Chat.mount None)
      (Exchange.opening "capital of France?" clock ++ Exchange.reads [frame]) in
  let after := Chat.step Json.decode before (Chat.ReadRejected O) in
  (Message.content <$> last (Chat.messages (Chat.ui before))) = Some "Par"
  ∧ (Message.content <$> last (Chat.messages (Chat.ui after)))
    = Some "Sorry, an error occurred. Please try again."
  ∧ (Message.content <$> last (Chat.messages (Chat.ui after))) ≠ Some "Par".
Proof. vm_compute. split; [reflexivity|]. split; [reflexivity|discriminate]. Qed.

(** ** C4: the relay when the backend fails *)

(** C4 (as amended). When the one call of [fetch] to the backend is rejected
    or answers with a status that is not a success, the route answers with
    the JSON error response of status 500; it opens no event stream, enqueues
    no frame, and calls [fetch] at most once, whatever a further call would
    have yielded. *)
Theorem backend_failure_yields_error_response
    (JSON_parse : string → option Wire.t)
    (req : option Relay.Body) (ids : Relay.Ids) (backend : nat → Relay.FetchResult) :
  (backend O = Relay.Rejected
   ∨ ∃ status body, backend O = Relay.Responded status body ∧ Relay.ok status = false) →
  (Relay.POST JSON_parse req ids backend).1
  = Relay.JsonResponse 500 "Failed to process chat request"
  ∧ (length (Relay.POST JSON_parse req ids backend).2 ≤ 1)%nat.
Proof.
  intros Hb. unfold Relay.POST.
  destruct req as [body|]; [|cbn; split; [done|lia]].
  case_bool_decide; [cbn; split; [done|lia]|].
  case_bool_decide; [cbn; split; [done|lia]|].
  destruct Hb as [-> | (status & upstreamBody & -> & ->)]; cbn; split; done || lia.
Qed.

Lemma backend_failure_yields_error_response_witness :
  let req := Some (Relay.mkBody (Some [(user, Some "capital of France?")]) None) in
  let ids := Relay.mkIds "x1" "m1" "s1" in
  let backend (n : nat) :=
    match n with
    | O => Relay.Responded 503 None
    | S _ => Relay.Responded 200 (Some ([], Relay.EndOfStream))
    end in
  (backend O = Relay.Rejected
   ∨ ∃ status body, backend O = Relay.Responded status body ∧ Relay.ok status = false)
  ∧ (Relay.POST Json.decode req ids backend).1
    = Relay.JsonResponse 500 "Failed to process chat request"
  ∧ (length (Relay.POST Json.decode req ids backend).2 ≤ 1)%nat.
Proof.
  intros req ids backend.
  assert (H : backend O = Relay.Rejected
              ∨ ∃ status body, backend O = Relay.Responded status body
                               ∧ Relay.ok status = false)
    by (right; exists 503, None; split; reflexivity).
  split; [exact H|].
  exact (backend_failure_yields_error_response Json.decode req ids backend H).
Defined.

(** C4 (as stated) fails: on a backend answer of status 503 the route returns
    the JSON error response after one call of [fetch]; there is no outbound
    stream, hence no error event on one. *)
Lemma backend_failure_opens_no_stream :
  let req := Some (Relay.mkBody (Some [(user, Some "capital of France?")]) None) in
  let ids := Relay.mkIds "x1" "m1" "s1" in
  let result := Relay.POST Json.decode req ids (λ _, Relay.Responded 503 None) in
  result.1 = Relay.JsonResponse 500 "Failed to process chat request"
  ∧ (∀ headers enqueued closed,
       result.1 ≠ Relay.StreamResponse headers enqueued closed)
  ∧ length result.2 = 1%nat.
Proof. vm_compute. split; [reflexivity|]. split; [discriminate|reflexivity]. Qed.

(** ** The store refines the list of messages *)

Section StoreFacts.

Import Store.

Lemma omap_ext_in {A B} (f g : A → option B) (l : list A) :
  (∀ x, x ∈ l → f x = g x) → omap f l = omap g l.
Proof.
  induction l as [|x l IH]; intros H; [done|].
  cbn [omap list_omap]. rewrite (H x) by left.
  rewrite IH; [done|]. intros y Hy. apply H. by right.
Qed.

(** Storing at a reference outside [refs] does not change what [refs] denote. *)
Lemma omap_lookup_insert_fresh (h : gmap nat Message.t) r m (refs : list nat) :
  r ∉ refs → omap (λ x, <[r := m]> h !! x) refs = omap (λ x, h !! x) refs.
Proof.
  intros Hr. apply omap_ext_in. intros x Hx.
  rewrite lookup_insert_ne; [done|]. by intros ->.
Qed.

Lemma contents_snoc (h : gmap nat Message.t) r m hist :
  r ∉ hist →
  contents (mk (hist ++ [r]) (<[r := m]> h)) = omap (λ x, h !! x) hist ++ [m].
Proof.
  intros Hr. unfold contents. cbn [array objects].
  rewrite omap_app, omap_lookup_insert_fresh by done.
  cbn [omap list_omap]. by rewrite lookup_insert_eq.
Qed.

Lemma wf_snoc (h : gmap nat Message.t) r m hist old :
  wf (mk (hist ++ old) h) → r ∉ hist →
  wf (mk (hist ++ [r]) (<[r := m]> h)).
Proof.
  intros [Hnd Hall] Hr. cbn [array objects] in *.
  apply NoDup_app in Hnd as (Hnd & _ & _). apply Forall_app in Hall as [Hall _].
  split; cbn [array objects].
  - apply NoDup_app. split; [done|]. split; [|apply NoDup_singleton].
    intros x Hx Hx'. apply list_elem_of_singleton in Hx' as ->. done.
  - apply Forall_app. split.
    + eapply Forall_impl; [exact Hall|]. intros x [mx Hx]. cbn.
      destruct (decide (r = x)) as [->|Hne]; [by rewrite lookup_insert_eq|].
      by rewrite lookup_insert_ne.
    + constructor; [|constructor]. by rewrite lookup_insert_eq.
Qed.

Lemma fresh_not_in_array s :
  wf s → fresh (dom (objects s)) ∉ array s.
Proof.
  intros [_ Hall] Hin. rewrite Forall_forall in Hall.
  apply Hall in Hin. apply elem_of_dom in Hin. by apply is_fresh in Hin.
Qed.

Lemma push_refines m s :
  wf s → wf (push m s) ∧ contents (push m s) = contents s ++ [m].
Proof.
  intros Hwf. pose proof (fresh_not_in_array s Hwf) as Hfresh. unfold push. split.
  - apply (wf_snoc _ _ _ _ []); [|done]. rewrite app_nil_r. by destruct s.
  - by rewrite contents_snoc.
Qed.

Lemma ofList_refines ms : wf (ofList ms) ∧ contents (ofList ms) = ms.
Proof.
  unfold ofList.
  assert (G : ∀ s, wf s → wf (foldl (λ s m, push m s) s ms)
                    ∧ contents (foldl (λ s m, push m s) s ms) = contents s ++ ms).
  { induction ms as [|m ms IH]; intros s Hs; cbn [foldl].
    - by rewrite app_nil_r.
    - destruct (push_refines m s Hs) as [Hwf Hc].
      destruct (IH _ Hwf) as [? ->]. rewrite Hc, <- app_assoc. done. }
  apply (G (mk [] ∅)). split; [apply NoDup_nil_2|constructor].
Qed.

(** A well-formed store whose array ends with [r]: what it denotes. *)
Lemma contents_last hist r h :
  wf (mk (hist ++ [r]) h) →
  ∃ m, h !! r = Some m ∧ (r ∉ hist)
       ∧ contents (mk (hist ++ [r]) h) = omap (λ x, h !! x) hist ++ [m].
Proof.
  intros [Hnd Hall]. cbn [array objects] in *.
  apply Forall_app in Hall as [_ Hr]. inversion_clear Hr as [|?? [m Hm] _].
  apply NoDup_app in Hnd as (_ & Hdisj & _).
  exists m. split; [done|]. split.
  - intros Hin. apply (Hdisj r Hin). by left.
  - unfold contents. cbn [array objects]. rewrite omap_app. cbn [omap list_omap].
    by rewrite Hm.
Qed.

Lemma contents_nil h : contents (mk [] h) = [].
Proof. reflexivity. Qed.

(** In-place mutation of the last object is the list updater. *)
Lemma mutateLast_refines f s :
  wf s →
  match mutateLast f s with
  | Some s' => wf s' ∧ Chat.onLastAssistant f (contents s) = Some (contents s')
  | None => Chat.onLastAssistant f (contents s) = None
  end.
Proof.
  intros Hwf. destruct s as [refs h].
  destruct refs as [|r hist _] using rev_ind; [done|].
  destruct (contents_last hist r h Hwf) as (m & Hm & Hr & Hc).
  unfold mutateLast. cbn [array objects]. rewrite last_snoc. cbn [mbind option_bind].
  rewrite Hm. cbn [mbind option_bind]. rewrite Hc. case_bool_decide as Hrole.
  - split; [by apply (wf_snoc _ _ _ _ [r])|].
    by rewrite onLastAssistant_assistant, contents_snoc by done.
  - split; [done|]. by rewrite onLastAssistant_other, Hc by done.
Qed.

(** Replacing the last object by a new one is the list updater too. *)
Lemma replaceLast_refines f s :
  wf s →
  match replaceLast f s with
  | Some s' => wf s' ∧ Chat.onLastAssistant f (contents s) = Some (contents s')
  | None => Chat.onLastAssistant f (contents s) = None
  end.
Proof.
  intros Hwf. pose proof (fresh_not_in_array s Hwf) as Hfresh. destruct s as [refs h].
  destruct refs as [|r hist _] using rev_ind; [done|].
  destruct (contents_last hist r h Hwf) as (m & Hm & Hr & Hc).
  unfold replaceLast. cbn [array objects] in *. rewrite last_snoc. cbn [mbind option_bind].
  rewrite Hm. cbn [mbind option_bind]. rewrite Hc. case_bool_decide as Hrole.
  - rewrite insert_last.
    assert (fresh (dom h) ∉ hist) by (intros Hin; apply Hfresh, elem_of_app; by left).
    split; [by apply (wf_snoc _ _ _ _ [r])|].
    by rewrite onLastAssistant_assistant, contents_snoc by done.
  - split; [done|]. by rewrite onLastAssistant_other, Hc by done.
Qed.

End StoreFacts.

Section StoreChain.

Import Store.

Lemma setMessages_messages u st :
  Chat.messages (Chat.setMessages u st)
  = default (Chat.messages st) (u (Chat.messages st)).
Proof. unfold Chat.setMessages. by destruct (u (Chat.messages st)). Qed.

Lemma setMessages_renderError u st :
  Chat.renderError (Chat.setMessages u st)
  = if u (Chat.messages st) is Some _ then Chat.renderError st else true.
Proof. unfold Chat.setMessages. by destruct (u (Chat.messages st)). Qed.

(** The chain on the store and the chain on the list agree: the store stays
    well formed and denotes the list the component holds; the store-level
    chain fails exactly when an updater throws. *)
Lemma handleParsed_refines parsed s st :
  wf s →
  contents s = Chat.messages st →
  match handleParsed parsed s with
  | Some s' =>
      wf s'
      ∧ contents s' = Chat.messages (Chat.handleParsed parsed st)
      ∧ Chat.renderError (Chat.handleParsed parsed st) = Chat.renderError st
  | None => Chat.renderError (Chat.handleParsed parsed st) = true
  end.
Proof.
  intros Hwf Hc. unfold handleParsed, Chat.handleParsed.
  destruct (Wire.has_type "content" parsed || Wire.has_type "text-delta" parsed).
  { unfold Chat.appendContent. rewrite setMessages_messages, setMessages_renderError.
    rewrite <- Hc. match goal with |- context [mutateLast ?f s] =>
      pose proof (mutateLast_refines f s Hwf) as H; destruct (mutateLast f s) end.
    - destruct H as [? ->]. done.
    - by rewrite H. }
  destruct (Wire.has_type "sources" parsed).
  { unfold Chat.replaceSources. rewrite setMessages_messages, setMessages_renderError.
    rewrite <- Hc. match goal with |- context [replaceLast ?f s] =>
      pose proof (replaceLast_refines f s Hwf) as H; destruct (replaceLast f s) end.
    - destruct H as [? ->]. done.
    - by rewrite H. }
  destruct (Wire.has_type "thinking" parsed).
  { unfold Chat.appendThinking. rewrite setMessages_messages, setMessages_renderError.
    rewrite <- Hc. match goal with |- context [mutateLast ?f s] =>
      pose proof (mutateLast_refines f s Hwf) as H; destruct (mutateLast f s) end.
    - destruct H as [? ->]. done.
    - by rewrite H. }
  destruct (Wire.has_type "status" parsed); [|done].
  by repeat case_bool_decide.
Qed.

(** On a store whose last message is not an assistant message, or that is
    empty of assistant work, the chain returns the store it was given. *)
Lemma handleParsed_not_assistant parsed s m :
  wf s →
  last (contents s) = Some m →
  Message.role m ≠ assistant →
  handleParsed parsed s = Some s.
Proof.
  intros Hwf Hlast Hrole. destruct s as [refs h].
  destruct refs as [|r hist _] using rev_ind; [done|].
  destruct (contents_last hist r h Hwf) as (m' & Hm & Hr & Hc).
  rewrite Hc, last_snoc in Hlast. simplify_eq.
  unfold handleParsed, mutateLast, replaceLast. cbn [array objects].
  rewrite last_snoc. cbn [mbind option_bind]. rewrite Hm. cbn [mbind option_bind].
  rewrite bool_decide_eq_false_2 by done.
  by repeat match goal with |- context [if ?b then _ else _] => destruct b end.
Qed.

End StoreChain.

(** ** C10: the frame of the chain on the store *)

Section StoreFrame.

Import Store.

Lemma mutateLast_reshaped f s s' :
  wf s → mutateLast f s = Some s' → reshaped f s s'.
Proof.
  intros [Hnd _]. unfold mutateLast.
  destruct (last (array s)) as [r|] eqn:El; [|done]. cbn [mbind option_bind].
  destruct (objects s !! r) as [m|] eqn:Em; [|done]. cbn [mbind option_bind].
  case_bool_decide as Hrole; intros [= <-]; [|by left].
  apply last_Some in El as [hist El]. right. exists hist, r, r, m.
  rewrite El in Hnd |- *. apply NoDup_app in Hnd as (_ & Hdisj & _).
  repeat split; try done. intros Hin. apply (Hdisj r Hin). by left.
Qed.

Lemma replaceLast_reshaped f s s' :
  wf s → replaceLast f s = Some s' → reshaped f s s'.
Proof.
  intros Hwf. pose proof (fresh_not_in_array s Hwf) as Hfresh. unfold replaceLast.
  destruct (last (array s)) as [r|] eqn:El; [|done]. cbn [mbind option_bind].
  destruct (objects s !! r) as [m|] eqn:Em; [|done]. cbn [mbind option_bind].
  case_bool_decide as Hrole; intros [= <-]; [|by left].
  apply last_Some in El as [hist El]. right. exists hist, r, (fresh (dom (objects s))), m.
  rewrite El in Hfresh |- *. rewrite insert_last.
  repeat split; try done. intros Hin. apply Hfresh, elem_of_app. by left.
Qed.

Lemma reshaped_frame f s s' :
  (∀ m, Message.id (f m) = Message.id m
        ∧ Message.role (f m) = Message.role m
        ∧ Message.timestamp (f m) = Message.timestamp m) →
  wf s → reshaped f s s' →
  wf s'
  ∧ length (array s') = length (array s)
  ∧ take (pred (length (array s))) (array s') = take (pred (length (array s))) (array s)
  ∧ Forall (λ r, objects s' !! r = objects s !! r) (take (pred (length (array s))) (array s))
  ∧ Progress.framed (contents s) (contents s')
  ∧ match last (contents s) with
    | Some m => Message.role m = assistant ∨ s' = s
    | None => s' = s
    end.
Proof.
  intros Hf Hwf [->|(hist & r & r' & m & Ea & Em & Hrole & Hr' & ->)].
  - split; [done|]. split; [done|]. split; [done|].
    split; [by apply Forall_forall|]. split; [apply framed_refl|].
    destruct (last (contents s)); [by right|done].
  - destruct s as [refs h]. cbn [array objects] in *. subst refs.
    destruct (contents_last hist r h Hwf) as (m0 & Hm0 & Hr & Hc).
    assert (m0 = m) as -> by congruence.
    assert (pred (length (hist ++ [r])) = length hist) as ->
      by (rewrite length_app; cbn [length]; lia).
    rewrite !take_app_length, Hc, contents_snoc, last_snoc by done.
    split; [by apply (wf_snoc _ _ _ _ [r])|].
    split; [by rewrite !length_app|]. split; [done|]. split.
    + apply Forall_forall. intros x Hx. rewrite lookup_insert_ne; [done|].
      by intros ->.
    + split; [|by left]. unfold Progress.framed.
      rewrite last_snoc, bool_decide_eq_true_2 by done.
      assert (pred (length (omap (λ x, h !! x) hist ++ [m]))
              = length (omap (λ x, h !! x) hist)) as ->
        by (rewrite length_app; cbn [length]; lia).
      rewrite !take_app_length, !length_app. split; [done|]. split; [done|].
      exists (f m). by rewrite last_snoc.
Qed.

Lemma handleParsed_reshaped parsed s s' :
  wf s → handleParsed parsed s = Some s' →
  ∃ f, reshaped f s s'
       ∧ ∀ m, Message.id (f m) = Message.id m
              ∧ Message.role (f m) = Message.role m
              ∧ Message.timestamp (f m) = Message.timestamp m.
Proof.
  intros Hwf. unfold handleParsed.
  repeat match goal with
  | |- context [if ?b then _ else _] => destruct b
  end; intros H;
  first [ apply mutateLast_reshaped in H; [|done]
        | apply replaceLast_reshaped in H; [|done]
        | injection H as <-; exists (λ m, m); split; [by left|done] ];
  eexists; (split; [exact H|done]).
Qed.

Lemma updater_throws f s :
  wf s → mutateLast f s = None ∨ replaceLast f s = None → array s = [].
Proof.
  intros [_ Hall]. unfold mutateLast, replaceLast.
  destruct (last (array s)) as [r|] eqn:El; [|intros _; by apply last_None].
  cbn [mbind option_bind]. apply last_Some_elem_of in El.
  rewrite Forall_forall in Hall. destruct (Hall r El) as [m ->].
  cbn [mbind option_bind]. case_bool_decide; by intros [|].
Qed.

Lemma handleParsed_throws parsed s :
  wf s → handleParsed parsed s = None → array s = [].
Proof.
  intros Hwf. unfold handleParsed.
  repeat match goal with
  | |- context [if ?b then _ else _] => destruct b
  end; intros H; try done; eapply (updater_throws _ s Hwf); first [by left|by right].
Qed.

End StoreFrame.

(** C10. On the array of message objects, whatever object the chain is
    handed: the array keeps its length and its references before the last,
    and the objects they point to are not touched, so every earlier message
    is unchanged; the last message changes only if its role is assistant, and
    keeps its [id], [role] and [timestamp]; if the last message is not an
    assistant message, the store is left exactly as it was. An updater
    throws only on an empty array, where there is no message to mutate. *)
Theorem event_application_frame (parsed : Wire.t) (s : Store.t) :
  Store.wf s →
  match Store.handleParsed parsed s with
  | Some s' =>
      Store.wf s'
      ∧ length (Store.array s') = length (Store.array s)
      ∧ take (pred (length (Store.array s))) (Store.array s')
        = take (pred (length (Store.array s))) (Store.array s)
      ∧ Forall (λ r, Store.objects s' !! r = Store.objects s !! r)
          (take (pred (length (Store.array s))) (Store.array s))
      ∧ take (pred (length (Store.contents s))) (Store.contents s')
        = take (pred (length (Store.contents s))) (Store.contents s)
      ∧ match last (Store.contents s) with
        | Some m =>
            if bool_decide (Message.role m = assistant)
            then ∃ m', last (Store.contents s') = Some m'
                       ∧ Message.id m' = Message.id m
                       ∧ Message.role m' = Message.role m
                       ∧ Message.timestamp m' = Message.timestamp m
            else s' = s
        | None => s' = s
        end
  | None => Store.array s = []
  end.
Proof.
  intros Hwf. destruct (Store.handleParsed parsed s) as [s'|] eqn:Hs';
    [|by apply (handleParsed_throws parsed)].
  destruct (handleParsed_reshaped parsed s s' Hwf Hs') as (f & Hshape & Hf).
  destruct (reshaped_frame f s s' Hf Hwf Hshape)
    as (Hwf' & Hlen & Htake & Hobj & (_ & Hct & Hlast) & Hsame).
  do 5 (split; [done|]).
  destruct (last (Store.contents s)) as [m|]; [|done].
  case_bool_decide as Hrole; [done|]. by destruct Hsame.
Qed.

(** A store of a user message and an assistant message in place, handed a
    text delta: the object of the assistant message is mutated in place. *)
Lemma event_application_frame_witness :
  let question := Message.mk "1" user "capital of France?" None None 0 in
  let answer := Message.mk "2" assistant "Par" (Some EmptyString) None 0 in
  let s := Store.ofList [question; answer] in
  let parsed := Wire.mk (Some "text-delta") None (Some "s1") None None (Some "is") None in
  Store.wf s
  ∧ Store.handleParsed parsed s
    = Some (Store.mk (Store.array s)
              (<[1%nat := Message.with_content "Paris" answer]> (Store.objects s)))
  ∧ match Store.handleParsed parsed s with
    | Some s' =>
        Store.wf s'
        ∧ length (Store.array s') = length (Store.array s)
        ∧ take (pred (length (Store.array s))) (Store.array s')
          = take (pred (length (Store.array s))) (Store.array s)
        ∧ Forall (λ r, Store.objects s' !! r = Store.objects s !! r)
            (take (pred (length (Store.array s))) (Store.array s))
        ∧ take (pred (length (Store.contents s))) (Store.contents s')
          = take (pred (length (Store.contents s))) (Store.contents s)
        ∧ match last (Store.contents s) with
          | Some m =>
              if bool_decide (Message.role m = assistant)
              then ∃ m', last (Store.contents s') = Some m'
                         ∧ Message.id m' = Message.id m
                         ∧ Message.role m' = Message.role m
                         ∧ Message.timestamp m' = Message.timestamp m
              else s' = s
          | None => s' = s
          end
    | None => Store.array s = []
    end.
Proof.
  intros question answer s parsed.
  assert (H1 : Store.wf s) by apply ofList_refines.
  split; [exact H1|]. split; [vm_compute; reflexivity|].
  exact (event_application_frame parsed s H1).
Defined.

(** Why the store must hold no object twice: were the same assistant object
    in two places of the array, the in-place mutation of the last message
    would change the earlier one as well. *)
Example aliased_object_changes_in_both_places :
  let answer := Message.mk "2" assistant "A" (Some EmptyString) None 0 in
  let s := Store.mk [O; O] {[O := answer]} in
  let parsed := Wire.mk (Some "text-delta") None (Some "s1") None None (Some "X") None in
  (Store.contents <$> Store.handleParsed parsed s)
  = Some [Message.with_content "AX" answer; Message.with_content "AX" answer].
Proof. vm_compute. reflexivity. Qed.

(** * Further properties *)

(** ** The relay route *)

Section RelayExtras.

Variable JSON_parse : string → option Wire.t.
Variable ids : Relay.Ids.

Local Abbreviation forwardedShape := (Outbound.shape ids).

Lemma forward_shape data : Forall forwardedShape (Relay.forward ids data).
Proof.
  unfold Relay.forward.
  repeat match goal with
  | |- context [if ?b then _ else _] => destruct b
  end;
  first [ apply Forall_nil_2
        | apply Forall_singleton; split; [discriminate|]; split; [reflexivity|];
          cbn; auto ].
Qed.

Lemma forLine_shape line : Forall forwardedShape (Relay.forLine JSON_parse ids line).
Proof.
  unfold Relay.forLine. destruct (Text.startsWith "data: " line); [|constructor].
  destruct (JSON_parse (Text.slice 6 line)); [apply forward_shape|constructor].
Qed.

Lemma pump_shape chunks buffer :
  Forall forwardedShape (Relay.pump JSON_parse ids buffer chunks).
Proof.
  revert buffer. induction chunks as [|chunk chunks IH]; intros buffer; [constructor|].
  cbn [Relay.pump]. apply Forall_app. split; [|apply IH].
  induction (Reassembly.lines_of buffer chunk) as [|l ls IHl]; [constructor|].
  cbn [flat_map]. apply Forall_app. split; [apply forLine_shape|apply IHl].
Qed.

End RelayExtras.

(** X1. The frames the relay writes for an upstream body do not depend on
    how the body is cut into chunks: the loop has no early exit, so this
    holds for every upstream text, well formed or not. *)
Theorem relay_output_independent_of_chunking
    (JSON_parse : string → option Wire.t) (ids : Relay.Ids)
    (chunks : list string) (e : Relay.ReadEnd) :
  Relay.start JSON_parse ids (Some (chunks, e))
  = Relay.start JSON_parse ids (Some ([Text.concat chunks], e)).
Proof.
  unfold Relay.start. by rewrite !pump_concat, concat_singleton.
Qed.



(** ** From the backend to the reader *)

Section BridgeFacts.

Import Chat Progress Exchange Frames ChatLines.

(** The chain on a last message of role assistant, for any parsed object. *)
Lemma handleParsed_stateWith parsed hist m st :
  Message.role m = assistant →
  ∃ st', handleParsed parsed (stateWith hist m st)
         = stateWith hist (Outbound.effect parsed m) st'
         ∧ renderError st' = renderError st
         ∧ isLoading st' = isLoading st
         ∧ abortControllerRef st' = abortControllerRef st.
Proof.
  intros Hm. unfold handleParsed, Outbound.effect.
  destruct (Wire.has_type "content" parsed || Wire.has_type "text-delta" parsed).
  { unfold appendContent. rewrite setMessages_stateWith_assistant by done. by exists st. }
  destruct (Wire.has_type "sources" parsed).
  { unfold replaceSources. rewrite setMessages_stateWith_assistant by done. by exists st. }
  destruct (Wire.has_type "thinking" parsed).
  { unfold appendThinking. rewrite setMessages_stateWith_assistant by done. by exists st. }
  destruct (Wire.has_type "status" parsed); [|by exists st].
  repeat case_bool_decide;
    [by exists (setCurrentStatus (Some WorkflowStatus.searching) st)
    |by exists (setCurrentStatus (Some WorkflowStatus.summarizing) st)
    |by exists st].
Qed.

(** The objects of the start, text-start and text-end frames change
    nothing. *)
Lemma effect_envelope ty mid i st c d src m :
  ty ∈ ["start"; "text-start"; "text-end"] →
  Outbound.effect (Wire.mk (Some ty) mid i st c d src) m = m.
Proof.
  intros Hty. unfold Outbound.effect.
  repeat (apply elem_of_cons in Hty as [->|Hty]; [by eval_has_type|]).
  by apply elem_of_nil in Hty.
Qed.

Lemma effect_keeps_role parsed m :
  Message.role (Outbound.effect parsed m) = Message.role m.
Proof.
  unfold Outbound.effect.
  by repeat match goal with |- context [if ?b then _ else _] => destruct b end.
Qed.

Lemma foldl_handleParsed_stateWith objs hist m st :
  Message.role m = assistant →
  ∃ st', foldl (λ acc parsed, handleParsed parsed acc) (stateWith hist m st) objs
         = stateWith hist (foldl (λ acc parsed, Outbound.effect parsed acc) m objs) st'
         ∧ renderError st' = renderError st
         ∧ isLoading st' = isLoading st
         ∧ abortControllerRef st' = abortControllerRef st.
Proof.
  revert m st. induction objs as [|obj objs IH]; intros m st Hm; [by exists st|].
  cbn [foldl].
  destruct (handleParsed_stateWith obj hist m st Hm) as (st1 & -> & E1 & E2 & E3).
  destruct (IH (Outbound.effect obj m) st1) as (st2 & -> & ? & ? & ?);
    [by rewrite effect_keeps_role|].
  exists st2. repeat split; congruence.
Qed.

Variable JSON_parse : string → option Wire.t.

(** The component after the opening of an exchange and the reads of any
    cutting of a valid frame sequence, in terms of the decoded objects. *)
Lemma exchange_streamed_objects ps partial chunks saved messageText clock :
  Text.trim messageText ≠ EmptyString →
  valid ps →
  Text.has_LF partial = false →
  splits chunks (text ps +:+ partial) →
  ∃ st',
    run JSON_parse (mount saved) (opening messageText clock ++ reads chunks)
    = reading (history saved messageText clock)
        (foldl (λ acc parsed, Outbound.effect parsed acc) (assistantMessage clock)
           (decodedPayloads JSON_parse ps))
        st' partial [request saved messageText clock]
    ∧ isLoading st' = true
    ∧ abortControllerRef st' = Some O
    ∧ renderError st' = false.
Proof.
  intros Ht Hv Hp Hs.
  rewrite run_app, run_opening by done. unfold reads.
  rewrite (run_reads _ _ _ O EmptyString) by done.
  cbn [ui requests outcomes nextController].
  rewrite (onChunks_frames JSON_parse handleParsed ps partial) by done.
  cbn [fst snd].
  destruct (foldl_handleParsed_stateWith (decodedPayloads JSON_parse ps)
              (history saved messageText clock) (assistantMessage clock)
              (mkState [] EmptyString true (Some WorkflowStatus.thinking) (Some O) false)
              eq_refl) as (st' & -> & E1 & E2 & E3).
  by exists st'.
Qed.

End BridgeFacts.

Section RelayToChat.

Import Frames ChatLines.

Variable JSON_stringify : Wire.t → string.
Variable JSON_parse : string → option Wire.t.
Variable ids : Relay.Ids.

Lemma objects_app fs gs :
  Forall (λ f, f ≠ Relay.FrameDone) fs →
  Outbound.objects (fs ++ gs) = Outbound.objects fs ++ Outbound.objects gs.
Proof.
  induction 1 as [|f fs Hf _ IH]; [done|].
  destruct f as [obj|]; [|done]. cbn [app Outbound.objects]. by rewrite IH.
Qed.

Lemma decodedPayloads_agree frames :
  Forall (Outbound.agree JSON_stringify JSON_parse) frames →
  decodedPayloads JSON_parse (Relay.payload JSON_stringify <$> frames)
  = Outbound.objects frames.
Proof.
  unfold decodedPayloads.
  induction 1 as [|f frames Hf _ IH]; [done|].
  destruct f as [obj|]; [|done]. destruct Hf as (_ & Hd & Hp).
  cbn [fmap list_fmap Relay.payload beforeDone Outbound.objects]. rewrite Hd.
  cbn [omap list_omap]. by rewrite Hp, IH.
Qed.

Lemma valid_agree frames :
  Forall (Outbound.agree JSON_stringify JSON_parse) frames →
  Forall (λ f, f ≠ Relay.FrameDone) (removelast frames) →
  valid (Relay.payload JSON_stringify <$> frames).
Proof.
  intros Hagree Hdone. split.
  - apply Forall_fmap. eapply Forall_impl; [exact Hagree|].
    intros [obj|]; cbn; [by intros (? & _)|done].
  - destruct frames as [|f frames _] using rev_ind; [constructor|].
    rewrite fmap_app. cbn [fmap list_fmap]. rewrite removelast_last in *.
    apply Forall_app in Hagree as [Hagree _]. apply Forall_fmap.
    rewrite Forall_forall in Hagree, Hdone |- *. intros g Hg.
    specialize (Hagree g Hg). specialize (Hdone g Hg).
    destruct g as [obj|]; [|done]. cbn. by destruct Hagree as (_ & ? & _).
Qed.

Lemma has_type_exclusive a b u :
  a ≠ b → Wire.has_type a u = true → Wire.has_type b u = false.
Proof.
  unfold Wire.has_type. intros Hab Ha%bool_decide_eq_true.
  apply bool_decide_eq_false. rewrite Ha. by intros [= ?].
Qed.

(** What the chat chain does with the frames the relay writes for one
    upstream object. *)
Lemma forward_effect u m :
  let m' := foldl (λ acc parsed, Outbound.effect parsed acc) m
              (Outbound.objects (Relay.forward ids u)) in
  Message.content m'
  = Message.content m
    +:+ (if Wire.has_type "content" u then or_empty (Wire.content u) else EmptyString)
  ∧ or_empty (Message.thinking m')
    = or_empty (Message.thinking m)
      +:+ (if Wire.has_type "thinking" u then or_empty (Wire.content u) else EmptyString)
  ∧ (is_Some (Message.thinking m) → is_Some (Message.thinking m'))
  ∧ Message.role m' = Message.role m.
Proof.
  cbv zeta. unfold Relay.forward.
  destruct (Wire.has_type "status" u) eqn:Hs.
  { rewrite (has_type_exclusive "status" "content" u),
      (has_type_exclusive "status" "thinking" u) by done.
    cbn [Outbound.objects foldl]. unfold Outbound.effect. eval_has_type. cbn [orb].
    by rewrite !append_nil_r. }
  destruct (Wire.has_type "thinking" u) eqn:Ht.
  { rewrite (has_type_exclusive "thinking" "content" u) by done.
    cbn [Outbound.objects foldl]. unfold Outbound.effect. eval_has_type. cbn [orb].
    cbn. by rewrite append_nil_r. }
  destruct (Wire.has_type "content" u) eqn:Hc.
  { cbn [Outbound.objects foldl]. unfold Outbound.effect. eval_has_type. cbn [orb].
    cbn. by rewrite append_nil_r. }
  destruct (Wire.has_type "sources" u) eqn:Hsrc.
  { cbn [Outbound.objects foldl]. unfold Outbound.effect. eval_has_type. cbn [orb].
    cbn. by rewrite !append_nil_r. }
  cbn [Outbound.objects foldl]. by rewrite !append_nil_r.
Qed.

Lemma forwarded_effect us m :
  let m' := foldl (λ acc parsed, Outbound.effect parsed acc) m
              (Outbound.objects (flat_map (Relay.forward ids) us)) in
  Message.content m' = Message.content m +:+ Outbound.answer us
  ∧ or_empty (Message.thinking m')
    = or_empty (Message.thinking m) +:+ Outbound.reasoning us
  ∧ (is_Some (Message.thinking m) → is_Some (Message.thinking m'))
  ∧ Message.role m' = Message.role m.
Proof.
  cbv zeta. revert m. induction us as [|u us IH]; intros m.
  - cbn. by rewrite !append_nil_r.
  - cbn [flat_map]. rewrite objects_app, foldl_app.
    2:{ eapply Forall_impl; [apply (forward_shape ids)|]. by intros f [? _]. }
    destruct (forward_effect u m) as (Ec & Et & Es & Er).
    destruct (IH (foldl (λ acc parsed, Outbound.effect parsed acc) m
                    (Outbound.objects (Relay.forward ids u)))) as (Ec' & Et' & Es' & Er').
    rewrite Ec', Et', Er', Ec, Et, Er, !append_assoc.
    unfold Outbound.answer, Outbound.reasoning. cbn [omap list_omap].
    split; [|split; [|split; [tauto|done]]].
    + destruct (Wire.has_type "content" u); [done|]. by change (EmptyString +:+ ?s) with s.
    + destruct (Wire.has_type "thinking" u); [done|]. by change (EmptyString +:+ ?s) with s.
Qed.

End RelayToChat.

(** X4. From the backend to the reader. Let the backend stream any frames
    to the relay, in any chunks, and end normally; let the text the relay
    writes reach the chat loop in any chunks, and let the two platform
    functions agree on the frames written. Then the exchange completes, and
    the assistant message holds as [content] the concatenation of the
    [content] of the backend's objects of type [content], and as [thinking]
    that of its objects of type [thinking], in the order the backend sent
    them. *)
Theorem backend_answer_reaches_the_reader
    (JSON_stringify : Wire.t → string)
    (JSON_parse_relay JSON_parse_chat : string → option Wire.t)
    (ids : Relay.Ids) (upstream upstreamChunks chunks : list string)
    (saved : option (list Message.t)) (messageText : string) (clock : Chat.Clock) :
  Text.trim messageText ≠ EmptyString →
  Forall (λ p, Text.has_LF p = false) upstream →
  Frames.splits upstreamChunks (Frames.text upstream) →
  Forall (Outbound.agree JSON_stringify JSON_parse_chat)
    (Relay.start JSON_parse_relay ids (Some (upstreamChunks, Relay.EndOfStream))) →
  Frames.splits chunks
    (Relay.written JSON_stringify
       (Relay.start JSON_parse_relay ids (Some (upstreamChunks, Relay.EndOfStream)))) →
  let cfg :=
    Chat.run JSON_parse_chat (Chat.mount saved)
      (Exchange.opening messageText clock ++ Exchange.reads chunks
         ++ [Chat.ReadDone O]) in
  ∃ m,
    Chat.messages (Chat.ui cfg) = Exchange.history saved messageText clock ++ [m]
    ∧ Message.content m = Outbound.answer (omap JSON_parse_relay upstream)
    ∧ Message.thinking m = Some (Outbound.reasoning (omap JSON_parse_relay upstream))
    ∧ Chat.outcomes cfg = [(O, Chat.Completed)]
    ∧ Chat.isLoading (Chat.ui cfg) = false
    ∧ Chat.renderError (Chat.ui cfg) = false.
Proof.
  intros Ht Hup Hups Hagree Hs. cbv zeta.
  unfold Relay.start in Hagree, Hs.
  rewrite (pump_frames JSON_parse_relay ids upstream EmptyString) in Hagree, Hs
    by (done || by rewrite append_nil_r).
  set (us := omap JSON_parse_relay upstream) in *.
  set (forwarded := flat_map (Relay.forward ids) us) in *.
  assert (Hfwd : Forall (λ f, f ≠ Relay.FrameDone) forwarded).
  { unfold forwarded. clear. induction us as [|u us IH]; [constructor|].
    cbn [flat_map]. apply Forall_app. split; [|done].
    eapply Forall_impl; [apply (forward_shape ids)|]. by intros f [? _]. }
  set (frames := [Relay.startFrame ids; Relay.textStartFrame ids] ++ forwarded
                 ++ [Relay.textEndFrame ids; Relay.FrameDone]) in *.
  assert (Hlast : removelast frames
                  = [Relay.startFrame ids; Relay.textStartFrame ids] ++ forwarded
                    ++ [Relay.textEndFrame ids]).
  { unfold frames.
    change (forwarded ++ [Relay.textEndFrame ids; Relay.FrameDone])
      with (forwarded ++ [Relay.textEndFrame ids] ++ [Relay.FrameDone]).
    by rewrite !app_assoc, removelast_last. }
  assert (Hv : Frames.valid (Relay.payload JSON_stringify <$> frames)).
  { apply (valid_agree JSON_stringify JSON_parse_chat); [done|]. rewrite Hlast.
    apply Forall_app. split; [by repeat constructor|].
    apply Forall_app. split; [done|by repeat constructor]. }
  rewrite written_text in Hs.
  destruct (exchange_streamed_objects JSON_parse_chat _ EmptyString chunks saved
              messageText clock Ht Hv eq_refl) as (st' & Erun & El & Eref & Eerr);
    [by rewrite append_nil_r|].
  rewrite app_assoc, run_app, Erun. cbn [Chat.run foldl].
  rewrite (step_settles JSON_parse_chat _ _ _ _ _ (Chat.ReadDone O) Chat.Completed)
    by by left.
  cbn [Chat.ui Chat.outcomes Chat.catch].
  rewrite (decodedPayloads_agree JSON_stringify JSON_parse_chat) by done.
  unfold frames. cbn [app Outbound.objects Relay.startFrame Relay.textStartFrame].
  rewrite objects_app by done. cbn [Outbound.objects Relay.textEndFrame foldl].
  rewrite foldl_app. cbn [foldl].
  rewrite !effect_envelope by set_solver.
  eexists. split; [reflexivity|].
  destruct (forwarded_effect JSON_stringify JSON_parse_chat ids us
              (Chat.assistantMessage clock)) as (Ec & Et & Esome & _).
  fold forwarded in Ec, Et, Esome.
  split; [by rewrite Ec|]. split; [|by cbn].
  destruct Esome as [th Eth]; [by eexists|].
  rewrite Eth in Et |- *. cbn in Et. by rewrite Et.
Qed.

(** A backend that sends a status, a thought, two pieces of the answer, an
    undecodable line and the sources; both streams are cut in mid-frame. *)
Lemma backend_answer_reaches_the_reader_witness :
  let upstream :=
    [Json.stringify (Wire.mk (Some "status") None None (Some "searching") None None None);
     Json.stringify (Wire.mk (Some "thinking") None None None (Some "Let me see") None None);
     Json.stringify (Wire.mk (Some "content") None None None (Some "Par") None None);
     "{oops";
     Json.stringify (Wire.mk (Some "content") None None None (Some "is") None None);
     Json.stringify (Wire.mk (Some "sources") None None None None None
                       (Some [Source.mk 1 "Paris" "https://en.wikipedia.org/wiki/Paris"]))] in
  let ids := Relay.mkIds "x1" "m1" "s1" in
  let upstreamChunks :=
    [String.substring 0 70 (Frames.text upstream); Text.slice 70 (Frames.text upstream)] in
  let frames := Relay.start Json.decode ids (Some (upstreamChunks, Relay.EndOfStream)) in
  let written := Relay.written Json.stringify frames in
  let chunks :=
    [String.substring 0 100 written; String.substring 100 100 written;
     Text.slice 200 written] in
  let clock := Chat.mkClock 1000 1000 1000 1000 in
  let cfg :=
    Chat.run Json.decode (Chat.mount None)
      (Exchange.opening "capital of France?" clock ++ Exchange.reads chunks
         ++ [Chat.ReadDone O]) in
  Text.trim "capital of France?" ≠ EmptyString
  ∧ Forall (λ p, Text.has_LF p = false) upstream
  ∧ Frames.splits upstreamChunks (Frames.text upstream)
  ∧ Forall (Outbound.agree Json.stringify Json.decode) frames
  ∧ Frames.splits chunks written
  ∧ ∃ m,
      Chat.messages (Chat.ui cfg)
      = Exchange.history None "capital of France?" clock ++ [m]
      ∧ Message.content m = "Paris"
      ∧ Message.thinking m = Some "Let me see"
      ∧ Chat.outcomes cfg = [(O, Chat.Completed)]
      ∧ Chat.isLoading (Chat.ui cfg) = false
      ∧ Chat.renderError (Chat.ui cfg) = false.
Proof.
  intros upstream ids upstreamChunks frames written chunks clock cfg.
  assert (H1 : Text.trim "capital of France?" ≠ EmptyString) by discriminate.
  assert (H2 : Forall (λ p, Text.has_LF p = false) upstream) by (repeat constructor).
  assert (H3 : Frames.splits upstreamChunks (Frames.text upstream))
    by (vm_compute; reflexivity).
  assert (H4 : Forall (Outbound.agree Json.stringify Json.decode) frames)
    by (vm_compute; repeat constructor).
  assert (H5 : Frames.splits chunks written) by (vm_compute; reflexivity).
  do 5 (split; [assumption|]).
  exact (backend_answer_reaches_the_reader Json.stringify Json.decode Json.decode ids
           upstream upstreamChunks chunks None "capital of France?" clock
           H1 H2 H3 H4 H5).
Defined.

(** ** Submission, cancellation and accounting *)

Section BlankFacts.

Import Text Blank.

Lemma trimStart_blank s : trimStart s = EmptyString ↔ isBlank s = true.
Proof.
  induction s as [|c s IH]; [done|]. cbn [trimStart isBlank].
  destruct (Ascii.is_space c); [by rewrite IH|]. split; discriminate.
Qed.

Lemma trimStart_is_trimmed s :
  isBlank (trimStart s) = true → trimStart s = EmptyString.
Proof.
  induction s as [|c s IH]; [done|]. cbn [trimStart].
  destruct (Ascii.is_space c) eqn:Hc; [done|]. cbn [isBlank]. by rewrite Hc.
Qed.

Lemma rev_app_blank s1 s2 :
  isBlank (String.rev_app s1 s2) = isBlank s1 && isBlank s2.
Proof.
  revert s2. induction s1 as [|c s1 IH]; intros s2; [done|].
  cbn [String.rev_app isBlank]. rewrite IH. cbn [isBlank].
  by destruct (Ascii.is_space c), (isBlank s1), (isBlank s2).
Qed.

Lemma rev_blank s : isBlank (String.rev s) = isBlank s.
Proof. unfold String.rev. rewrite rev_app_blank. cbn. by rewrite andb_true_r. Qed.

Lemma rev_app_empty s1 s2 :
  String.rev_app s1 s2 = EmptyString → s1 = EmptyString ∧ s2 = EmptyString.
Proof.
  revert s2. induction s1 as [|c s1 IH]; intros s2; [done|].
  cbn [String.rev_app]. by intros [_ [=]]%IH.
Qed.

(** [s.trim()] is empty exactly when [s] is white space only. *)
Lemma trim_blank s : trim s = EmptyString ↔ isBlank s = true.
Proof.
  unfold trim. split.
  - intros [H _]%rev_app_empty. apply trimStart_blank in H.
    rewrite rev_blank in H. by apply trimStart_blank, trimStart_is_trimmed.
  - intros H%trimStart_blank. by rewrite H.
Qed.

End BlankFacts.


Section AccountingFacts.

Import Chat Invariant.

Variable JSON_parse : string → option Wire.t.

Lemma step_accounted cfg i :
  Invariant.holds cfg → Accounting.holds cfg →
  Accounting.holds (step JSON_parse cfg i).
Proof.
  intros Hinv (Hnext & Hsig & Hperm).
  assert (Hsettle : ∀ c o ph, running cfg = [mkInvocation c ph] →
                      Accounting.holds (settle c o cfg)).
  { intros c o ph Hr. unfold Accounting.holds, Accounting.controllers, settle in *.
    cbn [nextController requests outcomes running]. rewrite Hr in Hperm |- *.
    rewrite dropInvocation_single. split; [done|]. split; [done|].
    rewrite fmap_app, app_nil_r. cbn in Hperm |- *. done. }
  assert (Hphase : ∀ st c ph ph', running cfg = [mkInvocation c ph] →
            Accounting.holds (mkConfig st (setPhase c ph' (running cfg))
                                (requests cfg) (outcomes cfg) (nextController cfg))).
  { intros st c ph ph' Hr. unfold Accounting.holds, Accounting.controllers in *.
    cbn [nextController requests outcomes running]. rewrite Hr in Hperm |- *.
    by rewrite setPhase_single. }
  destruct Hinv as [[Hr Hl]|(c0 & ph & Hr & Hl & Hc)].
  - destruct i; cbn [step]; unfold stopGeneration; rewrite ?Hr;
      cbn [lookupInvocation find]; try done.
    + unfold sendMessage. rewrite Hl, orb_false_r. case_bool_decide; [done|].
      clear Hsettle Hphase. unfold Accounting.holds, Accounting.controllers in *.
      cbn [nextController requests outcomes running]. rewrite Hr in Hperm |- *.
      rewrite length_app, !fmap_app, Hsig, app_nil_r in *.
      cbn [length fmap list_fmap signal controller].
      rewrite Nat.add_1_r, !seq_S, <- Hnext. cbn [Nat.add].
      split; [done|]. split; [done|]. by rewrite Hperm.
    + by destruct (abortControllerRef (ui cfg)).
  - destruct i; cbn [step].
    + by rewrite sendMessage_blocked.
    + unfold stopGeneration. rewrite Hc, Hr, lookupInvocation_single.
      rewrite bool_decide_eq_true_2 by done. by eapply Hsettle.
    + rewrite Hr, lookupInvocation_single. case_bool_decide as Ec; [subst c|done].
      destruct ph; [|done]. try rewrite <- Hr.
      destruct (ok && hasBody); [by eapply Hphase|by eapply Hsettle].
    + rewrite Hr, lookupInvocation_single. case_bool_decide as Ec; [subst c|done].
      destruct ph; [|done]. try rewrite <- Hr. by eapply Hsettle.
    + rewrite Hr, lookupInvocation_single. case_bool_decide as Ec; [subst c|done].
      destruct ph; [done|]. try rewrite <- Hr. cbn [onChunk]. by eapply Hphase.
    + rewrite Hr, lookupInvocation_single. case_bool_decide as Ec; [subst c|done].
      destruct ph; [done|]. try rewrite <- Hr. by eapply Hsettle.
    + rewrite Hr, lookupInvocation_single. case_bool_decide as Ec; [subst c|done].
      destruct ph; [done|]. try rewrite <- Hr. by eapply Hsettle.
Qed.

Lemma run_accounted cfg inputs :
  Invariant.holds cfg → Accounting.holds cfg →
  Accounting.holds (run JSON_parse cfg inputs).
Proof.
  revert cfg. induction inputs as [|i inputs IH]; intros cfg H1 H2; [done|].
  cbn [run foldl]. apply IH; [by apply step_holds|by apply step_accounted].
Qed.

End AccountingFacts.



(** X8. The text left in the buffer when the stream ends is never decoded:
    a last frame whose line feed did not arrive is lost, even if its payload
    is complete and decodable, and the exchange still completes. Had the
    line feeds arrived, its event would have been applied. *)
Theorem unterminated_last_frame_is_lost
    (JSON_parse : string → option Wire.t)
    (frames : list (string * option Event.t)) (p : string) (e : Event.t)
    (chunks chunks' : list string)
    (saved : option (list Message.t)) (messageText : string) (clock : Chat.Clock) :
  Text.trim messageText ≠ EmptyString →
  Forall (ChatLines.means JSON_parse) frames →
  ChatLines.means JSON_parse (p, Some e) →
  Frames.splits chunks (Frames.text frames.*1 +:+ Frames.dataLine p) →
  Frames.splits chunks' (Frames.text (frames.*1 ++ [p])) →
  let ended (cs : list string) :=
    Chat.run JSON_parse (Chat.mount saved)
      (Exchange.opening messageText clock ++ Exchange.reads cs ++ [Chat.ReadDone O]) in
  Chat.messages (Chat.ui (ended chunks))
  = Exchange.history saved messageText clock
      ++ [Progress.effects (ChatLines.carried frames) (Chat.assistantMessage clock)]
  ∧ Chat.outcomes (ended chunks) = [(O, Chat.Completed)]
  ∧ Chat.messages (Chat.ui (ended chunks'))
    = Exchange.history saved messageText clock
        ++ [Progress.effects (ChatLines.carried frames ++ [e])
              (Chat.assistantMessage clock)].
Proof.
  intros Ht Hfs Hp Hs Hs'. cbv zeta.
  destruct (exchange_ended JSON_parse frames [] (Frames.dataLine p) chunks saved
              messageText clock (Chat.ReadDone O) Chat.Completed)
    as (st1 & _ & -> & _); try done;
    [by left|by apply dataLine_noLF; apply Hp|by rewrite app_nil_r|by left|].
  destruct (exchange_ended JSON_parse (frames ++ [(p, Some e)]) [] EmptyString chunks'
              saved messageText clock (Chat.ReadDone O) Chat.Completed)
    as (st2 & _ & -> & _); try done;
    [by apply Forall_app; split; [|constructor]|by left
    |by rewrite fmap_app, app_nil_r, append_nil_r|by left|].
  split; [done|]. split; [done|].
  unfold ChatLines.carried. by rewrite omap_app.
Qed.

Lemma unterminated_last_frame_is_lost_witness :
  let delta (d : string) :=
    Relay.payload Json.stringify (Relay.ofEvent (Event.TextDelta "s1" d)) in
  let frames := [(delta "Par", Some (Event.TextDelta "s1" "Par"))] in
  let p := delta "is" in
  let e := Event.TextDelta "s1" "is" in
  let chunks := [Frames.text frames.*1 +:+ Frames.dataLine p] in
  let chunks' := [Frames.text (frames.*1 ++ [p])] in
  let clock := Chat.mkClock 1000 1000 1000 1000 in
  let ended (cs : list string) :=
    Chat.run Json.decode (Chat.mount None)
      (Exchange.opening "q" clock ++ Exchange.reads cs ++ [Chat.ReadDone O]) in
  Text.trim "q" ≠ EmptyString
  ∧ Forall (ChatLines.means Json.decode) frames
  ∧ ChatLines.means Json.decode (p, Some e)
  ∧ Frames.splits chunks (Frames.text frames.*1 +:+ Frames.dataLine p)
  ∧ Frames.splits chunks' (Frames.text (frames.*1 ++ [p]))
  ∧ Chat.messages (Chat.ui (ended chunks))
    = Exchange.history None "q" clock
        ++ [Message.with_content "Par" (Chat.assistantMessage clock)]
  ∧ Chat.outcomes (ended chunks) = [(O, Chat.Completed)]
  ∧ Chat.messages (Chat.ui (ended chunks'))
    = Exchange.history None "q" clock
        ++ [Message.with_content "Paris" (Chat.assistantMessage clock)].
Proof.
  intros delta frames p e chunks chunks' clock ended.
  assert (H1 : Text.trim "q" ≠ EmptyString) by discriminate.
  assert (H2 : Forall (ChatLines.means Json.decode) frames)
    by (repeat constructor; vm_compute; discriminate).
  assert (H3 : ChatLines.means Json.decode (p, Some e))
    by (repeat constructor; vm_compute; discriminate).
  assert (H4 : Frames.splits chunks (Frames.text frames.*1 +:+ Frames.dataLine p))
    by (vm_compute; reflexivity).
  assert (H5 : Frames.splits chunks' (Frames.text (frames.*1 ++ [p])))
    by (vm_compute; reflexivity).
  do 5 (split; [assumption|]).
  exact (unterminated_last_frame_is_lost Json.decode frames p e chunks chunks' None
           "q" clock H1 H2 H3 H4 H5).
Defined.

(** ** The sentinel *)

Section SentinelFacts.

Import Chat Frames ChatLines.

Variable JSON_parse : string → option Wire.t.

Lemma onChunks_app {S : Type} (handle : Wire.t → S → S) chunks1 chunks2 buffer s :
  onChunks JSON_parse handle buffer (chunks1 ++ chunks2) s
  = onChunks JSON_parse handle
      (onChunks JSON_parse handle buffer chunks1 s).1 chunks2
      (onChunks JSON_parse handle buffer chunks1 s).2.
Proof.
  revert buffer s. induction chunks1 as [|c chunks1 IH]; intros buffer s; [done|].
  cbn [app onChunks onChunk]. apply IH.
Qed.

Lemma decoded_whole ps :
  Forall (λ p, Text.has_LF p = false) ps →
  decoded JSON_parse [text ps] = decodedPayloads JSON_parse ps.
Proof.
  intros Hps. unfold decoded. cbn [onChunks onChunk snd].
  destruct (lines_of_text ps EmptyString Hps eq_refl) as [Hl _].
  rewrite append_nil_r in Hl. rewrite Hl, forLines_lines. apply (foldl_snoc _ []).
Qed.

End SentinelFacts.

(** X9. The sentinel ends only the handling of the chunk it arrives in: the
    frames that follow it in the same chunk are skipped, and the frames that
    arrive in later chunks are handled as before. *)
Theorem sentinel_skips_only_the_rest_of_its_chunk
    (JSON_parse : string → option Wire.t)
    (before after : list (string * option Event.t))
    (chunks1 chunks2 : list string) :
  Forall (ChatLines.means JSON_parse) before →
  Forall (ChatLines.means JSON_parse) after →
  Frames.splits chunks1 (Frames.text (before.*1 ++ ["[DONE]"])) →
  Frames.splits chunks2 (Frames.text after.*1) →
  Chat.decoded JSON_parse [Frames.text (before.*1 ++ ["[DONE]"] ++ after.*1)]
  = omap Event.wire (ChatLines.carried before)
  ∧ Chat.decoded JSON_parse (chunks1 ++ chunks2)
    = omap Event.wire (ChatLines.carried before ++ ChatLines.carried after).
Proof.
  intros Hb Ha Hs1 Hs2. split.
  - rewrite decoded_whole.
    + rewrite decodedPayloads_frames by done. apply app_nil_r.
    + apply Forall_app. split; [by apply (means_fst_noLF JSON_parse)|].
      apply Forall_cons. split; [done|by apply (means_fst_noLF JSON_parse)].
  - unfold Chat.decoded. rewrite onChunks_app.
    rewrite (onChunks_frames JSON_parse _ (before.*1 ++ ["[DONE]"]) EmptyString chunks1);
      [|by apply (valid_frames_done JSON_parse)|done|by rewrite append_nil_r].
    cbn [fst snd].
    rewrite (onChunks_frames JSON_parse _ after.*1 EmptyString chunks2);
      [|by apply (valid_frames JSON_parse)|done|by rewrite append_nil_r].
    cbn [snd]. rewrite !foldl_snoc, app_nil_l.
    rewrite decodedPayloads_frames by done. rewrite app_nil_r.
    rewrite <- (app_nil_r after.*1), decodedPayloads_frames by done.
    by rewrite app_nil_r, omap_app.
Qed.

Lemma sentinel_skips_only_the_rest_of_its_chunk_witness :
  let delta (d : string) :=
    Relay.payload Json.stringify (Relay.ofEvent (Event.TextDelta "s1" d)) in
  let before := [(delta "A", Some (Event.TextDelta "s1" "A"))] in
  let after := [(delta "B", Some (Event.TextDelta "s1" "B"))] in
  let chunks1 := [Frames.text (before.*1 ++ ["[DONE]"])] in
  let chunks2 := [Frames.text after.*1] in
  Forall (ChatLines.means Json.decode) before
  ∧ Forall (ChatLines.means Json.decode) after
  ∧ Frames.splits chunks1 (Frames.text (before.*1 ++ ["[DONE]"]))
  ∧ Frames.splits chunks2 (Frames.text after.*1)
  ∧ Chat.decoded Json.decode [Frames.text (before.*1 ++ ["[DONE]"] ++ after.*1)]
    = omap Event.wire [Event.TextDelta "s1" "A"]
  ∧ Chat.decoded Json.decode (chunks1 ++ chunks2)
    = omap Event.wire [Event.TextDelta "s1" "A"; Event.TextDelta "s1" "B"].
Proof.
  intros delta before after chunks1 chunks2.
  assert (H1 : Forall (ChatLines.means Json.decode) before)
    by (repeat constructor; vm_compute; discriminate).
  assert (H2 : Forall (ChatLines.means Json.decode) after)
    by (repeat constructor; vm_compute; discriminate).
  assert (H3 : Frames.splits chunks1 (Frames.text (before.*1 ++ ["[DONE]"])))
    by (vm_compute; reflexivity).
  assert (H4 : Frames.splits chunks2 (Frames.text after.*1))
    by (vm_compute; reflexivity).
  do 4 (split; [assumption|]).
  exact (sentinel_skips_only_the_rest_of_its_chunk Json.decode before after
           chunks1 chunks2 H1 H2 H3 H4).
Defined.

(** ** Failure before the stream is read *)

(** X10. When the request of an exchange fails before a byte is read (the
    call of [fetch] is rejected, the response is not [ok], or it has no
    body), the saved messages and the user's message stay, the placeholder
    holds the failure text and nothing else changes in it, the exchange ends
    as errored, the component is ready for the next submission, and a chunk
    delivered to the ended call changes nothing. *)
Theorem failed_request_leaves_the_failure_text
    (JSON_parse : string → option Wire.t)
    (saved : option (list Message.t)) (messageText : string) (clock : Chat.Clock)
    (failure : Chat.Input) (chunk : string) :
  Text.trim messageText ≠ EmptyString →
  Unanswered.failure failure →
  let after :=
    Chat.run JSON_parse (Chat.mount saved) [Chat.Submit messageText clock; failure] in
  Chat.messages (Chat.ui after)
  = Exchange.history saved messageText clock
    ++ [Message.with_content Chat.failureText (Chat.assistantMessage clock)]
  ∧ Chat.requests after = [Exchange.request saved messageText clock]
  ∧ Chat.outcomes after = [(O, Chat.Errored)]
  ∧ Invariant.idle after
  ∧ Chat.currentStatus (Chat.ui after) = None
  ∧ Chat.abortControllerRef (Chat.ui after) = None
  ∧ Chat.renderError (Chat.ui after) = false
  ∧ Chat.step JSON_parse after (Chat.ReadValue O chunk) = after.
Proof.
  intros Ht Hf. cbv zeta. unfold Chat.run. cbn [foldl Chat.step].
  unfold Chat.sendMessage. rewrite bool_decide_eq_false_2 by done.
  cbn [orb Chat.mount Chat.ui Chat.isLoading Chat.running Chat.requests
       Chat.outcomes Chat.nextController Chat.messages app].
  set (cfg := Chat.mkConfig _ _ _ _ _).
  assert (Es : Chat.step JSON_parse cfg failure = Chat.settle O Chat.Errored cfg).
  { destruct Hf as [->|(ok & hasBody & -> & Hb)]; cbn; [done|by rewrite Hb]. }
  assert (Ec : ∀ hist,
    Chat.overwriteWithFailure (hist ++ [Chat.assistantMessage clock])
    = Some (hist ++ [Message.with_content Chat.failureText (Chat.assistantMessage clock)])).
  { intros hist. unfold Chat.overwriteWithFailure, Chat.onLastAssistant.
    rewrite last_snoc. cbn [mbind option_bind].
    rewrite bool_decide_eq_true_2 by done. by rewrite insert_last. }
  rewrite Es. unfold Chat.settle, cfg, Chat.catch, Chat.finally.
  cbn [Chat.ui Chat.running Chat.requests Chat.outcomes Chat.nextController app].
  cbv [Chat.setMessages Chat.pushMessage Chat.setAbortControllerRef Chat.setInput
       Chat.setIsLoading Chat.setCurrentStatus Chat.messages Chat.input
       Chat.isLoading Chat.currentStatus Chat.abortControllerRef Chat.renderError].
  rewrite Ec. cbn.
  repeat split; done.
Qed.

Lemma failed_request_leaves_the_failure_text_witness :
  let clock := Chat.mkClock 1000 1000 1000 1000 in
  let failure := Chat.FetchResolved O false true in
  let after :=
    Chat.run Json.decode (Chat.mount None)
      [Chat.Submit "capital of France?" clock; failure] in
  Text.trim "capital of France?" ≠ EmptyString
  ∧ Unanswered.failure failure
  ∧ Chat.messages (Chat.ui after)
    = Exchange.history None "capital of France?" clock
      ++ [Message.with_content Chat.failureText (Chat.assistantMessage clock)]
  ∧ Chat.requests after = [Exchange.request None "capital of France?" clock]
  ∧ Chat.outcomes after = [(O, Chat.Errored)]
  ∧ Invariant.idle after
  ∧ Chat.currentStatus (Chat.ui after) = None
  ∧ Chat.abortControllerRef (Chat.ui after) = None
  ∧ Chat.renderError (Chat.ui after) = false
  ∧ Chat.step Json.decode after (Chat.ReadValue O "data: x") = after.
Proof.
  intros clock failure after.
  assert (H1 : Text.trim "capital of France?" ≠ EmptyString) by discriminate.
  assert (H2 : Unanswered.failure failure)
    by (right; exists false, true; split; reflexivity).
  do 2 (split; [assumption|]).
  exact (failed_request_leaves_the_failure_text Json.decode None
           "capital of France?" clock failure "data: x" H1 H2).
Defined.

(** ** The list of messages and the array of objects *)

Section StoreStream.

Import Store.

Lemma handleParsed_renderError_sticky parsed st :
  Chat.renderError st = true →
  Chat.renderError (Chat.handleParsed parsed st) = true.
Proof.
  intros Hr. unfold Chat.handleParsed.
  repeat match goal with
  | |- context [if ?b then _ else _] => destruct b
  end; rewrite ?setMessages_renderError; try done;
  by match goal with |- context [if ?u is Some _ then _ else _] => destruct u end.
Qed.

Lemma foldl_renderError_sticky objs st :
  Chat.renderError st = true →
  Chat.renderError (foldl (λ acc parsed, Chat.handleParsed parsed acc) st objs) = true.
Proof.
  revert st. induction objs as [|parsed objs IH]; intros st Hr; [done|].
  cbn [foldl]. apply IH. by apply handleParsed_renderError_sticky.
Qed.

Lemma handleAll_none objs :
  foldl (λ acc parsed, acc ≫= handleParsed parsed) None objs = None.
Proof. by induction objs. Qed.

Lemma handleAll_refines objs s st :
  wf s →
  contents s = Chat.messages st →
  let st' := foldl (λ acc parsed, Chat.handleParsed parsed acc) st objs in
  match handleAll objs s with
  | Some s' =>
      wf s' ∧ contents s' = Chat.messages st'
      ∧ Chat.renderError st' = Chat.renderError st
  | None => Chat.renderError st' = true
  end.
Proof.
  revert s st. induction objs as [|parsed objs IH]; intros s st Hwf Hc; [done|].
  cbv zeta. unfold handleAll. cbn [foldl mbind option_bind].
  pose proof (handleParsed_refines parsed s st Hwf Hc) as H.
  destruct (handleParsed parsed s) as [s1|].
  - destruct H as (Hwf1 & Hc1 & Hr1).
    specialize (IH s1 (Chat.handleParsed parsed st) Hwf1 Hc1). cbv zeta in IH.
    unfold handleAll in IH.
    destruct (foldl _ (Some s1) objs); [|done].
    destruct IH as (? & ? & ->). done.
  - rewrite handleAll_none. by apply foldl_renderError_sticky.
Qed.

End StoreStream.

(** X11. The list of messages is a faithful picture of the array of message
    objects along a whole stream: start from the array read from storage and
    apply the chain to any objects, mutating the last object in place the
    way the updaters do; as long as no updater throws the array stays well
    formed and denotes exactly the list the component holds, and an updater
    throws on the array exactly when the component records the error. *)
Theorem message_list_pictures_object_array (objs : list Wire.t) (st : Chat.State) :
  let st' := foldl (λ acc parsed, Chat.handleParsed parsed acc) st objs in
  match Store.handleAll objs (Store.ofList (Chat.messages st)) with
  | Some s' =>
      Store.wf s'
      ∧ Store.contents s' = Chat.messages st'
      ∧ Chat.renderError st' = Chat.renderError st
  | None => Chat.renderError st' = true
  end.
Proof.
  destruct (ofList_refines (Chat.messages st)) as [Hwf Hc].
  exact (handleAll_refines objs _ st Hwf Hc).
Qed.

(** ** The initial query *)

Section SessionFacts.

Import Session.

Variable JSON_stringify : list Message.t → string.

Lemma messagesKey_not_submittedKey a b : messagesKey a ≠ submittedKey b.
Proof. unfold messagesKey, submittedKey. intros H. cbv [String.app] in H. discriminate. Qed.

Lemma submittedKey_inj a b : submittedKey a = submittedKey b → a = b.
Proof. unfold submittedKey. intros H. cbv [String.app] in H. by simplify_eq. Qed.

Lemma persistEffect_marked chatId messages storage c :
  marked (persistEffect JSON_stringify chatId messages storage) c ↔ marked storage c.
Proof.
  unfold marked, persistEffect, getItem, setItem, Storage in *.
  case_bool_decide; [|done].
  rewrite lookup_insert_ne; [done|]. apply messagesKey_not_submittedKey.
Qed.

Lemma initialQueryEffect_marked chatId initialQuery hasInitialized storage :
  let e := initialQueryEffect chatId initialQuery hasInitialized storage in
  (∀ c, marked (Session.storage e) c
        ↔ marked storage c ∨ (c = chatId ∧ is_Some (sent e)))
  ∧ (is_Some (sent e) → ¬ marked storage chatId).
Proof.
  cbv zeta. unfold initialQueryEffect.
  assert (Hno : ∀ (P : Prop) c, (P ↔ P ∨ c = chatId ∧ is_Some (@None string))).
  { intros P c. split; [by left|]. intros [?|[_ [? ?]]]; done. }
  assert (Hnone : is_Some (@None string) → ¬ marked storage chatId)
    by (intros [? ?]; done).
  destruct initialQuery as [query|]; cbn [Session.storage sent]; [|done].
  destruct (truthy (Some query) && negb hasInitialized);
    cbn [Session.storage sent]; [|done].
  destruct (truthy (getItem (submittedKey chatId) storage)) eqn:Hm;
    cbn [negb Session.storage sent]; [done|].
  split; [|intros _; unfold marked; by rewrite Hm].
  intros c. unfold marked, setItem, getItem, Storage in *.
  destruct (decide (c = chatId)) as [->|Hne].
  - rewrite lookup_insert_eq. cbn. split; [by right|done].
  - rewrite lookup_insert_ne by (intros ?%submittedKey_inj; done).
    split; [by left|]. by intros [?|[? _]].
Qed.

Lemma run_calls_grow runs storage calls c :
  c ∈ calls.*1 → c ∈ (foldl (run1 JSON_stringify) (storage, calls) runs).2.*1.
Proof.
  revert storage calls. induction runs as [|r runs IH]; intros storage calls Hc; [done|].
  cbn [foldl]. destruct r as [chatId initialQuery hasInitialized|chatId messages].
  - unfold run1 at 2. cbn [fst snd].
    destruct (sent _); apply IH; [|done].
    rewrite fmap_app. apply elem_of_app. by left.
  - by apply IH.
Qed.

Lemma run_marked runs storage calls :
  NoDup calls.*1 →
  (∀ c, c ∈ calls.*1 → marked storage c) →
  let result := foldl (run1 JSON_stringify) (storage, calls) runs in
  NoDup result.2.*1
  ∧ (∀ c, marked result.1 c ↔ marked storage c ∨ c ∈ result.2.*1)
  ∧ (∀ c, c ∈ result.2.*1 → c ∈ calls.*1 ∨ ¬ marked storage c).
Proof.
  revert storage calls. induction runs as [|r runs IH]; intros storage calls Hnd Hin.
  { cbv zeta. cbn [foldl fst snd]. split; [done|]. split; [|by left].
    intros c. split; [by left|]. intros [?|?]; [done|by apply Hin]. }
  cbv zeta. cbn [foldl]. destruct r as [chatId initialQuery hasInitialized|chatId messages].
  - change (run1 JSON_stringify (storage, calls)
              (InitialQuery chatId initialQuery hasInitialized))
      with (Session.storage (initialQueryEffect chatId initialQuery hasInitialized storage),
            match sent (initialQueryEffect chatId initialQuery hasInitialized storage) with
            | Some query => calls ++ [(chatId, query)]
            | None => calls
            end).
    pose proof (initialQueryEffect_marked chatId initialQuery hasInitialized storage)
      as He. cbv zeta in He.
    destruct (initialQueryEffect chatId initialQuery hasInitialized storage)
      as [h i storage1 [query|]]; cbn [Session.storage sent] in *.
    + assert (Hfresh : ¬ marked storage chatId) by (apply He; by eexists).
      assert (Hnotin : chatId ∉ calls.*1) by (intros ?; by apply Hfresh, Hin).
      destruct (IH storage1 (calls ++ [(chatId, query)])) as (IH1 & IH2 & IH3).
      { rewrite fmap_app. cbn. apply NoDup_app. split; [done|].
        split; [|apply NoDup_singleton]. intros c Hc ->%list_elem_of_singleton. done. }
      { intros c. rewrite fmap_app. cbn. rewrite elem_of_app, list_elem_of_singleton.
        intros [Hc| ->]; apply (proj1 He); [left; by apply Hin|right; by eauto]. }
      split; [done|]. split.
      * intros c. rewrite IH2. rewrite (proj1 He c). split.
        -- intros [[?|[-> _]]|?]; [by left|right|by right].
           apply run_calls_grow. rewrite fmap_app. apply elem_of_app. right.
           by apply list_elem_of_singleton.
        -- intros [?|?]; [left; by left|by right].
      * intros c Hc. destruct (IH3 c Hc) as [Hc'|Hc'].
        -- rewrite fmap_app in Hc'. cbn in Hc'.
           apply elem_of_app in Hc' as [?| ->%list_elem_of_singleton]; [by left|by right].
        -- right. intros Hm. apply Hc', (proj1 He c). by left.
    + destruct (IH storage1 calls) as (IH1 & IH2 & IH3); [done| |].
      { intros c Hc. apply (proj1 He c). left. by apply Hin. }
      split; [done|]. split.
      * intros c. rewrite IH2, (proj1 He c). split.
        -- intros [[?|[_ [? ?]]]|?]; [by left|done|by right].
        -- intros [?|?]; [left; by left|by right].
      * intros c Hc. destruct (IH3 c Hc) as [?|Hc']; [by left|].
        right. intros Hm. apply Hc', (proj1 He c). by left.
  - change (run1 JSON_stringify (storage, calls) (Persist chatId messages))
      with (persistEffect JSON_stringify chatId messages storage, calls).
    destruct (IH (persistEffect JSON_stringify chatId messages storage) calls)
      as (IH1 & IH2 & IH3); [done| |].
    { intros c Hc. apply persistEffect_marked. by apply Hin. }
    split; [done|]. split.
    + intros c. by rewrite IH2, persistEffect_marked.
    + intros c Hc. destruct (IH3 c Hc) as [?|Hc']; [by left|].
      right. by rewrite <- (persistEffect_marked chatId messages).
Qed.

End SessionFacts.

(** X12. The initial query of a chat is handed to [sendMessage] at most once
    for the life of a session storage, whatever instances of the page run
    the initial-query effect and whatever message lists are saved in
    between: no chat is submitted twice, a chat that was marked as submitted
    at the start is never submitted, and the chats marked at the end are
    those marked at the start and those submitted. *)
Theorem initial_query_submitted_at_most_once
    (JSON_stringify : list Message.t → string)
    (storage : Session.Storage) (runs : list Session.Run) :
  let result := Session.run JSON_stringify storage runs in
  NoDup result.2.*1
  ∧ (∀ chatId, Session.marked storage chatId → chatId ∉ result.2.*1)
  ∧ (∀ chatId, Session.marked result.1 chatId
               ↔ Session.marked storage chatId ∨ chatId ∈ result.2.*1).
Proof.
  cbv zeta. unfold Session.run.
  destruct (run_marked JSON_stringify runs storage []) as (H1 & H2 & H3).
  { apply NoDup_nil_2. }
  { intros c Hc. by apply elem_of_nil in Hc. }
  split; [done|]. split; [|done].
  intros c Hm Hc. destruct (H3 c Hc) as [Hn|Hn]; [by apply elem_of_nil in Hn|done].
Qed.

(** ** The saved messages *)

Section SavedFacts.

Import Session.

Variable JSON_stringify : list Message.t → string.

Lemma messagesKey_inj a b : messagesKey a = messagesKey b → a = b.
Proof. unfold messagesKey. intros H. cbv [String.app] in H. by simplify_eq. Qed.

Lemma run_snoc storage runs r :
  run JSON_stringify storage (runs ++ [r])
  = run1 JSON_stringify (run JSON_stringify storage runs) r.
Proof. unfold run. by rewrite foldl_app. Qed.

Lemma run1_saved acc r chatId :
  getItem (messagesKey chatId) (run1 JSON_stringify acc r).1
  = match savedFor chatId r with
    | Some ms => Some (JSON_stringify ms)
    | None => getItem (messagesKey chatId) acc.1
    end.
Proof.
  destruct r as [c initialQuery hasInitialized|c messages]; cbn [run1 fst savedFor].
  - unfold initialQueryEffect. destruct initialQuery as [query|]; [|done].
    destruct (truthy (Some query) && negb hasInitialized); [|done].
    destruct (negb _); cbn [Session.storage]; [|done].
    unfold getItem, setItem, Storage in *. rewrite lookup_insert_ne; [done|].
    intros H. by apply (messagesKey_not_submittedKey chatId c).
  - unfold persistEffect. destruct messages as [|m ms]; [done|].
    rewrite bool_decide_eq_true_2 by (cbn [length]; lia).
    unfold getItem, setItem, Storage in *. case_bool_decide as Hc.
    + subst c. by rewrite lookup_insert_eq.
    + rewrite lookup_insert_ne; [done|]. by intros ?%messagesKey_inj.
Qed.

Lemma run_saved storage runs chatId :
  getItem (messagesKey chatId) (run JSON_stringify storage runs).1
  = match last (omap (savedFor chatId) runs) with
    | Some ms => Some (JSON_stringify ms)
    | None => getItem (messagesKey chatId) storage
    end.
Proof.
  induction runs as [|r runs IH] using rev_ind; [done|].
  rewrite run_snoc, run1_saved, omap_app. cbn [omap list_omap].
  destruct (savedFor chatId r) as [ms|].
  - by rewrite last_snoc.
  - by rewrite app_nil_r.
Qed.

End SavedFacts.

(** X13. What a chat loads when its page is mounted is what the page last
    saved for it: after any runs of the two effects the initializer of the
    [messages] cell reads, for each chat, the text of the last non-empty
    list saved for that chat, or what the storage held at the start when
    there is none. An empty list is never saved, and neither the lists of
    another chat nor the marks of the initial queries are read. *)
Theorem chat_loads_what_it_last_saved
    (JSON_stringify : list Message.t → string)
    (JSON_parse : string → option (list Message.t))
    (storage : Session.Storage) (runs : list Session.Run) (chatId : string) :
  Session.initialMessages JSON_parse chatId (Session.run JSON_stringify storage runs).1
  = match last (omap (Session.savedFor chatId) runs) with
    | Some messages =>
        if Session.truthy (Some (JSON_stringify messages))
        then default [] (JSON_parse (JSON_stringify messages))
        else []
    | None => Session.initialMessages JSON_parse chatId storage
    end.
Proof.
  unfold Session.initialMessages. rewrite run_saved.
  by destruct (last (omap (Session.savedFor chatId) runs)).
Qed.

(** ** The blocks of a rendered message *)

Section BlockFacts.

Import Markdown.

Lemma splitIntoBlocks_step c s' :
  splitIntoBlocks (String c s')
  = match s' with
    | String c' s'' =>
        if Text.is_LF c && Text.is_LF c'
        then EmptyString :: splitIntoBlocks s''
        else extend c (splitIntoBlocks s')
    | EmptyString => [String c EmptyString]
    end.
Proof. by destruct s'. Qed.

(** Induction along the scan of [splitIntoBlocks]. *)
Lemma blocks_ind (P : string → Prop) :
  P EmptyString →
  (∀ c, P (String c EmptyString)) →
  (∀ c c' s, Text.is_LF c && Text.is_LF c' = true → P s → P (String c (String c' s))) →
  (∀ c c' s, Text.is_LF c && Text.is_LF c' = false →
             P (String c' s) → P (String c (String c' s))) →
  ∀ s, P s.
Proof.
  intros H0 H1 H2 H3 s.
  assert (G : P s ∧ ∀ c, P (String c s)); [|by destruct G].
  induction s as [|c' s [IHs IHc]]; [by split|].
  split; [apply IHc|]. intros c.
  destruct (Text.is_LF c && Text.is_LF c') eqn:E; [by apply H2|by apply H3].
Qed.

Lemma splitIntoBlocks_nonempty content : splitIntoBlocks content ≠ [].
Proof.
  induction content as [|c|c c' s E IH|c c' s E IH] using blocks_ind; try done.
  - rewrite splitIntoBlocks_step, E. done.
  - rewrite splitIntoBlocks_step, E. by destruct (splitIntoBlocks (String c' s)).
Qed.

Lemma join_extend c blocks :
  blocks ≠ [] → join (extend c blocks) = String c (join blocks).
Proof. destruct blocks as [|b [|b' blocks]]; done. Qed.

Lemma join_cons block blocks :
  blocks ≠ [] →
  join (block :: blocks) = block +:+ String Text.LF (String Text.LF (join blocks)).
Proof. by destruct blocks. Qed.

Lemma join_splitIntoBlocks content : join (splitIntoBlocks content) = content.
Proof.
  induction content as [|c|c c' s E IH|c c' s E IH] using blocks_ind; try done.
  - rewrite splitIntoBlocks_step, E. apply andb_true_iff in E as [E1 E2].
    apply bool_decide_eq_true in E1, E2. subst c c'.
    rewrite join_cons by apply splitIntoBlocks_nonempty. by rewrite IH.
  - rewrite splitIntoBlocks_step, E.
    rewrite join_extend by apply splitIntoBlocks_nonempty. by rewrite IH.
Qed.

Lemma hasBreak_step c c' s :
  hasBreak (String c (String c' s))
  = (Text.is_LF c && Text.is_LF c') || hasBreak (String c' s).
Proof. done. Qed.

Lemma splitIntoBlocks_no_break content :
  Forall (λ block, hasBreak block = false) (splitIntoBlocks content).
Proof.
  induction content as [|c|c c' s E IH|c c' s E IH] using blocks_ind.
  - by apply Forall_singleton.
  - by apply Forall_singleton.
  - rewrite splitIntoBlocks_step, E. by apply Forall_cons.
  - rewrite splitIntoBlocks_step, E.
    destruct (splitIntoBlocks (String c' s)) as [|block blocks] eqn:Es;
      [by apply Forall_singleton|].
    apply Forall_cons in IH as [Hb Hbs]. cbn [extend]. apply Forall_cons.
    split; [|done].
    destruct block as [|b block]; [done|].
    rewrite hasBreak_step, Hb, orb_false_r.
    (* the first block starts with [c'], or is empty when [c'] opens a break *)
    rewrite splitIntoBlocks_step in Es. destruct s as [|c'' s].
    + by simplify_eq.
    + destruct (Text.is_LF c' && Text.is_LF c'') eqn:E'; [by simplify_eq|].
      destruct (splitIntoBlocks (String c'' s)); simplify_eq/=; done.
Qed.

Lemma removelast_extend c blocks :
  removelast (extend c blocks)
  = match blocks with
    | _ :: _ :: _ => extend c (removelast blocks)
    | _ => []
    end.
Proof. by destruct blocks as [|b [|b' blocks]]. Qed.

Lemma splitIntoBlocks_stable content delta :
  removelast (splitIntoBlocks content) `prefix_of` splitIntoBlocks (content +:+ delta).
Proof.
  induction content as [|c|c c' s E IH|c c' s E IH] using blocks_ind.
  - apply prefix_nil.
  - apply prefix_nil.
  - change (String c (String c' s) +:+ delta) with (String c (String c' (s +:+ delta))).
    rewrite (splitIntoBlocks_step c (String c' s)),
      (splitIntoBlocks_step c (String c' (s +:+ delta))), E.
    pose proof (splitIntoBlocks_nonempty s).
    destruct (splitIntoBlocks s) as [|b bs] eqn:Es; [done|].
    change (removelast (EmptyString :: b :: bs))
      with (EmptyString :: removelast (b :: bs)).
    by apply prefix_cons.
  - change (String c (String c' s) +:+ delta) with (String c (String c' (s +:+ delta))).
    rewrite (splitIntoBlocks_step c (String c' s)),
      (splitIntoBlocks_step c (String c' (s +:+ delta))), E. rewrite removelast_extend.
    change (String c' (s +:+ delta)) with (String c' s +:+ delta).
    destruct (splitIntoBlocks (String c' s)) as [|b [|b' bs]];
      [apply prefix_nil|apply prefix_nil|].
    change (removelast (b :: b' :: bs)) with (b :: removelast (b' :: bs)) in *.
    destruct IH as [tail Ht]. rewrite Ht. cbn [extend app].
    by eexists.
Qed.

End BlockFacts.

(** X14. The blocks of a message: putting two line feeds between the blocks
    gives the content back, no block holds two line feeds in a row, and
    while the content grows the blocks before the last one stay as they
    are, so only the last block of a streaming message is rendered anew. *)
Theorem completed_blocks_are_stable (content delta : string) :
  Markdown.join (Markdown.splitIntoBlocks content) = content
  ∧ Forall (λ block, Markdown.hasBreak block = false) (Markdown.splitIntoBlocks content)
  ∧ removelast (Markdown.splitIntoBlocks content)
    `prefix_of` Markdown.splitIntoBlocks (content +:+ delta).
Proof.
  split; [apply join_splitIntoBlocks|].
  split; [apply splitIntoBlocks_no_break|apply splitIntoBlocks_stable].
Qed.

(** ** The times of the candles *)

Section CandleFacts.

Import StockChart.

Lemma numCandles_bounds timeRange interval :
  1 ≤ numCandles timeRange interval ≤ 500.
Proof. destruct timeRange, interval; vm_compute; split; discriminate. Qed.

Lemma time_back interval now n :
  time interval (now - n * intervalMs interval)
  = later interval (- n) (time interval now).
Proof.
  assert (Hdiv : ∀ d q, 0 < d → (now - n * (q * d)) / d = now / d + - n * q).
  { intros d q Hd. replace (now - n * (q * d)) with (now + (- n * q) * d) by lia.
    apply Z.div_add. lia. }
  destruct interval; unfold time, later; f_equal;
    match goal with
    | |- (now - n * intervalMs ?i) / ?d = _ =>
        let q := eval vm_compute in (intervalMs i / d) in
        change (intervalMs i / d) with q;
        change (intervalMs i) with (q * d)%Z
    end; apply Hdiv; done.
Qed.

Lemma later_later interval n m t :
  later interval n (later interval m t) = later interval (m + n) t.
Proof. destruct t; unfold later; f_equal; lia. Qed.

Lemma later_before interval n timestamp :
  0 < n → before (time interval timestamp) (later interval n (time interval timestamp)).
Proof.
  intros Hn. destruct interval; unfold time, later, before;
    match goal with
    | |- _ < _ + n * (intervalMs ?i / ?d) =>
        let q := eval vm_compute in (intervalMs i / d) in
        change (intervalMs i / d) with q
    end; lia.
Qed.

Lemma candleTimes_lookup now timeRange interval (i : nat) :
  (i < Z.to_nat (numCandles timeRange interval))%nat →
  candleTimes now timeRange interval !! i
  = Some (later interval (- (numCandles timeRange interval - Z.of_nat i - 1))
            (time interval now)).
Proof.
  intros Hi. unfold candleTimes. rewrite list_lookup_fmap.
  rewrite lookup_seqZ_lt by lia. cbn [fmap option_fmap option_map].
  unfold candleTime. cbv zeta. rewrite time_back. rewrite Z.add_0_l. done.
Qed.

Lemma later_zero interval t : later interval 0 t = t.
Proof. destruct t; unfold later; f_equal; lia. Qed.

End CandleFacts.

(** X15. The series of candles handed to the chart: between 1 and 500
    candles, whatever the range and the interval; the last one is timed at
    [now], each one lies one interval after the one before it, and so the
    times ascend strictly, as the chart library asks of its data. *)
Theorem candles_ascend_to_now
    (now : Z) (timeRange : StockChart.TimeRange) (interval : StockChart.Interval) :
  let times := StockChart.candleTimes now timeRange interval in
  (1 ≤ length times ≤ 500)%nat
  ∧ last times = Some (StockChart.time interval now)
  ∧ ∀ (i : nat) t t',
      times !! i = Some t → times !! S i = Some t' →
      t' = StockChart.later interval 1 t ∧ StockChart.before t t'.
Proof.
  cbv zeta. pose proof (numCandles_bounds timeRange interval) as Hn.
  assert (Hlen : length (StockChart.candleTimes now timeRange interval)
                 = Z.to_nat (StockChart.numCandles timeRange interval)).
  { unfold StockChart.candleTimes. by rewrite length_fmap, length_seqZ. }
  split; [lia|]. split.
  - rewrite last_lookup, Hlen, candleTimes_lookup by lia.
    replace (- (StockChart.numCandles timeRange interval
                - Z.of_nat (Init.Nat.pred (Z.to_nat (StockChart.numCandles timeRange interval)))
                - 1)) with 0 by lia.
    by rewrite later_zero.
  - intros i t t' Ht Ht'.
    assert (S i < Z.to_nat (StockChart.numCandles timeRange interval))%nat as Hi.
    { rewrite <- Hlen. by eapply lookup_lt_Some. }
    rewrite candleTimes_lookup in Ht, Ht' by lia. simplify_eq.
    assert (E : StockChart.later interval
                  (- (StockChart.numCandles timeRange interval - Z.of_nat (S i) - 1))
                  (StockChart.time interval now)
                = StockChart.later interval 1
                    (StockChart.later interval
                       (- (StockChart.numCandles timeRange interval - Z.of_nat i - 1))
                       (StockChart.time interval now))).
    { rewrite later_later. f_equal. lia. }
    split; [done|]. rewrite E.
    rewrite <- time_back. by apply later_before.
Qed.

(** ** The chart directive *)

Section DirectiveFacts.

Import Text Markdown.

Lemma slice_length_app p s : slice (String.length p) (p +:+ s) = s.
Proof. induction p as [|c p IH]; [done|]. by rewrite append_cons. Qed.

Lemma startsWith_inv p s : startsWith p s = true → ∃ t, s = p +:+ t.
Proof.
  revert s. induction p as [|c p IH]; intros s; [by exists s|].
  destruct s as [|d s]; [done|]. cbn [startsWith].
  intros [->%bool_decide_eq_true Hs]%andb_true_iff.
  destruct (IH s Hs) as [t ->]. by exists t.
Qed.

Lemma length_append s t :
  String.length (s +:+ t) = (String.length s + String.length t)%nat.
Proof. induction s as [|c s IH]; [done|]. rewrite append_cons. cbn. by rewrite IH. Qed.

Lemma substring0_slice n s : s = substring0 n s +:+ slice n s.
Proof.
  revert s. induction n as [|n IH]; intros s; [by destruct s|].
  destruct s as [|c s]; [done|]. cbn [substring0 slice]. by rewrite append_cons, <- IH.
Qed.

Lemma symbolOf_sound s :
  s = (symbolOf s).1 +:+ (symbolOf s).2 ∧ allUpper (symbolOf s).1 = true.
Proof.
  induction s as [|c s [IH1 IH2]]; [done|]. cbn [symbolOf].
  destruct (isUpper c) eqn:E; cbn [fst snd allUpper]; [|done].
  rewrite E, IH2, append_cons, <- IH1. done.
Qed.

Lemma symbolOf_app symbol rest :
  allUpper symbol = true →
  symbolOf (symbol +:+ String closer rest) = (symbol, String closer rest).
Proof.
  induction symbol as [|c symbol IH]; [done|]. cbn [allUpper].
  intros [Hc Hs]%andb_true_iff. rewrite append_cons. cbn [symbolOf].
  by rewrite Hc, (IH Hs).
Qed.

Lemma directiveAt_sound s symbol :
  directiveAt s = Some symbol →
  symbol ≠ EmptyString ∧ allUpper symbol = true
  ∧ ∃ after, s = matched symbol +:+ after.
Proof.
  unfold directiveAt. destruct (startsWith opener s) eqn:Hs; [|done].
  apply startsWith_inv in Hs as [t ->]. rewrite slice_length_app.
  destruct (symbolOf_sound t) as [Ht Hu].
  destruct (symbolOf t) as [[|c sym] [|r rest]]; try done.
  case_bool_decide as Hr; [|done]. intros [= <-]. cbn [fst snd] in *. subst r.
  split; [done|]. split; [done|]. exists rest.
  unfold matched. by rewrite Ht, !append_assoc.
Qed.

Lemma directiveAt_complete symbol after :
  symbol ≠ EmptyString → allUpper symbol = true →
  directiveAt (matched symbol +:+ after) = Some symbol.
Proof.
  intros Hne Hu. unfold directiveAt, matched. rewrite !append_assoc.
  rewrite startsWith_app, slice_length_app.
  change (String closer EmptyString +:+ after) with (String closer after).
  rewrite symbolOf_app by done. destruct symbol; [done|].
  by rewrite bool_decide_eq_true_2.
Qed.

Lemma stockChartMatch_step content :
  stockChartMatch content
  = match directiveAt content with
    | Some symbol => Some (O, symbol)
    | None =>
        match content with
        | String _ s' => prod_map S id <$> stockChartMatch s'
        | EmptyString => None
        end
    end.
Proof. by destruct content. Qed.

Lemma stockChartMatch_complete before symbol after :
  symbol ≠ EmptyString → allUpper symbol = true →
  is_Some (stockChartMatch (before +:+ matched symbol +:+ after)).
Proof.
  intros Hne Hu. induction before as [|c before IH].
  - rewrite stockChartMatch_step.
    change (EmptyString +:+ matched symbol +:+ after) with (matched symbol +:+ after).
    rewrite directiveAt_complete by done. by eexists.
  - rewrite stockChartMatch_step, append_cons.
    destruct (directiveAt _); [by eexists|].
    destruct IH as [x ->]. by eexists.
Qed.

Lemma stockChartMatch_sound content index symbol :
  stockChartMatch content = Some (index, symbol) →
  content = beforeChart content index +:+ matched symbol
            +:+ afterChart content index symbol
  ∧ symbol ≠ EmptyString ∧ allUpper symbol = true
  ∧ stockChartMatch (beforeChart content index) = None.
Proof.
  revert index. induction content as [|c s IH]; intros index;
    rewrite stockChartMatch_step.
  - destruct (directiveAt EmptyString) eqn:E; [|done]. done.
  - destruct (directiveAt (String c s)) as [symbol'|] eqn:E.
    + intros [= <- <-]. destruct (directiveAt_sound _ _ E) as (Hne & Hu & after & Ha).
      split; [|by destruct s]. unfold beforeChart, afterChart.
      cbn [substring0 Nat.add]. rewrite Ha at 2. rewrite slice_length_app.
      by destruct s.
    + destruct (stockChartMatch s) as [[index' symbol']|] eqn:Es; [|done].
      cbn. intros [= <- <-]. destruct (IH index' eq_refl) as (Hc & Hne & Hu & Hb).
      split; [|split; [done|split; [done|]]].
      * unfold beforeChart, afterChart in *. cbn [substring0 Nat.add slice].
        by rewrite append_cons, <- Hc.
      * unfold beforeChart in *. cbn [substring0]. rewrite stockChartMatch_step.
        rewrite Hb. cbn.
        destruct (directiveAt (String c (substring0 index' s))) as [symbol''|] eqn:E';
          [|done].
        destruct (directiveAt_sound _ _ E') as (Hne' & Hu' & after' & Ha').
        exfalso. rewrite (substring0_slice index' s) in E.
        rewrite <- append_cons, Ha', append_assoc in E.
        by rewrite directiveAt_complete in E.
Qed.

End DirectiveFacts.

(** X16. The chart directive. When the expression matches, the text before
    the match, the match and the text after it make up the content, the
    symbol is a non-empty run of capital letters, the text before holds no
    directive of its own, and the text after is shorter than the content, so
    the component's rendering of itself ends. When it does not match, the
    content holds no directive anywhere. *)
Theorem chart_directive_splits_content (content : string) :
  match Markdown.stockChartMatch content with
  | Some (index, symbol) =>
      content = Markdown.beforeChart content index +:+ Markdown.matched symbol
                +:+ Markdown.afterChart content index symbol
      ∧ symbol ≠ EmptyString ∧ Markdown.allUpper symbol = true
      ∧ Markdown.stockChartMatch (Markdown.beforeChart content index) = None
      ∧ (String.length (Markdown.afterChart content index symbol)
         < String.length content)%nat
  | None =>
      ∀ before symbol after,
        symbol ≠ EmptyString → Markdown.allUpper symbol = true →
        content ≠ before +:+ Markdown.matched symbol +:+ after
  end.
Proof.
  destruct (Markdown.stockChartMatch content) as [[index symbol]|] eqn:E.
  - destruct (stockChartMatch_sound _ _ _ E) as (Hc & Hne & Hu & Hb).
    do 4 (split; [done|]).
    rewrite Hc at 2. rewrite !length_append. unfold Markdown.matched.
    rewrite !length_append. cbn. lia.
  - intros before symbol after Hne Hu ->.
    destruct (stockChartMatch_complete before symbol after Hne Hu) as [x Hx].
    by rewrite Hx in E.
Qed.

(** ** The shape of the conversation *)

Section ConversationFacts.

Import Chat Progress Conversation.

Variable JSON_parse : string → option Wire.t.

Lemma state_stateWith st hist m :
  messages st = hist ++ [m] → st = stateWith hist m st.
Proof. destruct st. cbn. by intros ->. Qed.

Lemma handleParsed_sound R parsed st : sound R st → sound R (handleParsed parsed st).
Proof.
  intros (Hr & HR & hist & m & Hm & Hrole).
  rewrite (state_stateWith st hist m Hm).
  destruct (handleParsed_stateWith parsed hist m st Hrole) as (st' & -> & Hr' & _).
  unfold sound, stateWith. cbn [renderError messages].
  split; [congruence|]. split.
  - rewrite <- HR, Hm, !fmap_app. cbn. by rewrite effect_keeps_role.
  - exists hist, (Outbound.effect parsed m). by rewrite effect_keeps_role.
Qed.

Lemma forLines_sound R lines st :
  sound R st → sound R (forLines JSON_parse handleParsed lines st).
Proof.
  revert st. induction lines as [|l lines IH]; intros st Hst; [done|].
  cbn [forLines]. destruct (classify JSON_parse l); [by apply IH|done|].
  by apply IH, handleParsed_sound.
Qed.

Lemma catch_sound R o st : sound R st → sound R (catch o st).
Proof.
  intros (Hr & HR & hist & m & Hm & Hrole). destruct o; try by repeat split; eauto.
  - split; [done|]. split; [done|]. by exists hist, m.
  - split; [done|]. split; [done|]. by exists hist, m.
  - rewrite (state_stateWith st hist m Hm), catch_errored by done.
    unfold sound, stateWith. cbn [renderError messages].
    split; [done|]. split.
    + rewrite <- HR, Hm, !fmap_app. done.
    + by exists hist, (Message.with_content failureText m).
Qed.

Lemma settle_conversation saved c o cfg :
  Conversation.holds saved cfg →
  isLoading (ui cfg) = true →
  Conversation.holds saved (settle c o cfg).
Proof.
  intros (Hr & HR & Ha) Hl.
  destruct (catch_sound _ o (ui cfg) (conj Hr (conj HR (Ha Hl)))) as (Hr' & HR' & _).
  unfold Conversation.holds, settle, finally. cbn. done.
Qed.

Lemma roles_S saved n :
  roles saved (S n) = roles saved n ++ [user; assistant].
Proof.
  unfold roles. rewrite <- app_assoc. f_equal.
  rewrite replicate_S_end, join_app. cbn. by rewrite ?app_nil_r.
Qed.

Lemma step_conversation saved cfg i :
  Invariant.holds cfg →
  Conversation.holds saved cfg →
  Conversation.holds saved (step JSON_parse cfg i).
Proof.
  intros Hinv Hconv.
  assert (Hbusy : ∀ c inv, lookupInvocation c (running cfg) = Some inv →
                           isLoading (ui cfg) = true).
  { intros c inv Hlook. destruct Hinv as [[Hr _]|(? & ? & _ & Hl & _)]; [|done].
    by rewrite Hr in Hlook. }
  destruct i; cbn [step].
  - (* Submit *)
    unfold sendMessage. destruct (bool_decide _ || isLoading (ui cfg)) eqn:E; [done|].
    destruct Hconv as (Hr & HR & _).
    unfold Conversation.holds. cbn [ui requests].
    rewrite length_app. cbn [length]. rewrite Nat.add_1_r, roles_S, <- HR.
    unfold setMessages, pushMessage. cbn.
    split; [done|]. split.
    + rewrite !fmap_app. cbn. by rewrite <- app_assoc.
    + intros _. by eexists _, _.
  - (* Stop *)
    unfold stopGeneration. destruct (abortControllerRef (ui cfg)); [|done].
    destruct (lookupInvocation n (running cfg)) eqn:El; [|done].
    apply settle_conversation; eauto.
  - destruct (lookupInvocation c (running cfg)) as [[c' [|buffer]]|] eqn:El; try done.
    destruct (ok && hasBody); [done|]. apply settle_conversation; eauto.
  - destruct (lookupInvocation c (running cfg)) as [[c' [|buffer]]|] eqn:El; try done.
    apply settle_conversation; eauto.
  - destruct (lookupInvocation c (running cfg)) as [[c' [|buffer]]|] eqn:El; try done.
    cbn [onChunk]. destruct Hconv as (Hr & HR & Ha).
    destruct (forLines_sound _ (Reassembly.lines_of buffer chunk) (ui cfg)
                (conj Hr (conj HR (Ha (Hbusy _ _ El))))) as (Hr' & HR' & Ha').
    unfold Conversation.holds. cbn [ui requests]. done.
  - destruct (lookupInvocation c (running cfg)) as [[c' [|buffer]]|] eqn:El; try done.
    apply settle_conversation; eauto.
  - destruct (lookupInvocation c (running cfg)) as [[c' [|buffer]]|] eqn:El; try done.
    apply settle_conversation; eauto.
Qed.

Lemma run_conversation saved cfg inputs :
  Invariant.holds cfg →
  Conversation.holds saved cfg →
  Conversation.holds saved (run JSON_parse cfg inputs).
Proof.
  revert cfg. induction inputs as [|i inputs IH]; intros cfg Hinv Hconv; [done|].
  cbn [run foldl]. apply IH; [by apply step_holds|by apply step_conversation].
Qed.

End ConversationFacts.


(** ** The provider configuration *)

(** X18. When the text stored as provider configuration is not JSON, a
    submission to the idle component adds the user's message and the
    assistant placeholder and sets the component loading, but sends no
    request and leaves no call in flight; from then on the component stays
    as it is whatever happens: every submission is rejected and
    [stopGeneration] changes nothing. *)
Theorem unparsable_provider_config_blocks_the_chat
    {Value : Type} (JSON_parse : string → option Value)
    (JSON_parse_frame : string → option Wire.t)
    (saved : option (list Message.t)) (inputs : list Chat.Input)
    (llmConfig : option string) (messageText : string) (clock : Chat.Clock)
    (later : list (option string * Chat.Input)) :
  Text.trim messageText ≠ EmptyString →
  Provider.config JSON_parse llmConfig = None →
  let cfg := Chat.run JSON_parse_frame (Chat.mount saved) inputs in
  Chat.isLoading (Chat.ui cfg) = false →
  let stuck := Provider.sendMessage JSON_parse llmConfig messageText clock cfg in
  Chat.messages (Chat.ui stuck)
  = Chat.messages (Chat.ui cfg)
    ++ [Chat.userMessage messageText clock; Chat.assistantMessage clock]
  ∧ Chat.isLoading (Chat.ui stuck) = true
  ∧ Chat.requests stuck = Chat.requests cfg
  ∧ Chat.running stuck = []
  ∧ Provider.run JSON_parse JSON_parse_frame stuck later = stuck.
Proof.
  intros Ht Hc cfg Hl stuck.
  assert (Hr : Chat.running cfg = []).
  { destruct (run_holds JSON_parse_frame _ inputs (mount_holds saved))
      as [[Hr _]|(? & ? & _ & Hb & _)]; [done|].
    fold cfg in Hb. congruence. }
  assert (Es : stuck
    = Chat.mkConfig
        (Chat.mkState
           (Chat.messages (Chat.ui cfg)
            ++ [Chat.userMessage messageText clock; Chat.assistantMessage clock])
           EmptyString true (Some WorkflowStatus.thinking)
           (Some (Chat.nextController cfg)) (Chat.renderError (Chat.ui cfg)))
        [] (Chat.requests cfg) (Chat.outcomes cfg) (S (Chat.nextController cfg))).
  { unfold stuck, Provider.sendMessage. rewrite Hc, Hr. unfold Chat.sendMessage.
    rewrite bool_decide_eq_false_2, Hl by done. cbn [orb Chat.ui Chat.nextController].
    unfold Chat.setMessages, Chat.pushMessage. cbn. by rewrite <- app_assoc. }
  rewrite Es. cbn [Chat.ui Chat.messages Chat.isLoading Chat.requests Chat.running].
  do 4 (split; [done|]).
  clear Es stuck. induction later as [|[text i] later IH]; [done|].
  unfold Provider.run in *. cbn [foldl]. rewrite <- IH at 2. f_equal.
  unfold Provider.step. cbn [fst snd].
  destruct i; cbn [Chat.step Chat.running Chat.lookupInvocation find]; try done.
  - unfold Provider.sendMessage.
    rewrite sendMessage_blocked by done. destruct (Provider.config JSON_parse text); reflexivity.
Qed.

Lemma unparsable_provider_config_blocks_the_chat_witness :
  let clock := Chat.mkClock 1000 1000 1000 1000 in
  let cfg := Chat.run Json.decode (Chat.mount None) [] in
  let stuck := Provider.sendMessage Json.parse (Some "{") "capital of France?" clock cfg in
  let later := [(None, Chat.Stop); (None, Chat.Submit "again" clock)] in
  Text.trim "capital of France?" ≠ EmptyString
  ∧ Provider.config Json.parse (Some "{") = None
  ∧ Chat.isLoading (Chat.ui cfg) = false
  ∧ Chat.messages (Chat.ui stuck)
    = Chat.messages (Chat.ui cfg)
      ++ [Chat.userMessage "capital of France?" clock; Chat.assistantMessage clock]
  ∧ Chat.isLoading (Chat.ui stuck) = true
  ∧ Chat.requests stuck = Chat.requests cfg
  ∧ Chat.running stuck = []
  ∧ Provider.run Json.parse Json.decode stuck later = stuck.
Proof.
  intros clock cfg stuck later.
  assert (H1 : Text.trim "capital of France?" ≠ EmptyString) by discriminate.
  assert (H2 : Provider.config Json.parse (Some "{") = None) by (vm_compute; reflexivity).
  assert (H3 : Chat.isLoading (Chat.ui cfg) = false) by reflexivity.
  do 3 (split; [assumption|]).
  exact (unparsable_provider_config_blocks_the_chat Json.parse Json.decode None []
           (Some "{") "capital of France?" clock later H1 H2 H3).
Defined.
